(** * version-tracker: a shallow embedding of [src/App.jsx]

    The model comes first and follows the source file from top to bottom:
    - the string primitives of the host language that the code calls
      ([trim], [toLowerCase], [includes], [join]);
    - the semver helpers [parseSemver] and [bumpSemver], over a model of the
      binary64 [Number]s they compute with;
    - the Version / Change / Bug records and the CRUD closures of [App],
      written in a small state monad that supplies [uuid()] and [nowISO()];
    - the derived bug feed ([allBugs], [visibleGlobalBugs]);
    - [doExport] and [doImport], over a model of [JSON.stringify] and
      [JSON.parse];
    - what the view derives from the state ([selected], [filtered],
      [openBugs], [visibleBugs], [bugColor]), the handlers of its buttons
      and [BugComposer];
    - [usePersistentState], over a model of [localStorage].
    Then come the notions the properties are stated with, and the
    properties, one part per group of operations.

    Conventions.  A JavaScript string is a [string]; each [ascii] stands for
    the UTF-16 code unit of the same number, so the model covers the strings
    whose code units are below 256; the strings of a parsed document, which
    an escape can give any code unit, have a type of their own.  Timestamps
    are the ISO strings the code stores; [Date_value] reads them the way
    [new Date(s)] does. *)

From Stdlib Require Import ZArith Lia Bool List Ascii String.
From Stdlib Require Import DecimalString DecimalPos DecimalN.
From Stdlib Require Import Sorting.Sorted Sorting.Permutation.
Import ListNotations.

Local Open Scope string_scope.
Local Open Scope Z_scope.

(* ===================================================================== *)
(** ** Strings of the host language *)
(* ===================================================================== *)

Module Str.

Definition code (c : ascii) : Z := Z.of_nat (nat_of_ascii c).

(** WhiteSpace and LineTerminator code units below 256:
    TAB, LF, VT, FF, CR, SP and NBSP. *)
Definition is_ws (c : ascii) : bool :=
  let n := code c in
  (n =? 9) || (n =? 10) || (n =? 11) || (n =? 12) || (n =? 13)
  || (n =? 32) || (n =? 160).

Definition is_digit (c : ascii) : bool :=
  let n := code c in (48 <=? n) && (n <=? 57).

Definition isEmpty (s : string) : bool :=
  match s with EmptyString => true | String _ _ => false end.

Fixpoint trimStart (s : string) : string :=
  match s with
  | String c r => if is_ws c then trimStart r else s
  | EmptyString => EmptyString
  end.

Fixpoint trimEnd (s : string) : string :=
  match s with
  | String c r =>
      let r' := trimEnd r in
      if is_ws c && isEmpty r' then EmptyString else String c r'
  | EmptyString => EmptyString
  end.

(** [String.prototype.trim] *)
Definition trim (s : string) : string := trimEnd (trimStart s).

(** [String.prototype.toLowerCase] on code units below 256: the ASCII
    capitals and the Latin-1 capitals (U+00C0..U+00DE but U+00D7). *)
Definition lower (c : ascii) : ascii :=
  let n := code c in
  if ((65 <=? n) && (n <=? 90))
     || ((192 <=? n) && (n <=? 222) && negb (n =? 215))
  then ascii_of_nat (Z.to_nat (n + 32)) else c.

Fixpoint toLowerCase (s : string) : string :=
  match s with
  | String c r => String (lower c) (toLowerCase r)
  | EmptyString => EmptyString
  end.

Fixpoint startsWith (s p : string) : bool :=
  match p, s with
  | EmptyString, _ => true
  | String a p', String b s' => Ascii.eqb a b && startsWith s' p'
  | String _ _, EmptyString => false
  end.

(** [String.prototype.includes] *)
Fixpoint includes (s q : string) : bool :=
  startsWith s q ||
  match s with
  | String _ r => includes r q
  | EmptyString => false
  end.

(** [Array.prototype.join] on an array of strings *)
Fixpoint join (sep : string) (l : list string) : string :=
  match l with
  | [] => EmptyString
  | [x] => x
  | x :: r => x ++ sep ++ join sep r
  end.

(** The longest prefix of digits, and what follows it. *)
Fixpoint span_digits (s : string) : string * string :=
  match s with
  | String c r =>
      if is_digit c
      then let (d, t) := span_digits r in (String c d, t)
      else (EmptyString, s)
  | EmptyString => (EmptyString, EmptyString)
  end.

Fixpoint all_digits (s : string) : bool :=
  match s with
  | String c r => is_digit c && all_digits r
  | EmptyString => true
  end.

Fixpoint digits_value_from (acc : Z) (s : string) : Z :=
  match s with
  | String c r => digits_value_from (10 * acc + (code c - 48)) r
  | EmptyString => acc
  end.

(** The mathematical value of a string of decimal digits. *)
Definition digits_value (s : string) : Z := digits_value_from 0 s.

(** The decimal digits of a natural number, without leading zeros. *)
Definition decimal (z : Z) : string := NilZero.string_of_uint (N.to_uint (Z.to_N z)).

End Str.

(* ===================================================================== *)
(** ** Numbers

    [+m[1]] and [v.maj + 1] compute in binary64.  The values that occur are
    the non-negative integers a binary64 can hold, and [Infinity]. *)
(* ===================================================================== *)

Module Num.

Inductive Number : Type :=
| Fin (n : Z)
| Infinity.

(** Round a non-negative integer to the nearest binary64, ties to even. *)
Definition round (z : Z) : Number :=
  if z <? 2 ^ 53 then Fin z
  else
    let e := Z.log2 z - 52 in
    let q := z / 2 ^ e in
    let r := z mod 2 ^ e in
    let half := 2 ^ (e - 1) in
    let q' := if r <? half then q
              else if half <? r then q + 1
              else if Z.even q then q else q + 1 in
    let v := q' * 2 ^ e in
    if v <? 2 ^ 1024 then Fin v else Infinity.

(** [ToNumber] of a string of decimal digits (the unary [+] in [+m[1]]):
    the binary64 nearest to the decimal value. *)
Definition ofDigits (s : string) : Number := round (Str.digits_value s).

(** [x + 1] *)
Definition succ (x : Number) : Number :=
  match x with
  | Fin n => round (n + 1)
  | Infinity => Infinity
  end.

Definition ndigits (z : Z) : Z := Z.of_nat (String.length (Str.decimal z)).

(** Number::toString looks for the decimal with the fewest significant
    digits that still rounds to [n]; [shortest] tries [k] significant
    digits, then [k + 1], ... ([fuel] bounds the number of tries).  Of two
    candidates it takes the closer one, and the even one on a tie. *)
Fixpoint shortest (fuel : nat) (d k n : Z) : Z :=
  match fuel with
  | O => n
  | S fuel' =>
      let p := 10 ^ (d - k) in
      let lo := (n / p) * p in
      let hi := lo + p in
      let oklo := match round lo with Fin v => v =? n | Infinity => false end in
      let okhi := match round hi with Fin v => v =? n | Infinity => false end in
      if oklo && okhi then
        if n - lo <? hi - n then lo
        else if hi - n <? n - lo then hi
        else if Z.even (n / p) then lo else hi
      else if oklo then lo
      else if okhi then hi
      else shortest fuel' d (k + 1) n
  end.

Fixpoint strip_zeros_end (s : string) : string :=
  match s with
  | String c r =>
      let r' := strip_zeros_end r in
      if Ascii.eqb c "0" && Str.isEmpty r' then EmptyString else String c r'
  | EmptyString => EmptyString
  end.

(** [String(x)], as a template literal applies it. *)
Definition toString (x : Number) : string :=
  match x with
  | Infinity => "Infinity"
  | Fin n =>
      if n <? 2 ^ 53 then Str.decimal n
      else
        let d := ndigits n in
        let v := shortest (Z.to_nat d) d 1 n in
        let nd := ndigits v in
        if nd <=? 21 then Str.decimal v
        else
          match strip_zeros_end (Str.decimal v) with
          | String c EmptyString =>
              String c ("e+" ++ Str.decimal (nd - 1))
          | String c r => String c ("." ++ r ++ "e+" ++ Str.decimal (nd - 1))
          | EmptyString => EmptyString
          end
  end.

End Num.

(* ===================================================================== *)
(** ** Semver helpers *)
(* ===================================================================== *)

Import Num.

Record Semver : Type := { maj : Number; min : Number; pat : Number }.

(** [v?]: the optional leading [v]. *)
Definition strip_v (s : string) : string :=
  match s with
  | String c r => if Ascii.eqb c "v" then r else s
  | EmptyString => s
  end.

(** [\.]: a dot, and what follows it. *)
Definition after_dot (s : string) : option string :=
  match s with
  | String c r => if Ascii.eqb c "." then Some r else None
  | EmptyString => None
  end.

(** The regular expression [/^v?(\d+)\.(\d+)\.(\d+)$/]: the three captured
    groups of digits, when the whole string matches.  A group of digits is
    never followed by a digit, and a label that starts with [v] cannot
    match without it, so the match needs no backtracking. *)
Definition match_semver (s : string) : option (string * string * string) :=
  let (d1, r1) := Str.span_digits (strip_v s) in
  match after_dot r1 with
  | None => None
  | Some s2 =>
      let (d2, r2) := Str.span_digits s2 in
      match after_dot r2 with
      | None => None
      | Some s3 =>
          let (d3, r3) := Str.span_digits s3 in
          if negb (Str.isEmpty d1) && negb (Str.isEmpty d2)
             && negb (Str.isEmpty d3) && Str.isEmpty r3
          then Some (d1, d2, d3) else None
      end
  end.

Definition parseSemver (label : string) : option Semver :=
  match match_semver (Str.trim label) with
  | None => None
  | Some (m1, m2, m3) =>
      Some {| maj := ofDigits m1; min := ofDigits m2; pat := ofDigits m3 |}
  end.

Definition bumpSemver (label kind : string) : string :=
  let v := match parseSemver label with
           | Some v => v
           | None => {| maj := Fin 0; min := Fin 0; pat := Fin 0 |}
           end in
  if String.eqb kind "major" then
    "v" ++ toString (succ (maj v)) ++ ".0.0"
  else if String.eqb kind "minor" then
    "v" ++ toString (maj v) ++ "." ++ toString (succ (min v)) ++ ".0"
  else
    "v" ++ toString (maj v) ++ "." ++ toString (min v) ++ "."
        ++ toString (succ (pat v)).

(** [bumpSemver(label)]: the parameter [kind] defaults to ["patch"]. *)
Definition bumpSemver_default (label : string) : string :=
  bumpSemver label "patch".

(* ===================================================================== *)
(** ** Data model

    The objects the application keeps in [versions], with the fields of the
    literals that create them (the seed, [addVersion], [addChange],
    [addBug]).  Every field is a string or an array, as in the source. *)
(* ===================================================================== *)

Module Change.
Record t : Type := mk { id : string; type : string; text : string }.
(** [{ ...c, id: i }] *)
Definition with_id (i : string) (c : t) : t :=
  {| id := i; type := type c; text := text c |}.
End Change.

Module Bug.
Record t : Type := mk {
  id : string;
  title : string;
  description : string;
  severity : string;
  status : string;
  tags : list string;
  createdAt : string;
  updatedAt : string
}.

(** An object that carries some of the fields of a Bug: the [patch] of
    [updateBug] and the [partial] of [addBug].  [None] is an absent
    property. *)
Record patch : Type := mkPatch {
  p_id : option string;
  p_title : option string;
  p_description : option string;
  p_severity : option string;
  p_status : option string;
  p_tags : option (list string);
  p_createdAt : option string;
  p_updatedAt : option string
}.

Definition no_patch : patch := mkPatch None None None None None None None None.

Definition over {A : Type} (o : option A) (a : A) : A :=
  match o with Some x => x | None => a end.

(** [{ ...b, ...patch }] *)
Definition merge (b : t) (p : patch) : t :=
  {| id := over (p_id p) (id b);
     title := over (p_title p) (title b);
     description := over (p_description p) (description b);
     severity := over (p_severity p) (severity b);
     status := over (p_status p) (status b);
     tags := over (p_tags p) (tags b);
     createdAt := over (p_createdAt p) (createdAt b);
     updatedAt := over (p_updatedAt p) (updatedAt b) |}.

Definition with_updatedAt (u : string) (b : t) : t :=
  {| id := id b; title := title b; description := description b;
     severity := severity b; status := status b; tags := tags b;
     createdAt := createdAt b; updatedAt := u |}.
End Bug.

Module Version.
Record t : Type := mk {
  id : string;
  label : string;
  date : string;
  summary : string;
  notes : string;
  changes : list Change.t;
  bugs : list Bug.t
}.

(** The [patch] of [updateVersion]: any subset of the fields. *)
Record patch : Type := mkPatch {
  p_id : option string;
  p_label : option string;
  p_date : option string;
  p_summary : option string;
  p_notes : option string;
  p_changes : option (list Change.t);
  p_bugs : option (list Bug.t)
}.

Definition no_patch : patch := mkPatch None None None None None None None.

(** [{ changes: l }] and [{ bugs: l }] *)
Definition patch_changes (l : list Change.t) : patch :=
  mkPatch None None None None None (Some l) None.
Definition patch_bugs (l : list Bug.t) : patch :=
  mkPatch None None None None None None (Some l).

(** [{ ...v, ...patch }] *)
Definition merge (v : t) (p : patch) : t :=
  {| id := Bug.over (p_id p) (id v);
     label := Bug.over (p_label p) (label v);
     date := Bug.over (p_date p) (date v);
     summary := Bug.over (p_summary p) (summary v);
     notes := Bug.over (p_notes p) (notes v);
     changes := Bug.over (p_changes p) (changes v);
     bugs := Bug.over (p_bugs p) (bugs v) |}.
End Version.

(** The Collection: the array held in [versions]. *)
Definition Collection : Type := list Version.t.

(* ===================================================================== *)
(** ** The effects: [uuid()] and [nowISO()]

    Both read the outside world.  A [World] holds what the two calls will
    return, call after call, and how many calls were made so far. *)
(* ===================================================================== *)

Record World : Type := mkWorld {
  uuids : nat -> string;      (* the n-th result of uuid() *)
  uuid_calls : nat;
  clock : nat -> string;      (* the n-th result of nowISO() *)
  clock_calls : nat
}.

Definition M (A : Type) : Type := World -> A * World.

Definition ret {A : Type} (a : A) : M A := fun w => (a, w).

Definition bind {A B : Type} (m : M A) (f : A -> M B) : M B :=
  fun w => let (a, w') := m w in f a w'.

Notation "x <- m ;; k" := (bind m (fun x => k))
  (at level 61, m at next level, right associativity).

Definition uuid : M string :=
  fun w => (uuids w (uuid_calls w),
            mkWorld (uuids w) (S (uuid_calls w)) (clock w) (clock_calls w)).

Definition nowISO : M string :=
  fun w => (clock w (clock_calls w),
            mkWorld (uuids w) (uuid_calls w) (clock w) (S (clock_calls w))).

(** [l.map(f)] when [f] has effects: left to right. *)
Fixpoint mapM {A B : Type} (f : A -> M B) (l : list A) : M (list B) :=
  match l with
  | [] => ret []
  | a :: r => b <- f a ;; bs <- mapM f r ;; ret (b :: bs)
  end.

(* ===================================================================== *)
(** ** The state of [App] and its CRUD closures

    [versions] and [selectedId] are the two pieces of React state the
    closures write.  (The [expanded] map only drives the view and no
    closure below reads it; it is left out.) *)
(* ===================================================================== *)

Record AppState : Type := mkApp {
  versions : Collection;
  selectedId : option string
}.

Definition setVersions (c : Collection) (st : AppState) : AppState :=
  mkApp c (selectedId st).
Definition setSelectedId (i : option string) (st : AppState) : AppState :=
  mkApp (versions st) i.

(** [versions.find((x) => x.id === id)] *)
Definition findVersion (id : string) (c : Collection) : option Version.t :=
  find (fun x => String.eqb (Version.id x) id) c.

(** [s || d] on strings: the empty string is falsy. *)
Definition or_else (s d : string) : string :=
  if Str.isEmpty s then d else s.

Definition addVersion (st : AppState) : M AppState :=
  let base := match versions st with
              | latest :: _ => or_else (Version.label latest) "v0.0.0"
              | [] => "v0.0.0"
              end in
  let nextLabel := bumpSemver base "minor" in
  i <- uuid ;;
  d <- nowISO ;;
  let newV := Version.mk i nextLabel d "" "" [] [] in
  ret (setSelectedId (Some i) (setVersions (newV :: versions st) st)).

Definition updateVersion (id : string) (patch : Version.patch)
    (st : AppState) : AppState :=
  setVersions
    (map (fun v => if String.eqb (Version.id v) id
                   then Version.merge v patch else v) (versions st)) st.

Definition deleteVersion (id : string) (st : AppState) : AppState :=
  let st' := setVersions
    (filter (fun v => negb (String.eqb (Version.id v) id)) (versions st)) st in
  match selectedId st with
  | Some s => if String.eqb s id then setSelectedId None st' else st'
  | None => st'
  end.

Definition copyChange (c : Change.t) : M Change.t :=
  i <- uuid ;; ret (Change.with_id i c).

Definition copyBug (b : Bug.t) : M Bug.t :=
  i <- uuid ;;
  c <- nowISO ;;
  u <- nowISO ;;
  ret (Bug.mk i (Bug.title b) (Bug.description b) (Bug.severity b) "open"
              (Bug.tags b) c u).

Definition duplicateVersion (id : string) (st : AppState) : M AppState :=
  match findVersion id (versions st) with
  | None => ret st
  | Some v =>
      i <- uuid ;;
      d <- nowISO ;;
      cs <- mapM copyChange (Version.changes v) ;;
      bs <- mapM copyBug (Version.bugs v) ;;
      let copy := Version.mk i (Version.label v ++ "-copy") d
                    (Version.summary v) (Version.notes v) cs bs in
      ret (setSelectedId (Some i) (setVersions (copy :: versions st) st))
  end.

Definition addChange (vid type text : string) (st : AppState) : M AppState :=
  match findVersion vid (versions st) with
  | None => ret st
  | Some v =>
      i <- uuid ;;
      ret (updateVersion vid
             (Version.patch_changes (Change.mk i type text :: Version.changes v))
             st)
  end.

Definition removeChange (vid cid : string) (st : AppState) : AppState :=
  match findVersion vid (versions st) with
  | None => st
  | Some v =>
      updateVersion vid
        (Version.patch_changes
           (filter (fun c => negb (String.eqb (Change.id c) cid))
                   (Version.changes v)))
        st
  end.

(** [partial.f || d] for a string property that may be absent. *)
Definition prop_or (o : option string) (d : string) : string :=
  match o with Some s => or_else s d | None => d end.

Definition addBug (vid : string) (partial : Bug.patch) (st : AppState)
    : M AppState :=
  match findVersion vid (versions st) with
  | None => ret st
  | Some v =>
      i <- uuid ;;
      c <- nowISO ;;
      u <- nowISO ;;
      let bug := Bug.mk i
                   (prop_or (Bug.p_title partial) "Untitled bug")
                   (prop_or (Bug.p_description partial) "")
                   (prop_or (Bug.p_severity partial) "low")
                   (prop_or (Bug.p_status partial) "open")
                   (Bug.over (Bug.p_tags partial) [])
                   c u in
      ret (updateVersion vid (Version.patch_bugs (bug :: Version.bugs v)) st)
  end.

Definition updateBug (vid bid : string) (patch : Bug.patch) (st : AppState)
    : M AppState :=
  match findVersion vid (versions st) with
  | None => ret st
  | Some v =>
      bs <- mapM (fun b => if String.eqb (Bug.id b) bid
                           then u <- nowISO ;;
                                ret (Bug.with_updatedAt u (Bug.merge b patch))
                           else ret b)
                 (Version.bugs v) ;;
      ret (updateVersion vid (Version.patch_bugs bs) st)
  end.

Definition deleteBug (vid bid : string) (st : AppState) : AppState :=
  match findVersion vid (versions st) with
  | None => st
  | Some v =>
      updateVersion vid
        (Version.patch_bugs
           (filter (fun b => negb (String.eqb (Bug.id b) bid))
                   (Version.bugs v)))
        st
  end.


(* ===================================================================== *)
(** ** The bug feed of the right sidebar *)
(* ===================================================================== *)

(** A bug of the feed: [{ ...b, versionId: v.id, versionLabel: v.label }]. *)
Record FeedBug : Type := mkFeed {
  bug : Bug.t;
  versionId : string;
  versionLabel : string
}.

Definition allBugs (versions : Collection) : list FeedBug :=
  flat_map (fun v => map (fun b => mkFeed b (Version.id v) (Version.label v))
                         (Version.bugs v))
           versions.

(** [b.status !== "resolved" && b.status !== "closed"] *)
Definition isOpen (b : Bug.t) : bool :=
  negb (String.eqb (Bug.status b) "resolved")
  && negb (String.eqb (Bug.status b) "closed").

(** The three conjuncts of the filter of [visibleGlobalBugs]; [q] is the
    trimmed, lower-cased query. *)
Definition passOpen (globalOnlyOpen : bool) (b : Bug.t) : bool :=
  if globalOnlyOpen then isOpen b else true.

Definition passSeverity (globalSeverity : string) (b : Bug.t) : bool :=
  String.eqb globalSeverity "all" || String.eqb (Bug.severity b) globalSeverity.

Definition passQuery (q : string) (b : Bug.t) : bool :=
  String.eqb q ""
  || Str.includes (Str.toLowerCase (Bug.title b)) q
  || Str.includes (Str.toLowerCase (Str.join " " (Bug.tags b))) q
  || Str.includes (Str.toLowerCase (Bug.description b)) q.

(** [Array.prototype.sort(comparefn)].  The sort is stable, and a [NaN]
    from [comparefn] counts as [+0]; the result is then determined whenever
    [comparefn] is a consistent ordering, and it is found here by insertion.
    When [comparefn] is not consistent, as with an Invalid Date among
    dates, the standard leaves the order to the engine, and the insertion
    is one order among those an engine may give.  [comparefn] returns
    [None] for [NaN]. *)
Section Sort.
Context {A : Type} (comparefn : A -> A -> option Z).

Definition comesAfter (x y : A) : bool :=
  match comparefn x y with
  | Some v => 0 <? v
  | None => false
  end.

Fixpoint insert (x : A) (l : list A) : list A :=
  match l with
  | [] => [x]
  | y :: r => if comesAfter x y then y :: insert x r else x :: l
  end.

Definition sort (l : list A) : list A := fold_right insert [] l.
End Sort.

Section Feed.
(** The time value of [new Date(s)]: milliseconds since the epoch, or [None]
    for an Invalid Date.  What [new Date] accepts beyond the format of
    [toISOString] is left to each engine, so the feed takes it as given. *)
Variable Date_value : string -> option Z.

(** [(a, b) => new Date(b.updatedAt) - new Date(a.updatedAt)].  The sort
    looks at the sign of the result only, and the sign of the binary64
    difference of two time values is the sign of their exact difference. *)
Definition byUpdatedDesc (a b : FeedBug) : option Z :=
  match Date_value (Bug.updatedAt (bug b)), Date_value (Bug.updatedAt (bug a)) with
  | Some tb, Some ta => Some (tb - ta)
  | _, _ => None
  end.

Definition visibleGlobalBugs (versions : Collection)
    (globalBugQuery globalSeverity : string) (globalOnlyOpen : bool)
    : list FeedBug :=
  let q := Str.toLowerCase (Str.trim globalBugQuery) in
  sort byUpdatedDesc
    (filter (fun b => passOpen globalOnlyOpen (bug b)
                      && passSeverity globalSeverity (bug b)
                      && passQuery q (bug b))
            (allBugs versions)).
End Feed.

(** One reading of [Date_value]: the format [toISOString] writes,
    [YYYY-MM-DDTHH:mm:ss.sssZ], and nothing else. *)
Module Iso.

Definition num (s : string) (from len : nat) : option Z :=
  let d := substring from len s in
  if Str.all_digits d && (String.length d =? len)%nat
  then Some (Str.digits_value d) else None.

Definition sep (s : string) (at_ : nat) (c : ascii) : bool :=
  match get at_ s with
  | Some x => Ascii.eqb x c
  | None => false
  end.

Definition leap (y : Z) : bool :=
  ((y mod 4 =? 0) && negb (y mod 100 =? 0)) || (y mod 400 =? 0).

Definition days_in_month (y m : Z) : Z :=
  if m =? 2 then (if leap y then 29 else 28)
  else if (m =? 4) || (m =? 6) || (m =? 9) || (m =? 11) then 30 else 31.

(** Days from 1970-01-01 to the civil date [y-m-d]. *)
Definition days_from_civil (y m d : Z) : Z :=
  let y' := if m <=? 2 then y - 1 else y in
  let era := y' / 400 in
  let yoe := y' - era * 400 in
  let mp := if 2 <? m then m - 3 else m + 9 in
  let doy := (153 * mp + 2) / 5 + d - 1 in
  let doe := yoe * 365 + yoe / 4 - yoe / 100 + doy in
  era * 146097 + doe - 719468.

Definition value (s : string) : option Z :=
  if negb (String.length s =? 24)%nat then None
  else if negb (sep s 4 "-" && sep s 7 "-" && sep s 10 "T" && sep s 13 ":"
                && sep s 16 ":" && sep s 19 "." && sep s 23 "Z") then None
  else
    match num s 0 4, num s 5 2, num s 8 2, num s 11 2, num s 14 2,
          num s 17 2, num s 20 3 with
    | Some y, Some mo, Some d, Some h, Some mi, Some sec, Some ms =>
        if (1 <=? mo) && (mo <=? 12) && (1 <=? d) && (d <=? days_in_month y mo)
           && (h <=? 23) && (mi <=? 59) && (sec <=? 59)
        then Some ((((days_from_civil y mo d * 24 + h) * 60 + mi) * 60 + sec)
                   * 1000 + ms)
        else None
    | _, _, _, _, _, _, _ => None
    end.

End Iso.

(* ===================================================================== *)
(** ** JSON

    The values [JSON.parse] builds and [JSON.stringify] writes.  A Number is
    kept as the literal that denotes it: no operation below computes with
    one, and [stringify] writes the literal back, which is the text of the
    Number when the literal has the form the program prints Numbers in.  An
    object is the list of its properties in creation order, which is the
    order the program enumerates them in when no name is an array index.
    The documents [stringify] writes are texts of code units below 256,
    like every string here; the strings a document denotes can hold any
    code unit, through [\uXXXX], and [parse_str] reads the documents of
    code units below 256 and those with any code unit.  The
    values of a Collection have no Number, no index for a name and no code
    unit of 256 or more. *)
(* ===================================================================== *)

Module JSON.

(** A string of a value.  [Narrow s] has every code unit below 256, as the
    strings outside this module have.  [Wide u] is the list of the code
    units of a string that has one of 256 or more. *)
Inductive str : Type :=
| Narrow (s : string)
| Wide (u : list Z).

Coercion Narrow : string >-> str.

Fixpoint units_eqb (a b : list Z) : bool :=
  match a, b with
  | [], [] => true
  | x :: a', y :: b' => (x =? y) && units_eqb a' b'
  | _, _ => false
  end.

(** [a === b] on strings. *)
Definition str_eqb (a b : str) : bool :=
  match a, b with
  | Narrow x, Narrow y => String.eqb x y
  | Wide x, Wide y => units_eqb x y
  | _, _ => false
  end.

(** The code units of a narrow string. *)
Definition units_of (s : string) : list Z :=
  map Str.code (list_ascii_of_string s).

#[local] Set Warnings "-register-all".
#[local] Unset Elimination Schemes.
Inductive value : Type :=
| JNull
| JBool (b : bool)
| JNum (lit : string)
| JStr (s : str)
| JArr (l : list value)
| JObj (m : list (str * value)).
#[local] Set Elimination Schemes.

Definition quote_char : ascii := ascii_of_nat 34.
Definition newline : ascii := ascii_of_nat 10.
Definition str1 (c : ascii) : string := String c EmptyString.

(** *** JSON.stringify(value, null, 2) *)

Definition hex_digit (n : Z) : ascii :=
  if n <? 10 then ascii_of_nat (Z.to_nat (48 + n))
  else ascii_of_nat (Z.to_nat (87 + n)).

(** QuoteJSONString, one code unit at a time. *)
Definition escape_char (c : ascii) : string :=
  let n := Str.code c in
  if n =? 8 then "\b"
  else if n =? 9 then "\t"
  else if n =? 10 then "\n"
  else if n =? 12 then "\f"
  else if n =? 13 then "\r"
  else if n =? 34 then String "\" (str1 quote_char)
  else if n =? 92 then "\\"
  else if n <? 32 then
    "\u00" ++ String (hex_digit (n / 16)) (str1 (hex_digit (n mod 16)))
  else str1 c.

Fixpoint escape (s : string) : string :=
  match s with
  | String c r => escape_char c ++ escape r
  | EmptyString => EmptyString
  end.

Definition quote (s : string) : string :=
  String quote_char (escape s ++ str1 quote_char).

(** A code unit of 256 or more has no place in the texts of this model.
    Where the program writes the unit itself, the model writes the escape
    that denotes it, which [JSON.parse] reads as the same unit.  No
    Collection holds such a unit. *)
Definition hex4 (n : Z) : string :=
  String (hex_digit (n / 4096))
    (String (hex_digit ((n / 256) mod 16))
       (String (hex_digit ((n / 16) mod 16)) (str1 (hex_digit (n mod 16))))).

Definition escape_unit (n : Z) : string :=
  if n <? 256 then escape_char (ascii_of_nat (Z.to_nat n))
  else "\u" ++ hex4 n.

Definition quote_str (s : str) : string :=
  match s with
  | Narrow s => quote s
  | Wide u =>
      String quote_char
        (String.concat EmptyString (map escape_unit u) ++ str1 quote_char)
  end.

Definition gap : string := "  ".

(** The elements of an array after the first, and the members of an object
    after the first, each behind the separator [sep]; [f] writes a value. *)
Definition ser_elements (f : value -> string) (sep : string)
    : list value -> string :=
  fix go (l : list value) : string :=
    match l with
    | [] => EmptyString
    | y :: l' => sep ++ f y ++ go l'
    end.

Definition ser_members (f : value -> string) (sep : string)
    : list (str * value) -> string :=
  fix go (l : list (str * value)) : string :=
    match l with
    | [] => EmptyString
    | (k, y) :: l' => sep ++ quote_str k ++ ": " ++ f y ++ go l'
    end.

(** SerializeJSONProperty with the current [indent]. *)
Fixpoint ser (indent : string) (v : value) : string :=
  match v with
  | JNull => "null"
  | JBool true => "true"
  | JBool false => "false"
  | JNum lit => lit
  | JStr s => quote_str s
  | JArr [] => "[]"
  | JArr (x :: r) =>
      let inner := indent ++ gap in
      let sep := "," ++ str1 newline ++ inner in
      "[" ++ str1 newline ++ inner ++ ser inner x
      ++ ser_elements (ser inner) sep r
      ++ str1 newline ++ indent ++ "]"
  | JObj [] => "{}"
  | JObj ((k, x) :: r) =>
      let inner := indent ++ gap in
      let sep := "," ++ str1 newline ++ inner in
      "{" ++ str1 newline ++ inner ++ quote_str k ++ ": " ++ ser inner x
      ++ ser_members (ser inner) sep r
      ++ str1 newline ++ indent ++ "}"
  end.

Definition stringify (v : value) : string := ser EmptyString v.

(** *** JSON.parse: the tokens *)

Inductive token : Type :=
| TLBrace | TRBrace | TLBrack | TRBrack | TColon | TComma
| TTrue | TFalse | TNull
| TStr (s : str)
| TNum (lit : string).

(** Where the scanner is inside a number: an optional minus, then 0 or a
    digit from 1 to 9 followed by digits, then optionally a point and
    digits, then optionally e or E, a sign, and digits. *)
Inductive num_state : Type :=
| NMinus | NZero | NInt | NDot | NFrac | NExp | NExpSign | NExpDigits.

Definition num_final (n : num_state) : bool :=
  match n with
  | NZero | NInt | NFrac | NExpDigits => true
  | NMinus | NDot | NExp | NExpSign => false
  end.

Definition num_step (n : num_state) (c : ascii) : option num_state :=
  let d := Str.is_digit c in
  let k := Str.code c in
  let e := (k =? 101) || (k =? 69) in
  match n with
  | NMinus => if k =? 48 then Some NZero else if d then Some NInt else None
  | NZero => if k =? 46 then Some NDot else if e then Some NExp else None
  | NInt => if d then Some NInt else if k =? 46 then Some NDot
            else if e then Some NExp else None
  | NDot => if d then Some NFrac else None
  | NFrac => if d then Some NFrac else if e then Some NExp else None
  | NExp => if d then Some NExpDigits
            else if (k =? 43) || (k =? 45) then Some NExpSign else None
  | NExpSign => if d then Some NExpDigits else None
  | NExpDigits => if d then Some NExpDigits else None
  end.

Inductive lex_state : Type :=
| LStart
| LStr (acc : str)                       (* inside a string *)
| LEsc (acc : str)                       (* after a backslash *)
| LHex (acc : str) (more : nat) (v : Z)  (* inside \uXXXX, [S more] digits to go *)
| LLit (expect : string) (t : token)     (* inside true, false or null *)
| LNum (n : num_state) (acc : string).

Definition snoc (s : string) (c : ascii) : string := s ++ str1 c.

(** The string read so far, and one more code unit: one that stands in
    the text, or one that a [\uXXXX] escape denotes. *)
Definition push_char (acc : str) (c : ascii) : str :=
  match acc with
  | Narrow s => Narrow (snoc s c)
  | Wide u => Wide (u ++ [Str.code c])%list
  end.

Definition push_unit (acc : str) (v : Z) : str :=
  if v <? 256 then push_char acc (ascii_of_nat (Z.to_nat v))
  else match acc with
       | Narrow s => Wide (units_of s ++ [v])%list
       | Wide u => Wide (u ++ [v])%list
       end.

Definition hex_value (c : ascii) : option Z :=
  let k := Str.code c in
  if (48 <=? k) && (k <=? 57) then Some (k - 48)
  else if (97 <=? k) && (k <=? 102) then Some (k - 87)
  else if (65 <=? k) && (k <=? 70) then Some (k - 55)
  else None.

(** The scanner between tokens. *)
Definition step_start (c : ascii) : option (list token * lex_state) :=
  let k := Str.code c in
  if (k =? 32) || (k =? 9) || (k =? 10) || (k =? 13) then Some ([], LStart)
  else if k =? 123 then Some ([TLBrace], LStart)
  else if k =? 125 then Some ([TRBrace], LStart)
  else if k =? 91 then Some ([TLBrack], LStart)
  else if k =? 93 then Some ([TRBrack], LStart)
  else if k =? 58 then Some ([TColon], LStart)
  else if k =? 44 then Some ([TComma], LStart)
  else if k =? 34 then Some ([], LStr EmptyString)
  else if k =? 116 then Some ([], LLit "rue" TTrue)
  else if k =? 102 then Some ([], LLit "alse" TFalse)
  else if k =? 110 then Some ([], LLit "ull" TNull)
  else if k =? 45 then Some ([], LNum NMinus (str1 c))
  else if k =? 48 then Some ([], LNum NZero (str1 c))
  else if Str.is_digit c then Some ([], LNum NInt (str1 c))
  else None.

(** One code unit of the document. *)
Definition step (st : lex_state) (c : ascii) : option (list token * lex_state) :=
  let k := Str.code c in
  match st with
  | LStart => step_start c
  | LStr acc =>
      if k =? 34 then Some ([TStr acc], LStart)
      else if k =? 92 then Some ([], LEsc acc)
      else if k <? 32 then None
      else Some ([], LStr (push_char acc c))
  | LEsc acc =>
      if (k =? 34) || (k =? 92) || (k =? 47) then Some ([], LStr (push_char acc c))
      else if k =? 98 then Some ([], LStr (push_char acc (ascii_of_nat 8)))
      else if k =? 102 then Some ([], LStr (push_char acc (ascii_of_nat 12)))
      else if k =? 110 then Some ([], LStr (push_char acc (ascii_of_nat 10)))
      else if k =? 114 then Some ([], LStr (push_char acc (ascii_of_nat 13)))
      else if k =? 116 then Some ([], LStr (push_char acc (ascii_of_nat 9)))
      else if k =? 117 then Some ([], LHex acc 3 0)
      else None
  | LHex acc more v =>
      match hex_value c with
      | None => None
      | Some d =>
          let v' := 16 * v + d in
          match more with
          | S more' => Some ([], LHex acc more' v')
          | O => Some ([], LStr (push_unit acc v'))
          end
      end
  | LLit expect t =>
      match expect with
      | String e r =>
          if Ascii.eqb c e
          then (if Str.isEmpty r then Some ([t], LStart) else Some ([], LLit r t))
          else None
      | EmptyString => None
      end
  | LNum n acc =>
      match num_step n c with
      | Some n' => Some ([], LNum n' (snoc acc c))
      | None =>
          if num_final n then
            match step_start c with
            | Some (ts, st') => Some (TNum acc :: ts, st')
            | None => None
            end
          else None
      end
  end.

Definition at_end (st : lex_state) : option (list token) :=
  match st with
  | LStart => Some []
  | LNum n acc => if num_final n then Some [TNum acc] else None
  | _ => None
  end.

Definition prepend (ts : list token) (o : option (list token))
    : option (list token) :=
  match o with
  | Some rest => Some (ts ++ rest)%list
  | None => None
  end.

Fixpoint lex (st : lex_state) (s : string) : option (list token) :=
  match s with
  | EmptyString => at_end st
  | String c r =>
      match step st c with
      | None => None
      | Some (ts, st') => prepend ts (lex st' r)
      end
  end.

(** *** JSON.parse: the grammar, one token at a time *)

(** An array or object that is still open, with what it holds so far. *)
Inductive frame : Type :=
| FArr (done : list value)
| FObj (done : list (str * value)) (key : str).

Inductive parse_state : Type :=
| PValue (stk : list frame)                 (* a value comes next *)
| PArr0 (stk : list frame)                  (* after [ *)
| PArrSep (done : list value) (stk : list frame)  (* after an element *)
| PObj0 (stk : list frame)                  (* after { *)
| PObjKey (done : list (str * value)) (stk : list frame)  (* after , *)
| PObjColon (done : list (str * value)) (key : str) (stk : list frame)
| PObjSep (done : list (str * value)) (stk : list frame)  (* after a member *)
| PDone (v : value).

(** Define the property [k]: a second definition of a name replaces the
    value and keeps the place of the first. *)
Fixpoint obj_set (k : str) (v : value) (m : list (str * value))
    : list (str * value) :=
  match m with
  | [] => [(k, v)]
  | (k', v') :: r =>
      if str_eqb k' k then (k', v) :: r else (k', v') :: obj_set k v r
  end.

(** A value is complete: hand it to the innermost open container. *)
Definition reduce (v : value) (stk : list frame) : parse_state :=
  match stk with
  | [] => PDone v
  | FArr done :: s => PArrSep (done ++ [v])%list s
  | FObj done k :: s => PObjSep (obj_set k v done) s
  end.

Definition value_start (stk : list frame) (t : token) : option parse_state :=
  match t with
  | TNull => Some (reduce JNull stk)
  | TTrue => Some (reduce (JBool true) stk)
  | TFalse => Some (reduce (JBool false) stk)
  | TNum lit => Some (reduce (JNum lit) stk)
  | TStr s => Some (reduce (JStr s) stk)
  | TLBrack => Some (PArr0 stk)
  | TLBrace => Some (PObj0 stk)
  | TRBrace | TRBrack | TColon | TComma => None
  end.

Definition parse_step (st : parse_state) (t : token) : option parse_state :=
  match st with
  | PValue stk => value_start stk t
  | PArr0 stk =>
      match t with
      | TRBrack => Some (reduce (JArr []) stk)
      | _ => value_start (FArr [] :: stk) t
      end
  | PArrSep done stk =>
      match t with
      | TComma => Some (PValue (FArr done :: stk))
      | TRBrack => Some (reduce (JArr done) stk)
      | _ => None
      end
  | PObj0 stk =>
      match t with
      | TRBrace => Some (reduce (JObj []) stk)
      | TStr k => Some (PObjColon [] k stk)
      | _ => None
      end
  | PObjKey done stk =>
      match t with
      | TStr k => Some (PObjColon done k stk)
      | _ => None
      end
  | PObjColon done k stk =>
      match t with
      | TColon => Some (PValue (FObj done k :: stk))
      | _ => None
      end
  | PObjSep done stk =>
      match t with
      | TComma => Some (PObjKey done stk)
      | TRBrace => Some (reduce (JObj done) stk)
      | _ => None
      end
  | PDone _ => None
  end.

Fixpoint run (st : parse_state) (ts : list token) : option parse_state :=
  match ts with
  | [] => Some st
  | t :: r =>
      match parse_step st t with
      | Some st' => run st' r
      | None => None
      end
  end.

(** [JSON.parse(text)]; [None] when it throws a SyntaxError. *)
Definition parse (text : string) : option value :=
  match lex LStart text with
  | None => None
  | Some ts =>
      match run (PValue []) ts with
      | Some (PDone v) => Some v
      | _ => None
      end
  end.

(** A document that has a code unit of 256 or more is the list of its code
    units.  Such a unit can stand inside a string, and nowhere else. *)
Definition step_unit (st : lex_state) (k : Z) : option (list token * lex_state) :=
  if k <? 256 then step st (ascii_of_nat (Z.to_nat k))
  else match st with
       | LStr acc => Some ([], LStr (push_unit acc k))
       | _ => None
       end.

Fixpoint lex_units (st : lex_state) (u : list Z) : option (list token) :=
  match u with
  | [] => at_end st
  | k :: r =>
      match step_unit st k with
      | None => None
      | Some (ts, st') => prepend ts (lex_units st' r)
      end
  end.

Definition parse_units (u : list Z) : option value :=
  match lex_units LStart u with
  | None => None
  | Some ts =>
      match run (PValue []) ts with
      | Some (PDone v) => Some v
      | _ => None
      end
  end.

(** [JSON.parse] on any string. *)
Definition parse_str (text : str) : option value :=
  match text with
  | Narrow s => parse s
  | Wide u => parse_units u
  end.

(** [o.k] on an object. *)
Fixpoint get (k : str) (m : list (str * value)) : option value :=
  match m with
  | [] => None
  | (k', v) :: r => if str_eqb k' k then Some v else get k r
  end.

End JSON.

Import JSON.

(* ===================================================================== *)
(** ** Export and import

    [doImport] stores whatever array the document holds, so here [versions]
    is a JSON value; [Collection_to_json] gives the value a Collection is
    in memory. *)
(* ===================================================================== *)

Definition Change_to_json (c : Change.t) : value :=
  JObj [(Narrow "id", JStr (Change.id c));
        (Narrow "type", JStr (Change.type c));
        (Narrow "text", JStr (Change.text c))].

Definition Bug_to_json (b : Bug.t) : value :=
  JObj [(Narrow "id", JStr (Bug.id b));
        (Narrow "title", JStr (Bug.title b));
        (Narrow "description", JStr (Bug.description b));
        (Narrow "severity", JStr (Bug.severity b));
        (Narrow "status", JStr (Bug.status b));
        (Narrow "tags", JArr (map (fun t : string => JStr t) (Bug.tags b)));
        (Narrow "createdAt", JStr (Bug.createdAt b));
        (Narrow "updatedAt", JStr (Bug.updatedAt b))].

Definition Version_to_json (v : Version.t) : value :=
  JObj [(Narrow "id", JStr (Version.id v));
        (Narrow "label", JStr (Version.label v));
        (Narrow "date", JStr (Version.date v));
        (Narrow "summary", JStr (Version.summary v));
        (Narrow "notes", JStr (Version.notes v));
        (Narrow "changes", JArr (map Change_to_json (Version.changes v)));
        (Narrow "bugs", JArr (map Bug_to_json (Version.bugs v)))].

Definition Collection_to_json (c : Collection) : value :=
  JArr (map Version_to_json c).

Record Store : Type := mkStore {
  stored : value;            (* versions *)
  selected : value;          (* selectedId; JNull for null *)
  alerts : list string       (* the messages alert() has shown *)
}.

Definition Store_of (st : AppState) : Store :=
  mkStore (Collection_to_json (versions st))
          (match selectedId st with Some i => JStr i | None => JNull end)
          [].

(** The document [doExport] puts in the Blob it offers for download. *)
Definition doExport (st : Store) : string := stringify (stored st).

(** [data[0]?.id ?? null] *)
Definition first_id (data : list value) : value :=
  match data with
  | JObj m :: _ => match JSON.get "id" m with Some i => i | None => JNull end
  | _ => JNull
  end.

(** The [onload] handler of [doImport], run on the text of the file. *)
Definition doImport (text : str) (st : Store) : Store :=
  match parse_str text with
  | Some (JArr data) => mkStore (JArr data) (first_id data) (alerts st)
  | Some _ | None => mkStore (stored st) (selected st) (alerts st ++ ["Import failed"])%list
  end.

(* ===================================================================== *)
(** ** What the view derives from the state, and its buttons

    The values [App] computes on every render ([selected], [filtered],
    [openBugs], [visibleBugs], the colour of a bug), the handlers of the
    buttons that call the closures above, and [BugComposer]. *)
(* ===================================================================== *)

(** Two more string primitives the view calls. *)
Module StrOps.

(** [s.split(sep)] for a separator of one code unit: the pieces between the
    separators, empty ones included; never an empty array. *)
Fixpoint split (sep : ascii) (s : string) : list string :=
  match s with
  | EmptyString => [EmptyString]
  | String c r =>
      if Ascii.eqb c sep then EmptyString :: split sep r
      else match split sep r with
           | h :: t => String c h :: t
           | [] => [String c EmptyString]
           end
  end.

(** [s.replaceAll(a, b)] for two strings of one code unit. *)
Fixpoint replaceAll (a b : ascii) (s : string) : string :=
  match s with
  | String c r => String (if Ascii.eqb c a then b else c) (replaceAll a b r)
  | EmptyString => EmptyString
  end.

(** [s.slice(0, n)] *)
Definition slice0 (n : nat) (s : string) : string := substring 0 n s.

End StrOps.

(** [selected]: [versions.find((v) => v.id === selectedId) || null]. *)
Definition selectedVersion (st : AppState) : option Version.t :=
  match selectedId st with
  | Some i => findVersion i (versions st)
  | None => None
  end.

(** The first value of [selectedId], [versions[0]?.id || null], and the
    state [App] starts in for the stored collection. *)
Definition initialSelectedId (versions : Collection) : option string :=
  match versions with
  | first :: _ =>
      if Str.isEmpty (Version.id first) then None else Some (Version.id first)
  | [] => None
  end.

Definition App_init (versions : Collection) : AppState :=
  mkApp versions (initialSelectedId versions).

(** The test of the filter of [filtered]; [q] is the trimmed, lower-cased
    query. *)
Definition matchesQuery (q : string) (v : Version.t) : bool :=
  Str.includes (Str.toLowerCase (Version.label v)) q
  || Str.includes (Str.toLowerCase (Version.summary v)) q
  || Str.includes (Str.toLowerCase (Version.notes v)) q
  || existsb (fun c => Str.includes (Str.toLowerCase (Change.text c)) q)
             (Version.changes v)
  || existsb (fun b => Str.includes (Str.toLowerCase (Bug.title b)) q
                       || Str.includes
                            (Str.toLowerCase (Str.join " " (Bug.tags b))) q)
             (Version.bugs v).

(** The versions the left sidebar lists for the text of the search box. *)
Definition filtered (versions : Collection) (query : string) : Collection :=
  let q := Str.toLowerCase (Str.trim query) in
  if Str.isEmpty q then versions else filter (matchesQuery q) versions.

(** [openCount], beside each version of the list. *)
Definition openCount (v : Version.t) : nat :=
  List.length (filter isOpen (Version.bugs v)).

(** [openBugs]: the number behind "Open bugs:". *)
Definition openBugs (versions : Collection) : nat :=
  fold_left (fun a v => (a + List.length (filter isOpen (Version.bugs v)))%nat)
            versions 0%nat.

(** [visibleBugs]: the bugs the main panel lists for the selected version. *)
Definition visibleBugs (st : AppState) (onlyOpenBugs : bool) : list Bug.t :=
  filter (fun b => if onlyOpenBugs then isOpen b else true)
         (match selectedVersion st with
          | Some v => Version.bugs v
          | None => []
          end).

Definition bugColor (b : Bug.t) : string :=
  if String.eqb (Bug.status b) "resolved" then "green"
  else if String.eqb (Bug.status b) "closed" then "gray"
  else if String.eqb (Bug.severity b) "low" then "gold"
  else if String.eqb (Bug.severity b) "medium" then "orange"
  else if String.eqb (Bug.severity b) "high" then "darkorange"
  else if String.eqb (Bug.severity b) "critical" then "red"
  else "gray".

(** [closed], which hides the Resolve button of a bug of the feed. *)
Definition closed (b : Bug.t) : bool :=
  String.eqb (Bug.status b) "resolved" || String.eqb (Bug.status b) "closed".

(** [{ status: "resolved" }] and [{ label: l }] *)
Definition patch_resolved : Bug.patch :=
  Bug.mkPatch None None None None (Some "resolved") None None None.

Definition patch_label (l : string) : Version.patch :=
  Version.mkPatch None (Some l) None None None None None.

(** The buttons +Major, +Minor and +Patch of the main panel, which is there
    when a version is selected:
    [updateVersion(selected.id, { label: bumpSemver(selected.label, kind) })]. *)
Definition bumpButton (kind : string) (st : AppState) : AppState :=
  match selectedVersion st with
  | Some v =>
      updateVersion (Version.id v)
        (patch_label (bumpSemver (Version.label v) kind)) st
  | None => st
  end.

(** The buttons of a bug of the feed.  Resolve is there for a bug that is
    not [closed]; both select the version of the bug first. *)
Definition feedResolve (b : FeedBug) (st : AppState) : M AppState :=
  if closed (bug b) then ret st
  else updateBug (versionId b) (Bug.id (bug b)) patch_resolved
                 (setSelectedId (Some (versionId b)) st).

Definition feedDelete (b : FeedBug) (st : AppState) : AppState :=
  deleteBug (versionId b) (Bug.id (bug b))
            (setSelectedId (Some (versionId b)) st).

(** The tags [BugComposer] makes of the text of its tag box:
    [tags.split(",").map(s => s.trim()).filter(Boolean)]. *)
Definition composerTags (tags : string) : list string :=
  filter (fun s => negb (Str.isEmpty s))
         (map Str.trim (StrOps.split "," tags)).

(** The [Add Bug] button of [BugComposer], wired to [addBug] for the
    selected version. *)
Definition BugComposer_add (vid title desc sev tags : string) (st : AppState)
    : M AppState :=
  if Str.isEmpty (Str.trim title) then ret st
  else addBug vid
         (Bug.mkPatch None (Some title) (Some desc) (Some sev) None
                      (Some (composerTags tags)) None None)
         st.

(** The name [doExport] gives the download: the time of the export, read
    like [nowISO()] reads it, cut after the seconds. *)
Definition exportName : M string :=
  t <- nowISO ;;
  ret ("devlog_" ++ StrOps.replaceAll ":" "-" (StrOps.slice0 19 t) ++ ".json")%string.

(* ===================================================================== *)
(** ** Persistence: [usePersistentState]

    [localStorage] is a map from keys to strings that may refuse every
    access; [getItem] and [setItem] throw then. *)
(* ===================================================================== *)

Module LocalStorage.
Record t : Type := mk {
  items : string -> option string;
  denied : bool
}.

(** [None] when the call throws, [Some None] for [null]. *)
Definition getItem (key : string) (s : t) : option (option string) :=
  if denied s then None else Some (items s key).

Definition setItem (key value : string) (s : t) : option t :=
  if denied s then None
  else Some (mk (fun k => if String.eqb k key then Some value else items s k)
                false).
End LocalStorage.

Definition LS_KEY : string := "devlog.version.bug.tracker.simple".

(** [JSON.stringify(value)]: no indentation, no space after a colon. *)
Definition ser_members_nogap (f : value -> string)
    : list (str * value) -> string :=
  fix go (l : list (str * value)) : string :=
    match l with
    | [] => EmptyString
    | (k, y) :: l' => ("," ++ quote_str k ++ ":" ++ f y ++ go l')%string
    end.

Fixpoint stringify_nogap (v : value) : string :=
  match v with
  | JNull => "null"
  | JBool true => "true"
  | JBool false => "false"
  | JNum lit => lit
  | JStr s => quote_str s
  | JArr [] => "[]"
  | JArr (x :: r) =>
      ("[" ++ stringify_nogap x ++ ser_elements stringify_nogap "," r ++ "]")%string
  | JObj [] => "{}"
  | JObj ((k, x) :: r) =>
      ("{" ++ quote_str k ++ ":" ++ stringify_nogap x
       ++ ser_members_nogap stringify_nogap r ++ "}")%string
  end.

(** The initializer of the state: what is stored under [key], parsed, and
    [initial] when nothing is stored or anything throws. *)
Definition usePersistentState_init (key : string) (initial : value)
    (ls : LocalStorage.t) : value :=
  match LocalStorage.getItem key ls with
  | None => initial
  | Some None => initial
  | Some (Some raw) =>
      if Str.isEmpty raw then initial
      else match parse raw with
           | Some v => v
           | None => initial
           end
  end.

(** The effect that runs when the state changed: store it, and go on
    when that throws. *)
Definition usePersistentState_effect (key : string) (v : value)
    (ls : LocalStorage.t) : LocalStorage.t :=
  match LocalStorage.setItem key (stringify_nogap v) ls with
  | Some ls' => ls'
  | None => ls
  end.

(* ===================================================================== *)
(** ** The vocabulary of the properties

    What the statements below are written with: the notions of the
    specification, the shapes of results, and the data the examples run
    on. *)
(* ===================================================================== *)

(** A non-empty string of decimal digits. *)
Definition digits (d : string) : Prop :=
  d <> EmptyString /\ Str.all_digits d = true.

(** [label] reads as the version [M.m.p]: trimmed, it is an optional [v]
    and three groups of digits separated by dots. *)
Definition SemverLabel (label : string) (M m p : Z) : Prop :=
  exists pre d1 d2 d3,
    Str.trim label = pre ++ d1 ++ "." ++ d2 ++ "." ++ d3
    /\ (pre = EmptyString \/ pre = "v")
    /\ digits d1 /\ digits d2 /\ digits d3
    /\ M = Str.digits_value d1 /\ m = Str.digits_value d2
    /\ p = Str.digits_value d3.

(** The version [bump] starts from: the one [label] reads as, and [0.0.0]
    for a label that reads as none. *)
Definition Baseline (label : string) (M m p : Z) : Prop :=
  SemverLabel label M m p
  \/ ((forall M' m' p', ~ SemverLabel label M' m' p')
      /\ M = 0 /\ m = 0 /\ p = 0).

(** [v{major}.{minor}.{patch}] *)
Definition format (M m p : Z) : string :=
  "v" ++ Str.decimal M ++ "." ++ Str.decimal m ++ "." ++ Str.decimal p.

(** The label the specification asks of [bump]. *)
Definition bumped (kind : string) (M m p : Z) : string :=
  if String.eqb kind "major" then format (M + 1) 0 0
  else if String.eqb kind "minor" then format M (m + 1) 0
  else format M m (p + 1).

(** The largest integer below which every integer is a binary64:
    [Number.MAX_SAFE_INTEGER]. *)
Definition MAX_SAFE_INTEGER : Z := 2 ^ 53 - 1.

Local Open Scope list_scope.

(** The ids of the versions of a collection, in order. *)
Definition ids (c : Collection) : list string := map Version.id c.

(** [{ ...v, changes: l }] and [{ ...v, bugs: l }] *)
Definition with_changes (l : list Change.t) (v : Version.t) : Version.t :=
  Version.mk (Version.id v) (Version.label v) (Version.date v)
             (Version.summary v) (Version.notes v) l (Version.bugs v).

Definition with_bugs (l : list Bug.t) (v : Version.t) : Version.t :=
  Version.mk (Version.id v) (Version.label v) (Version.date v)
             (Version.summary v) (Version.notes v) (Version.changes v) l.

(** *** A world and a state to run the closures on *)

(** [n] strokes: the demo [uuid()] returns [u], [ui], [uii], ... *)
Fixpoint tally (n : nat) : string :=
  match n with O => EmptyString | S k => String "i" (tally k) end.

(** The demo clock ticks a second per call, nine times, and then stands. *)
Definition demo_clock (n : nat) : string :=
  ("2024-03-01T12:00:0" ++ Str.decimal (Z.of_nat (Nat.min n 9)) ++ ".000Z")%string.

Definition demo_world : World :=
  mkWorld (fun n => String "u" (tally n)) 0 demo_clock 0.

(** A world whose [uuid()] returns [a] at every call. *)
Definition stuck_world : World := mkWorld (fun _ => "a") 0 demo_clock 0.

(** Two versions; the older one has a change and a resolved bug. *)
Definition demo_bug : Bug.t :=
  Bug.mk "b1" "Wheel collider slips" "on ice" "medium" "resolved"
         ["physics"; "handling"]
         "2024-01-01T00:00:00.000Z" "2024-01-02T00:00:00.000Z".

Definition demo_version : Version.t :=
  Version.mk "a" "v0.1.0" "2024-01-01T00:00:00.000Z" "Initial prototype" ""
             [Change.mk "c1" "add" "Version list"] [demo_bug].

Definition demo_other : Version.t :=
  Version.mk "b" "v0.2.0" "2024-02-01T00:00:00.000Z" "" "" [] [].

Definition demo_state : AppState :=
  mkApp [demo_other; demo_version] (Some "b").

(** The demo state after [addBug("b", { title: "Crash" })], and the world
    that call leaves. *)
Definition stamped_bug : Bug.t :=
  Bug.mk "u" "Crash" "" "low" "open" []
         "2024-03-01T12:00:00.000Z" "2024-03-01T12:00:01.000Z".

Definition stamped_state : AppState :=
  mkApp [with_bugs [stamped_bug] demo_other; demo_version] (Some "b").

Definition stamped_world : World :=
  mkWorld (fun n => String "u" (tally n)) 1 demo_clock 2.

(** The world after [u] more calls of [uuid()] and [k] more of [nowISO()]. *)
Definition advance (u k : nat) (w : World) : World :=
  mkWorld (uuids w) (uuid_calls w + u) (clock w) (clock_calls w + k).

Section Stamps.
Variable Date_value : string -> option Z.

(** Both strings are dates, and the first is not later than the second. *)
Definition stamp_le (s1 s2 : string) : Prop :=
  exists a b, Date_value s1 = Some a /\ Date_value s2 = Some b /\ a <= b.

(** The clock never runs backwards: a later call of [nowISO()] does not
    return an earlier date. *)
Definition nondecreasing (w : World) : Prop :=
  forall i j, (i <= j)%nat -> stamp_le (clock w i) (clock w j).
End Stamps.

(** [s] is what a call of [nowISO()] made before [w] returned. *)
Definition read_before (w : World) (s : string) : Prop :=
  exists i, (i < clock_calls w)%nat /\ s = clock w i.

(** One field of a bug after a patch was merged into it: what the patch
    carries for that field, and what the bug had when the patch carries
    nothing for it. *)
Definition field_of {A : Type} (o : option A) (old new : A) : Prop :=
  match o with
  | Some x => new = x
  | None => new = old
  end.

(** [b'] is [b] with the patch [p] merged into it and [now] for its
    [updatedAt], whatever the patch carries for that field. *)
Definition Patched (b : Bug.t) (p : Bug.patch) (now : string) (b' : Bug.t)
    : Prop :=
  field_of (Bug.p_id p) (Bug.id b) (Bug.id b')
  /\ field_of (Bug.p_title p) (Bug.title b) (Bug.title b')
  /\ field_of (Bug.p_description p) (Bug.description b) (Bug.description b')
  /\ field_of (Bug.p_severity p) (Bug.severity b) (Bug.severity b')
  /\ field_of (Bug.p_status p) (Bug.status b) (Bug.status b')
  /\ field_of (Bug.p_tags p) (Bug.tags b) (Bug.tags b')
  /\ field_of (Bug.p_createdAt p) (Bug.createdAt b) (Bug.createdAt b')
  /\ Bug.updatedAt b' = now.

(** A patch that renames a bug and resolves it, and carries an [updatedAt]
    of its own. *)
Definition demo_patch : Bug.patch :=
  Bug.mkPatch None (Some "Crash on load") None None (Some "resolved") None
              None (Some "1999-01-01T00:00:00.000Z").

(** The demo state with a bug that was stamped in the year 2999, as an
    imported collection can hold one. *)
Definition future_bug : Bug.t :=
  Bug.mk "u" "Crash" "" "low" "open" []
         "2999-01-01T00:00:00.000Z" "2999-01-01T00:00:00.000Z".

Definition future_state : AppState :=
  mkApp [with_bugs [future_bug] demo_other; demo_version] (Some "b").

(** Every id in use in a collection: of its versions, changes and bugs. *)
Definition used_ids (c : Collection) : list string :=
  flat_map (fun v => Version.id v
                     :: map Change.id (Version.changes v)
                     ++ map Bug.id (Version.bugs v)) c.

(** From [w] on, [uuid()] returns ids that are new: none is in use in [c],
    and none comes twice. *)
Definition fresh_uuids (w : World) (c : Collection) : Prop :=
  (forall i, (uuid_calls w <= i)%nat -> ~ In (uuids w i) (used_ids c))
  /\ (forall i j, (uuid_calls w <= i)%nat -> (uuid_calls w <= j)%nat ->
                  uuids w i = uuids w j -> i = j).

(** What [mapM copyChange] and [mapM copyBug] return, when the next
    [uuid()] is the [u]-th and the next [nowISO()] the [k]-th. *)
Fixpoint copied_changes (id : nat -> string) (u : nat) (l : list Change.t)
    : list Change.t :=
  match l with
  | [] => []
  | c :: r => Change.with_id (id u) c :: copied_changes id (S u) r
  end.

Fixpoint copied_bugs (id now : nat -> string) (u k : nat) (l : list Bug.t)
    : list Bug.t :=
  match l with
  | [] => []
  | b :: r =>
      Bug.mk (id u) (Bug.title b) (Bug.description b) (Bug.severity b)
             "open" (Bug.tags b) (now k) (now (S k))
      :: copied_bugs id now (S u) (S (S k)) r
  end.

(** [q] occurs in [s]. *)
Definition Substring (q s : string) : Prop :=
  exists pre post, s = (pre ++ q ++ post)%string.

(** The time value of the [updatedAt] of a feed bug ([0] when it is no
    date; the statements below use it for dates only). *)
Definition updated_ms (Date_value : string -> option Z) (b : FeedBug) : Z :=
  match Date_value (Bug.updatedAt (bug b)) with Some t => t | None => 0 end.

(** White space only. *)
Fixpoint whitespace (s : string) : bool :=
  match s with
  | String c r => Str.is_ws c && whitespace r
  | EmptyString => true
  end.

(** The last code unit of the string [String c u]. *)
Fixpoint last_unit (c : ascii) (u : string) : ascii :=
  match u with
  | EmptyString => c
  | String d v => last_unit d v
  end.

(** No white space at the first place of a string, nor at its last. *)
Definition ends_clean (t : string) : bool :=
  match t with
  | EmptyString => true
  | String c u => negb (Str.is_ws c) && negb (Str.is_ws (last_unit c u))
  end.

(** [t] is the trimmed [s]: [s] without the white space at its two ends. *)
Definition Trimmed (s t : string) : Prop :=
  exists l r, s = (l ++ t ++ r)%string
              /\ whitespace l = true /\ whitespace r = true
              /\ ends_clean t = true.

(** A capital letter below 256: [A] to [Z], and the capitals of Latin-1
    (U+00C0 to U+00DE but the sign U+00D7).  The small letter of a capital
    is 32 code units after it. *)
Definition capital (c : ascii) : bool :=
  let n := Str.code c in
  ((65 <=? n) && (n <=? 90)) || ((192 <=? n) && (n <=? 222) && negb (n =? 215)).

(** The same letter, in the same case or not. *)
Definition same_letter (c d : ascii) : bool :=
  Ascii.eqb c d
  || (capital c && (Str.code d =? Str.code c + 32))
  || (capital d && (Str.code c =? Str.code d + 32)).

Fixpoint same_letters (s t : string) : bool :=
  match s, t with
  | EmptyString, EmptyString => true
  | String c s', String d t' => same_letter c d && same_letters s' t'
  | _, _ => false
  end.

(** [q] occurs in [s], the case of the letters apart. *)
Definition OccursNoCase (q s : string) : Prop :=
  exists pre mid post,
    s = (pre ++ mid ++ post)%string /\ same_letters q mid = true.

(** What the specification asks of a bug for it to be in the feed: its
    status when the toggle is on, its severity when one is selected, and
    the trimmed query, when that is not empty, somewhere in its title, its
    tags joined by spaces or its description, the case of the letters
    apart. *)
Definition Visible (query severity : string) (onlyOpen : bool) (b : Bug.t) : Prop :=
  (onlyOpen = true -> Bug.status b <> "resolved" /\ Bug.status b <> "closed")
  /\ (severity <> "all" -> Bug.severity b = severity)
  /\ (exists q, Trimmed query q
       /\ (q <> EmptyString ->
           OccursNoCase q (Bug.title b)
           \/ OccursNoCase q (Str.join " " (Bug.tags b))
           \/ OccursNoCase q (Bug.description b))).

(** [c'] is [c] without the versions whose id is [id]: the others, as they
    were and in their order. *)
Inductive Removed (id : string) : Collection -> Collection -> Prop :=
| Removed_nil : Removed id [] []
| Removed_drop v c c' :
    Version.id v = id -> Removed id c c' -> Removed id (v :: c) c'
| Removed_keep v c c' :
    Version.id v <> id -> Removed id c c' -> Removed id (v :: c) (v :: c').



(** A collection with open, resolved and closed bugs across two versions. *)
Definition feed_bug (id status updatedAt : string) : Bug.t :=
  Bug.mk id ("Bug " ++ id) "" "low" status [] "2024-01-01T00:00:00.000Z" updatedAt.

Definition feed_collection : Collection :=
  [ Version.mk "v2" "v0.2.0" "2024-02-01T00:00:00.000Z" "" "" []
      [ feed_bug "1" "open" "2024-01-02T00:00:00.000Z";
        feed_bug "2" "resolved" "2024-01-03T00:00:00.000Z";
        feed_bug "3" "open" "2024-01-05T00:00:00.000Z" ];
    Version.mk "v1" "v0.1.0" "2024-01-01T00:00:00.000Z" "" "" []
      [ feed_bug "4" "closed" "2024-01-09T00:00:00.000Z";
        feed_bug "5" "in_progress" "2024-01-04T00:00:00.000Z" ] ].

(** A collection to search: bugs that hold the word [collider] in their
    title, tags or description, in one case or another, and two bugs of
    two versions that were updated at the same time. *)
Definition tie_bug (id title description severity status : string)
    (tags : list string) (updatedAt : string) : Bug.t :=
  Bug.mk id title description severity status tags
         "2024-01-01T00:00:00.000Z" updatedAt.

Definition tie_tagged : Bug.t :=
  tie_bug "2" "Menu flicker" "" "high" "closed" ["ui"; "collider"]
          "2024-01-03T00:00:00.000Z".

Definition tie_first : Version.t :=
  Version.mk "v1" "v0.1.0" "2024-01-01T00:00:00.000Z" "" "" []
    [ tie_bug "1" "Wheel Collider slips" "" "high" "open" ["physics"]
              "2024-01-05T00:00:00.000Z";
      tie_tagged ].

Definition tie_collection : Collection :=
  [ tie_first;
    Version.mk "v2" "v0.2.0" "2024-02-01T00:00:00.000Z" "" "" []
      [ tie_bug "3" "Crash" "in the COLLIDER cache" "high" "resolved" []
                "2024-01-05T00:00:00.000Z";
        tie_bug "4" "collider again" "" "low" "open" []
                "2024-01-09T00:00:00.000Z";
        tie_bug "5" "Typo" "" "high" "open" [] "2024-01-09T00:00:00.000Z" ] ].


(** A call of one of the nine closures. *)
Inductive Op : Type :=
| OpAddVersion
| OpUpdateVersion (id : string) (patch : Version.patch)
| OpDeleteVersion (id : string)
| OpDuplicateVersion (id : string)
| OpAddChange (vid type text : string)
| OpRemoveChange (vid cid : string)
| OpAddBug (vid : string) (partial : Bug.patch)
| OpUpdateBug (vid bid : string) (patch : Bug.patch)
| OpDeleteBug (vid bid : string).

(** Run one call, then a sequence of calls. *)
Definition apply_op (op : Op) (st : AppState) : M AppState :=
  match op with
  | OpAddVersion => addVersion st
  | OpUpdateVersion id patch => ret (updateVersion id patch st)
  | OpDeleteVersion id => ret (deleteVersion id st)
  | OpDuplicateVersion id => duplicateVersion id st
  | OpAddChange vid type text => addChange vid type text st
  | OpRemoveChange vid cid => ret (removeChange vid cid st)
  | OpAddBug vid partial => addBug vid partial st
  | OpUpdateBug vid bid patch => updateBug vid bid patch st
  | OpDeleteBug vid bid => ret (deleteBug vid bid st)
  end.

Fixpoint run_ops (ops : list Op) (st : AppState) : M AppState :=
  match ops with
  | [] => ret st
  | op :: r => st' <- apply_op op st ;; run_ops r st'
  end.

(** The patch of an [updateVersion] carries no [id]. *)
Definition keeps_id (op : Op) : Prop :=
  match op with
  | OpUpdateVersion _ patch => Version.p_id patch = None
  | _ => True
  end.

(** From [w] on, [uuid()] returns ids that no version of [c] has, and
    never the same id twice. *)
Definition fresh_for (w : World) (c : Collection) : Prop :=
  (forall i, (uuid_calls w <= i)%nat -> ~ In (uuids w i) (ids c))
  /\ (forall i j, (uuid_calls w <= i)%nat -> (uuid_calls w <= j)%nat ->
                  uuids w i = uuids w j -> i = j).

(** Version for version, [c'] has the ids of [c]: as many versions, and
    the version at each place has the id of the version that was there. *)
Definition same_ids (c c' : Collection) : Prop :=
  Forall2 (fun v v' => Version.id v' = Version.id v) c c'.

(** What one operation does to the versions.  Every version stays at its
    place with its id; or a version whose id no version has comes in front
    of the others, which stay as they were; or the versions with one id go
    and the others stay as they were and in their order.  In each case a
    version that is there before and after has the id it had. *)
Inductive Keeps (c : Collection) : Collection -> Prop :=
| Keeps_all c' : same_ids c c' -> Keeps c c'
| Keeps_new v : ~ In (Version.id v) (ids c) -> Keeps c (v :: c)
| Keeps_delete id c' : Removed id c c' -> Keeps c c'.

(** Five operations to run on the demo state, and a patch with an [id]. *)
Definition demo_ops : list Op :=
  [OpAddVersion;
   OpUpdateVersion "a" (Version.mkPatch None (Some "v9.9.9") None None
                                        None None None);
   OpDuplicateVersion "a"; OpDeleteVersion "b";
   OpUpdateBug "a" "b1" Bug.no_patch].

Definition id_patch : Version.patch :=
  Version.mkPatch (Some "b") None None None None None None.

(** The world moved on: same streams, [uuid()] called some more times. *)
Definition later (w w' : World) : Prop :=
  uuids w' = uuids w /\ (uuid_calls w <= uuid_calls w')%nat.

(** The tokens of the text of a value. *)
Fixpoint tokens_of (v : value) : list token :=
  match v with
  | JNull => [TNull]
  | JBool true => [TTrue]
  | JBool false => [TFalse]
  | JNum lit => [TNum lit]
  | JStr s => [TStr s]
  | JArr [] => [TLBrack; TRBrack]
  | JArr (x :: r) =>
      TLBrack :: tokens_of x
      ++ flat_map (fun y => TComma :: tokens_of y) r ++ [TRBrack]
  | JObj [] => [TLBrace; TRBrace]
  | JObj ((k, x) :: r) =>
      TLBrace :: TStr k :: TColon :: tokens_of x
      ++ flat_map (fun ky => TComma :: TStr (fst ky) :: TColon
                                    :: tokens_of (snd ky)) r
      ++ [TRBrace]
  end.

#[local] Set Warnings "-register-all".

(** A narrow string. *)
Definition narrow (s : str) : Prop :=
  match s with Narrow _ => True | Wide _ => False end.

(** The values a Collection is made of: no Number, no object with the same
    property name twice, and only narrow strings and property names. *)
Inductive Plain : value -> Prop :=
| Plain_null : Plain JNull
| Plain_bool b : Plain (JBool b)
| Plain_str (s : string) : Plain (JStr s)
| Plain_arr l : Forall Plain l -> Plain (JArr l)
| Plain_obj m :
    NoDup (map fst m) -> Forall (fun kv => narrow (fst kv)) m ->
    Forall (fun kv => Plain (snd kv)) m -> Plain (JObj m).

(** Spaces, tabs, line feeds and carriage returns only. *)
Fixpoint blank (s : string) : bool :=
  match s with
  | EmptyString => true
  | String c r =>
      let k := Str.code c in
      ((k =? 32) || (k =? 9) || (k =? 10) || (k =? 13)) && blank r
  end.

(** Induction on a value, with the property at hand for the elements of an
    array and the members of an object. *)
Section ValueInduction.
Variable P : value -> Prop.
Hypothesis HNull : P JNull.
Hypothesis HBool : forall b, P (JBool b).
Hypothesis HNum : forall lit, P (JNum lit).
Hypothesis HStr : forall s, P (JStr s).
Hypothesis HArr : forall l, Forall P l -> P (JArr l).
Hypothesis HObj : forall m, Forall (fun kv => P (snd kv)) m -> P (JObj m).

Fixpoint value_induction (v : value) : P v :=
  match v with
  | JNull => HNull
  | JBool b => HBool b
  | JNum lit => HNum lit
  | JStr s => HStr s
  | JArr l =>
      HArr l ((fix go (l : list value) : Forall P l :=
                 match l with
                 | [] => Forall_nil P
                 | x :: r => Forall_cons x (value_induction x) (go r)
                 end) l)
  | JObj m =>
      HObj m ((fix go (m : list (str * value))
                 : Forall (fun kv => P (snd kv)) m :=
                 match m with
                 | [] => Forall_nil _
                 | kv :: r => Forall_cons kv (value_induction (snd kv)) (go r)
                 end) m)
  end.
End ValueInduction.

(** The claim of the scanner on the text of [v], for every indentation. *)
Definition Lexes (v : value) : Prop :=
  Plain v ->
  forall ind rest, blank ind = true ->
    lex LStart (ser ind v ++ rest)%string
    = prepend (tokens_of v) (lex LStart rest).

(** The grammar: the tokens of a value, read where a value may stand,
    complete that value. *)
Definition Parses (v : value) : Prop :=
  Plain v ->
  forall stk rest,
    run (PValue stk) (tokens_of v ++ rest) = run (reduce v stk) rest.

(** The [id] of an entry of an imported array: [x?.id ?? null]. *)
Definition id_of (x : value) : value :=
  match x with
  | JObj m => match JSON.get "id" m with Some i => i | None => JNull end
  | _ => JNull
  end.

(** The top-level value of a document is an array. *)
Definition is_array (v : value) : Prop := exists data, v = JArr data.

(** An array of one version, and an object: two documents to import. *)
Definition array_document : string :=
  stringify (Collection_to_json [demo_other]).

Definition object_document : string :=
  stringify (Version_to_json demo_other).

(** The string of the one code unit [n]. *)
Definition unit_str (n : Z) : str :=
  if n <? 256 then Narrow (str1 (ascii_of_nat (Z.to_nat n))) else Wide [n].

(** The document [["?"]] with the code unit U+0100 for [?]. *)
Definition wide_document : str := Wide [91; 34; 256; 34; 93].

(** The document of an array of one entry, whose [id] is written as the
    escape [\uXXXX] of the code unit [n]. *)
Definition escape_document (n : Z) : string :=
  "[{" ++ quote "id" ++ ":" ++ str1 quote_char ++ "\u" ++ hex4 n
       ++ str1 quote_char ++ "}]".

(** *** The view, the buttons and the stored state *)

(** The version after a bump of the given kind. *)
Definition next (kind : string) (t : Z * Z * Z) : Z * Z * Z :=
  let '(M, m, p) := t in
  if String.eqb kind "major" then (M + 1, 0, 0)
  else if String.eqb kind "minor" then (M, m + 1, 0)
  else (M, m, p + 1).

Definition format3 (t : Z * Z * Z) : string :=
  let '(M, m, p) := t in format M m p.

(** No component of a version is above [n]. *)
Definition within (n : Z) (t : Z * Z * Z) : Prop :=
  let '(M, m, p) := t in M <= n /\ m <= n /\ p <= n.

(** A label bumped once for each kind of a list, in order. *)
Definition bumps (kinds : list string) (label : string) : string :=
  fold_left bumpSemver kinds label.

(** [addVersion] called [k] times. *)
Fixpoint addVersions (k : nat) (st : AppState) : M AppState :=
  match k with
  | O => ret st
  | S k' => st' <- addVersion st ;; addVersions k' st'
  end.

(** The label [addVersion] starts from is that of the first version. *)
Definition latest_label (c : Collection) : string :=
  match c with
  | latest :: _ => Version.label latest
  | [] => EmptyString
  end.

(** The versions that [k] calls of [addVersion] put in front of a
    collection whose first label reads as [M.m.p], newest first, when the
    next [uuid()] is the [u]-th and the next [nowISO()] the [c]-th. *)
Fixpoint added (id now : nat -> string) (u c : nat) (M m : Z) (k : nat)
    : Collection :=
  match k with
  | O => []
  | S k' =>
      Version.mk (id (u + k')%nat) (format M (m + Z.of_nat k) 0)
                 (now (c + k')%nat) "" "" [] []
      :: added id now u c M m k'
  end.

(** What [filtered] asks of a version for the text of the search box. *)
Definition Matches (query : string) (v : Version.t) : Prop :=
  let q := Str.toLowerCase (Str.trim query) in
  Substring q (Str.toLowerCase (Version.label v))
  \/ Substring q (Str.toLowerCase (Version.summary v))
  \/ Substring q (Str.toLowerCase (Version.notes v))
  \/ (exists c, In c (Version.changes v)
                /\ Substring q (Str.toLowerCase (Change.text c)))
  \/ (exists b, In b (Version.bugs v)
                /\ (Substring q (Str.toLowerCase (Bug.title b))
                    \/ Substring q (Str.toLowerCase
                                      (Str.join " " (Bug.tags b))))).

(** [l'] is [l] without the elements that fail [P]: those that pass, as
    they were and in their order. *)
Inductive Selection {A : Type} (P : A -> Prop) : list A -> list A -> Prop :=
| Selection_nil : Selection P [] []
| Selection_keep x l l' :
    P x -> Selection P l l' -> Selection P (x :: l) (x :: l')
| Selection_drop x l l' :
    ~ P x -> Selection P l l' -> Selection P (x :: l) l'.

(** The selection is no version or a version of the collection. *)
Definition selection_ok (st : AppState) : Prop :=
  match selectedId st with
  | Some i => In i (ids (versions st))
  | None => True
  end.

(** The entry of the feed [fb] is the bug [bid] of the version [vid]. *)
Definition entry_of (vid bid : string) (fb : FeedBug) : bool :=
  String.eqb (versionId fb) vid && String.eqb (Bug.id (bug fb)) bid.

(** The feed collection as a state, and two entries of its feed. *)
Definition feed_state : AppState := mkApp feed_collection None.

Definition feed_entry_open : FeedBug :=
  mkFeed (feed_bug "1" "open" "2024-01-02T00:00:00.000Z") "v2" "v0.2.0".

Definition feed_entry_resolved : FeedBug :=
  mkFeed (feed_bug "2" "resolved" "2024-01-03T00:00:00.000Z") "v2" "v0.2.0".

(** The claim of the scanner on the text [JSON.stringify(v)]. *)
Definition Lexes_nogap (v : value) : Prop :=
  Plain v ->
  forall rest,
    lex LStart (stringify_nogap v ++ rest)%string
    = prepend (tokens_of v) (lex LStart rest).

(** A storage that holds nothing and takes everything. *)
Definition empty_storage : LocalStorage.t :=
  LocalStorage.mk (fun _ => None) false.

(** [{ ...v, label: l }] *)
Definition with_label (l : string) (v : Version.t) : Version.t :=
  Version.mk (Version.id v) l (Version.date v) (Version.summary v)
             (Version.notes v) (Version.changes v) (Version.bugs v).

(** The bump buttons pressed one after the other. *)
Definition bumpButtons (kinds : list string) (st : AppState) : AppState :=
  fold_left (fun s k => bumpButton k s) kinds st.

(** The code units of a string. *)
Definition units (s : string) : list ascii := list_ascii_of_string s.

(** A tag as [BugComposer] makes them: not empty, no blank at either end,
    no comma. *)
Definition CleanTag (t : string) : Prop :=
  t <> EmptyString /\ Str.trim t = t /\ ~ In ","%char (units t).

(* ===================================================================== *)
(** * Properties *)
(* ===================================================================== *)

Local Open Scope string_scope.

(** ** Semver: what the specification says of [bump] *)

Section SemverFacts.

Lemma span_digits_app (d r : string) :
  Str.all_digits d = true ->
  match r with String c _ => Str.is_digit c = false | EmptyString => True end ->
  Str.span_digits (d ++ r) = (d, r).
Proof.
  intros Hd Hr. induction d as [|c d IH]; simpl in *.
  - destruct r as [|c r]; [reflexivity|]. simpl. now rewrite Hr.
  - apply andb_true_iff in Hd as [Hc Hd]. rewrite Hc, (IH Hd). reflexivity.
Qed.

Lemma span_digits_inv (s d r : string) :
  Str.span_digits s = (d, r) ->
  s = d ++ r /\ Str.all_digits d = true.
Proof.
  revert d r. induction s as [|c s IH]; simpl; intros d r H.
  - inversion H; subst. now split.
  - destruct (Str.is_digit c) eqn:Hc.
    + destruct (Str.span_digits s) as [d' t] eqn:Hs. inversion H; subst.
      destruct (IH _ _ eq_refl) as [-> Hd]. simpl. now rewrite Hc, Hd.
    + inversion H; subst. now split.
Qed.

Lemma append_empty_r (s : string) : s ++ EmptyString = s.
Proof. induction s; simpl; congruence. Qed.

Lemma span_digits_all (d : string) :
  Str.all_digits d = true -> Str.span_digits d = (d, EmptyString).
Proof.
  intros H. rewrite <- (append_empty_r d) at 1. now apply span_digits_app.
Qed.

Lemma dot_not_digit : Str.is_digit "." = false.
Proof. reflexivity. Qed.

Lemma v_not_digit (c : ascii) : Str.is_digit c = true -> Ascii.eqb c "v" = false.
Proof.
  intros H. destruct (Ascii.eqb_spec c "v") as [->|]; [discriminate H | reflexivity].
Qed.

Lemma isEmpty_false (s : string) : s <> EmptyString -> Str.isEmpty s = false.
Proof. destruct s; [congruence | reflexivity]. Qed.

Lemma match_semver_complete (pre d1 d2 d3 : string) :
  pre = EmptyString \/ pre = "v" ->
  digits d1 -> digits d2 -> digits d3 ->
  match_semver (pre ++ d1 ++ "." ++ d2 ++ "." ++ d3) = Some (d1, d2, d3).
Proof.
  intros Hpre [N1 D1] [N2 D2] [N3 D3]. unfold match_semver.
  assert (Hs : strip_v (pre ++ d1 ++ "." ++ d2 ++ "." ++ d3)
               = d1 ++ "." ++ d2 ++ "." ++ d3).
  { destruct Hpre as [-> | ->]; [|reflexivity].
    destruct d1 as [|c d1]; [congruence|]. simpl in *.
    apply andb_true_iff in D1 as [Hc _]. now rewrite (v_not_digit _ Hc). }
  rewrite Hs, (span_digits_app d1) by (exact D1 || exact dot_not_digit).
  cbn [after_dot append]. rewrite Ascii.eqb_refl.
  rewrite (span_digits_app d2) by (exact D2 || exact dot_not_digit).
  cbn [after_dot append]. rewrite Ascii.eqb_refl.
  rewrite (span_digits_all d3 D3).
  now rewrite (isEmpty_false d1), (isEmpty_false d2), (isEmpty_false d3).
Qed.

Lemma after_dot_inv (s r : string) : after_dot s = Some r -> s = "." ++ r.
Proof.
  destruct s as [|c s]; simpl; [discriminate|].
  destruct (Ascii.eqb_spec c "."); [|discriminate]. intros H; inversion H; now subst.
Qed.

Lemma strip_v_inv (s : string) :
  exists pre, (pre = EmptyString \/ pre = "v") /\ s = pre ++ strip_v s.
Proof.
  destruct s as [|c s]; simpl.
  - exists EmptyString. auto.
  - destruct (Ascii.eqb_spec c "v") as [->|].
    + exists "v". auto.
    + exists EmptyString. auto.
Qed.

Lemma match_semver_sound (s d1 d2 d3 : string) :
  match_semver s = Some (d1, d2, d3) ->
  exists pre, s = pre ++ d1 ++ "." ++ d2 ++ "." ++ d3
    /\ (pre = EmptyString \/ pre = "v")
    /\ digits d1 /\ digits d2 /\ digits d3.
Proof.
  unfold match_semver. intros H.
  destruct (Str.span_digits (strip_v s)) as [e1 r1] eqn:H1.
  destruct (after_dot r1) as [s2|] eqn:A1; [|discriminate].
  destruct (Str.span_digits s2) as [e2 r2] eqn:H2.
  destruct (after_dot r2) as [s3|] eqn:A2; [|discriminate].
  destruct (Str.span_digits s3) as [e3 r3] eqn:H3.
  destruct (Str.isEmpty e1) eqn:E1; [discriminate|].
  destruct (Str.isEmpty e2) eqn:E2; [discriminate|].
  destruct (Str.isEmpty e3) eqn:E3; [discriminate|].
  destruct r3; [|discriminate]. simpl in H. inversion H; subst.
  apply span_digits_inv in H1 as [S1 D1], H2 as [S2 D2], H3 as [S3 D3].
  apply after_dot_inv in A1, A2. subst.
  destruct (strip_v_inv s) as (pre & Hpre & Hs).
  exists pre. rewrite Hs at 1. rewrite S1.
  rewrite append_empty_r. repeat split; auto;
    intros ->; discriminate.
Qed.

Lemma toString_safe (n : Z) : n <= MAX_SAFE_INTEGER -> toString (Fin n) = Str.decimal n.
Proof.
  unfold MAX_SAFE_INTEGER, toString. intros H.
  destruct (Z.ltb_spec n (2 ^ 53)); [reflexivity | lia].
Qed.

Lemma ofDigits_safe (d : string) :
  Str.digits_value d <= MAX_SAFE_INTEGER -> ofDigits d = Fin (Str.digits_value d).
Proof.
  unfold MAX_SAFE_INTEGER, ofDigits, round. intros H.
  destruct (Z.ltb_spec (Str.digits_value d) (2 ^ 53)); [reflexivity | lia].
Qed.

Lemma toString_succ_safe (n : Z) :
  n <= MAX_SAFE_INTEGER -> toString (succ (Fin n)) = Str.decimal (n + 1).
Proof.
  unfold MAX_SAFE_INTEGER. intros H.
  destruct (Z.eq_dec (n + 1) (2 ^ 53)) as [E|E].
  - simpl succ. rewrite E. vm_compute. reflexivity.
  - unfold succ, round. destruct (Z.ltb_spec (n + 1) (2 ^ 53)); [|lia].
    apply toString_safe. unfold MAX_SAFE_INTEGER. lia.
Qed.

Lemma parseSemver_label (label : string) (M m p : Z) :
  SemverLabel label M m p ->
  exists d1 d2 d3,
    parseSemver label
    = Some {| maj := ofDigits d1; min := ofDigits d2; pat := ofDigits d3 |}
    /\ M = Str.digits_value d1 /\ m = Str.digits_value d2
    /\ p = Str.digits_value d3.
Proof.
  intros (pre & d1 & d2 & d3 & Ht & Hpre & D1 & D2 & D3 & -> & -> & ->).
  exists d1, d2, d3. unfold parseSemver.
  now rewrite Ht, match_semver_complete.
Qed.

Lemma parseSemver_none (label : string) :
  (forall M m p, ~ SemverLabel label M m p) -> parseSemver label = None.
Proof.
  intros H. unfold parseSemver.
  destruct (match_semver (Str.trim label)) as [[[d1 d2] d3]|] eqn:E; [|reflexivity].
  exfalso. apply match_semver_sound in E as (pre & Ht & Hpre & D1 & D2 & D3).
  apply (H (Str.digits_value d1) (Str.digits_value d2) (Str.digits_value d3)).
  exists pre, d1, d2, d3. auto 10.
Qed.

(** Every label has a baseline. *)
Lemma Baseline_total (label : string) : exists M m p, Baseline label M m p.
Proof.
  destruct (match_semver (Str.trim label)) as [[[d1 d2] d3]|] eqn:E.
  - apply match_semver_sound in E as (pre & Ht & Hpre & D1 & D2 & D3).
    exists (Str.digits_value d1), (Str.digits_value d2), (Str.digits_value d3).
    left. exists pre, d1, d2, d3. auto 10.
  - exists 0, 0, 0. right. repeat split; auto.
    intros M m p (pre & d1 & d2 & d3 & Ht & Hpre & D1 & D2 & D3 & _).
    rewrite Ht, match_semver_complete in E by assumption. discriminate.
Qed.

End SemverFacts.

(** C1 (as amended).  For every label and kind: with [M.m.p] the version
    the label reads as, or [0.0.0] when it reads as none, and as long as no
    component exceeds [Number.MAX_SAFE_INTEGER], [bumpSemver] returns
    [v(M+1).0.0] for the kind major, [vM.(m+1).0] for minor and [vM.m.(p+1)]
    for patch and for every other kind. *)
Theorem bumpSemver_spec (label kind : string) (M m p : Z) :
  Baseline label M m p ->
  M <= MAX_SAFE_INTEGER -> m <= MAX_SAFE_INTEGER -> p <= MAX_SAFE_INTEGER ->
  bumpSemver label kind = bumped kind M m p.
Proof.
  intros HB HM Hm Hp.
  assert (HP : exists v, (match parseSemver label with
                          | Some v => v
                          | None => {| maj := Fin 0; min := Fin 0; pat := Fin 0 |}
                          end) = v
               /\ maj v = Fin M /\ min v = Fin m /\ pat v = Fin p).
  { destruct HB as [HL | (HU & -> & -> & ->)].
    - destruct (parseSemver_label _ _ _ _ HL) as (d1 & d2 & d3 & -> & -> & -> & ->).
      eexists; split; [reflexivity|]. cbn [maj min pat].
      now rewrite !ofDigits_safe. 
    - rewrite (parseSemver_none _ HU). eexists; split; [reflexivity|]. now cbn. }
  destruct HP as (v & Hv & E1 & E2 & E3).
  unfold bumpSemver, bumped, format. rewrite Hv, E1, E2, E3.
  rewrite !toString_succ_safe, !toString_safe by assumption.
  destruct (String.eqb kind "major"); [reflexivity|].
  destruct (String.eqb kind "minor"); reflexivity.
Qed.

Lemma bumpSemver_spec_witness :
  Baseline " v1.2.3 " 1 2 3 /\ bumpSemver " v1.2.3 " "minor" = "v1.3.0".
Proof.
  assert (B : Baseline " v1.2.3 " 1 2 3).
  { left. exists "v", "1", "2", "3". vm_compute.
    repeat split; auto; discriminate. }
  split; [exact B|].
  apply (bumpSemver_spec " v1.2.3 " "minor" 1 2 3 B); vm_compute; discriminate.
Defined.

(** C1, the examples of the specification. *)
Example bumpSemver_examples :
  bumpSemver "v1.2.3" "patch" = "v1.2.4"
  /\ bumpSemver "v1.2.3" "minor" = "v1.3.0"
  /\ bumpSemver "v1.2.3" "major" = "v2.0.0"
  /\ bumpSemver "not-a-version" "patch" = "v0.0.1"
  /\ bumpSemver "v1.2.3" "anything else" = "v1.2.4".
Proof. vm_compute. repeat split. Qed.

(** C1 as stated fails one step above [MAX_SAFE_INTEGER]: the label
    [v9007199254740992.0.0] reads as major 2^53, and the major bump returns
    the same label, not [v9007199254740993.0.0]. *)
Lemma bumpSemver_unbounded_counterexample :
  ~ (forall label kind M m p,
       Baseline label M m p -> bumpSemver label kind = bumped kind M m p).
Proof.
  intros H.
  specialize (H "v9007199254740992.0.0" "major" 9007199254740992 0 0).
  assert (B : Baseline "v9007199254740992.0.0" 9007199254740992 0 0).
  { left. exists "v", "9007199254740992", "0", "0". vm_compute.
    repeat split; auto; discriminate. }
  specialize (H B). vm_compute in H. discriminate H.
Qed.

(* ===================================================================== *)
(** ** The CRUD closures *)
(* ===================================================================== *)

Local Open Scope Z_scope.
Local Open Scope list_scope.

Section CrudFacts.

Lemma findVersion_None (id : string) (c : Collection) :
  findVersion id c = None <-> ~ In id (ids c).
Proof.
  unfold findVersion. induction c as [|v c IH]; simpl.
  - tauto.
  - destruct (String.eqb_spec (Version.id v) id) as [E|E].
    + split; [discriminate | intros H; exfalso; apply H; now left].
    + rewrite IH. tauto.
Qed.

Lemma findVersion_Some (id : string) (c : Collection) (v : Version.t) :
  findVersion id c = Some v ->
  exists pre post,
    c = (pre ++ v :: post)%list /\ Version.id v = id /\ ~ In id (ids pre).
Proof.
  unfold findVersion. induction c as [|x c IH]; simpl; [discriminate|].
  destruct (String.eqb_spec (Version.id x) id) as [E|E]; intros H.
  - inversion H; subst. exists [], c. simpl. tauto.
  - destruct (IH H) as (pre & post & -> & Hv & Hpre).
    exists (x :: pre), post. simpl. repeat split; auto. tauto.
Qed.

Lemma findVersion_first (id : string) (pre post : Collection) (v : Version.t) :
  Version.id v = id -> ~ In id (ids pre) ->
  findVersion id (pre ++ v :: post) = Some v.
Proof.
  unfold findVersion. intros Hv. induction pre as [|x pre IH]; simpl; intros Hp.
  - rewrite <- Hv. now rewrite String.eqb_refl.
  - destruct (String.eqb_spec (Version.id x) id) as [E|E]; [tauto|].
    apply IH. tauto.
Qed.

Lemma map_missing (id : string) (f : Version.t -> Version.t) (c : Collection) :
  ~ In id (ids c) ->
  map (fun v => if String.eqb (Version.id v) id then f v else v) c = c.
Proof.
  induction c as [|x c IH]; simpl; intros H; [reflexivity|].
  destruct (String.eqb_spec (Version.id x) id) as [E|E]; [tauto|].
  rewrite IH; tauto.
Qed.

Lemma map_same (id : string) (f : Version.t -> Version.t) (c : Collection) :
  (forall v, In v c -> Version.id v = id -> f v = v) ->
  map (fun v => if String.eqb (Version.id v) id then f v else v) c = c.
Proof.
  induction c as [|x c IH]; simpl; intros H; [reflexivity|].
  rewrite IH by auto.
  destruct (String.eqb_spec (Version.id x) id) as [E|E]; [|reflexivity].
  now rewrite H by auto.
Qed.

Lemma ids_app (a b : Collection) : ids (a ++ b) = (ids a ++ ids b)%list.
Proof. apply map_app. Qed.

Lemma NoDup_ids_split (pre post : Collection) (v : Version.t) :
  NoDup (ids (pre ++ v :: post)) ->
  ~ In (Version.id v) (ids pre) /\ ~ In (Version.id v) (ids post).
Proof.
  rewrite ids_app. simpl. intros H. apply NoDup_remove_2 in H.
  rewrite in_app_iff in H. tauto.
Qed.

Lemma map_target (id : string) (f : Version.t -> Version.t)
    (pre post : Collection) (v : Version.t) :
  Version.id v = id -> ~ In id (ids pre) ->
  map (fun v => if String.eqb (Version.id v) id then f v else v)
      (pre ++ v :: post)
  = (pre ++ f v
       :: map (fun v => if String.eqb (Version.id v) id then f v else v) post)%list.
Proof.
  intros Hv Hp. rewrite map_app, (map_missing id f pre Hp). simpl.
  rewrite <- Hv at 1. now rewrite String.eqb_refl.
Qed.

Lemma updateVersion_missing (id : string) (p : Version.patch) (st : AppState) :
  ~ In id (ids (versions st)) -> updateVersion id p st = st.
Proof.
  intros H. unfold updateVersion, setVersions. rewrite map_missing by exact H.
  now destruct st.
Qed.

Lemma updateVersion_same (id : string) (p : Version.patch) (st : AppState) :
  (forall v, In v (versions st) -> Version.id v = id -> Version.merge v p = v) ->
  updateVersion id p st = st.
Proof.
  intros H. unfold updateVersion, setVersions. rewrite map_same by exact H.
  now destruct st.
Qed.

Lemma merge_changes (v : Version.t) (l : list Change.t) :
  Version.merge v (Version.patch_changes l) = with_changes l v.
Proof. reflexivity. Qed.

Lemma merge_bugs (v : Version.t) (l : list Bug.t) :
  Version.merge v (Version.patch_bugs l) = with_bugs l v.
Proof. reflexivity. Qed.

Lemma with_changes_same (v : Version.t) : with_changes (Version.changes v) v = v.
Proof. now destruct v. Qed.

Lemma with_bugs_same (v : Version.t) : with_bugs (Version.bugs v) v = v.
Proof. now destruct v. Qed.

Lemma filter_all {A : Type} (f : A -> bool) (l : list A) :
  (forall x, In x l -> f x = true) -> filter f l = l.
Proof.
  induction l as [|x l IH]; simpl; intros H; [reflexivity|].
  rewrite (H x) by auto. now rewrite IH by auto.
Qed.

(** A version id that names one version only: what uniqueness of the ids
    gives for the version [findVersion] returns. *)
Lemma unique_target (id : string) (c : Collection) (v : Version.t) :
  NoDup (ids c) -> findVersion id c = Some v ->
  forall x, In x c -> Version.id x = id -> x = v.
Proof.
  intros ND HF. destruct (findVersion_Some _ _ _ HF) as (pre & post & -> & Hv & Hp).
  destruct (NoDup_ids_split _ _ _ ND) as [_ Hpost]. rewrite Hv in Hpost.
  intros x Hx Ex. rewrite in_app_iff in Hx. simpl in Hx.
  destruct Hx as [Hx | [Hx | Hx]]; [| now subst |].
  - exfalso. apply Hp. rewrite <- Ex. now apply in_map.
  - exfalso. apply Hpost. rewrite <- Ex. now apply in_map.
Qed.

End CrudFacts.

(** *** addChange *)




(** *** Ids that match nothing *)

Section MissingIds.

Lemma mapM_ret {A : Type} (f : A -> M A) (l : list A) (w : World) :
  (forall a, In a l -> f a = ret a) -> mapM f l w = (l, w).
Proof.
  induction l as [|a l IH]; simpl; intros H; [reflexivity|].
  unfold bind. rewrite (H a) by auto. unfold ret at 1.
  now rewrite IH by auto.
Qed.

Lemma negb_eqb_missing {A : Type} (key : A -> string) (k : string) (l : list A) :
  ~ In k (map key l) ->
  forall x, In x l -> negb (String.eqb (key x) k) = true.
Proof.
  intros H x Hx. destruct (String.eqb_spec (key x) k) as [E|E]; [|reflexivity].
  exfalso. apply H. rewrite <- E. now apply in_map.
Qed.

Lemma deleteVersion_versions (id : string) (st : AppState) :
  versions (deleteVersion id st)
  = filter (fun v => negb (String.eqb (Version.id v) id)) (versions st).
Proof.
  unfold deleteVersion. destruct (selectedId st) as [s|]; [|reflexivity].
  now destruct (String.eqb s id).
Qed.

End MissingIds.

(** C9.  A version id that no version has makes each of the eight closures
    return the state it was given (for [deleteVersion]: the collection it
    was given), without an error and without a call of [uuid()] or
    [nowISO()].  In a collection whose version ids are distinct the same
    holds of [removeChange], [updateBug] and [deleteBug] when the version
    exists and the change or bug id matches nothing in it. *)
Theorem missing_id_noop (st : AppState) (w : World) (vid : string) :
  (~ In vid (ids (versions st)) ->
     (forall p, updateVersion vid p st = st)
     /\ versions (deleteVersion vid st) = versions st
     /\ duplicateVersion vid st w = (st, w)
     /\ (forall type text, addChange vid type text st w = (st, w))
     /\ (forall cid, removeChange vid cid st = st)
     /\ (forall partial, addBug vid partial st w = (st, w))
     /\ (forall bid p, updateBug vid bid p st w = (st, w))
     /\ (forall bid, deleteBug vid bid st = st))
  /\ (NoDup (ids (versions st)) ->
      forall v, findVersion vid (versions st) = Some v ->
        (forall cid, ~ In cid (map Change.id (Version.changes v)) ->
                     removeChange vid cid st = st)
        /\ (forall bid, ~ In bid (map Bug.id (Version.bugs v)) ->
              (forall p, updateBug vid bid p st w = (st, w))
              /\ deleteBug vid bid st = st)).
Proof.
  split.
  - intros H. pose proof (proj2 (findVersion_None vid (versions st)) H) as F.
    repeat split; intros;
      try (unfold duplicateVersion, addChange, removeChange, addBug, updateBug,
             deleteBug; now rewrite F).
    + now apply updateVersion_missing.
    + rewrite deleteVersion_versions. apply filter_all.
      now apply (negb_eqb_missing Version.id).
  - intros ND v F. split.
    + intros cid Hc. unfold removeChange. rewrite F.
      apply updateVersion_same. intros x Hx Ex.
      rewrite (unique_target vid _ v ND F x Hx Ex), merge_changes.
      rewrite filter_all by now apply (negb_eqb_missing Change.id).
      apply with_changes_same.
    + intros bid Hb.
      assert (U : forall l, l = Version.bugs v ->
                  updateVersion vid (Version.patch_bugs l) st = st).
      { intros l ->. apply updateVersion_same. intros x Hx Ex.
        rewrite (unique_target vid _ v ND F x Hx Ex), merge_bugs.
        apply with_bugs_same. }
      split.
      * intros p. unfold updateBug. rewrite F. unfold bind.
        rewrite mapM_ret.
        -- unfold ret. now rewrite U.
        -- intros b Hin.
           pose proof (negb_eqb_missing Bug.id bid _ Hb b Hin) as N.
           apply negb_true_iff in N. now rewrite N.
      * unfold deleteBug. rewrite F. apply U.
        apply filter_all. now apply (negb_eqb_missing Bug.id).
Qed.

Lemma missing_id_noop_witness :
  removeChange "zz" "c1" demo_state = demo_state
  /\ updateBug "a" "zz" Bug.no_patch demo_state demo_world
     = (demo_state, demo_world).
Proof.
  destruct (missing_id_noop demo_state demo_world "zz") as [H _].
  destruct (missing_id_noop demo_state demo_world "a") as [_ K].
  split.
  - apply H. simpl. intros [E | [E | []]]; discriminate E.
  - apply (K ltac:(repeat constructor; simpl; intuition discriminate)
             demo_version eq_refl).
    simpl. intros [E | []]. discriminate E.
Defined.

(** *** updateBug *)

Section UpdateBugFacts.

Lemma mapM_app {A B : Type} (f : A -> M B) (l1 l2 : list A) (w : World) :
  mapM f (l1 ++ l2) w
  = let (r1, w1) := mapM f l1 w in
    let (r2, w2) := mapM f l2 w1 in (r1 ++ r2, w2).
Proof.
  revert w. induction l1 as [|a l1 IH]; intros w; simpl.
  - unfold ret. now destruct (mapM f l2 w).
  - unfold bind, ret. destruct (f a w) as [b w0]. rewrite IH.
    destruct (mapM f l1 w0) as [r1 w1]. destruct (mapM f l2 w1) as [r2 w2].
    reflexivity.
Qed.

Lemma bind_run {A B : Type} (m : M A) (f : A -> M B) (w : World) (a : A)
    (w' : World) :
  m w = (a, w') -> bind m f w = f a w'.
Proof. unfold bind. now intros ->. Qed.

Lemma advance_0 (w : World) : advance 0 0 w = w.
Proof. destruct w. unfold advance. simpl. now rewrite !Nat.add_0_r. Qed.

Lemma updateBug_no_version (st : AppState) (w : World) (vid bid : string)
    (p : Bug.patch) :
  ~ In vid (ids (versions st)) -> updateBug vid bid p st w = (st, w).
Proof.
  intros H. unfold updateBug.
  now rewrite (proj2 (findVersion_None vid (versions st)) H).
Qed.

Lemma keep_other_bugs (bid : string) (p : Bug.patch) (l : list Bug.t) (w : World) :
  ~ In bid (map Bug.id l) ->
  mapM (fun b => if String.eqb (Bug.id b) bid
                 then u <- nowISO ;; ret (Bug.with_updatedAt u (Bug.merge b p))
                 else ret b) l w = (l, w).
Proof.
  intros H. apply mapM_ret. intros b Hb.
  destruct (String.eqb_spec (Bug.id b) bid) as [E|E]; [|reflexivity].
  exfalso. apply H. rewrite <- E. now apply in_map.
Qed.

Lemma updateBug_no_bug (st : AppState) (w : World) (vid bid : string)
    (p : Bug.patch) (v : Version.t) :
  NoDup (ids (versions st)) ->
  findVersion vid (versions st) = Some v ->
  ~ In bid (map Bug.id (Version.bugs v)) ->
  updateBug vid bid p st w = (st, w).
Proof.
  intros ND F H. unfold updateBug. rewrite F.
  rewrite (bind_run _ _ w _ w (keep_other_bugs bid p _ w H)).
  unfold ret. f_equal.
  apply updateVersion_same. intros x Hx Ex.
  rewrite (unique_target vid _ v ND F x Hx Ex), merge_bugs.
  apply with_bugs_same.
Qed.

Lemma stamp_target (bid : string) (p : Bug.patch) (bpre bpost : list Bug.t)
    (b : Bug.t) (w : World) :
  Bug.id b = bid ->
  ~ In bid (map Bug.id bpre) -> ~ In bid (map Bug.id bpost) ->
  mapM (fun b => if String.eqb (Bug.id b) bid
                 then u <- nowISO ;; ret (Bug.with_updatedAt u (Bug.merge b p))
                 else ret b) (bpre ++ b :: bpost) w
  = (bpre ++ Bug.with_updatedAt (clock w (clock_calls w)) (Bug.merge b p) :: bpost,
     advance 0 1 w).
Proof.
  intros Eb Hpre Hpost.
  rewrite mapM_app, (keep_other_bugs bid p bpre w Hpre). cbn [mapM].
  rewrite (bind_run _ _ w
             (Bug.with_updatedAt (clock w (clock_calls w)) (Bug.merge b p))
             (advance 0 1 w)).
  - now rewrite (bind_run _ _ _ bpost (advance 0 1 w)
                   (keep_other_bugs bid p bpost _ Hpost)).
  - rewrite Eb, String.eqb_refl. unfold bind, nowISO, ret, advance.
    now rewrite Nat.add_0_r, Nat.add_1_r.
Qed.

Lemma demo_clock_value (n : nat) :
  (n <= 9)%nat ->
  Iso.value (clock stamped_world n) = Some (1709294400000 + 1000 * Z.of_nat n).
Proof.
  intros H.
  do 10 (destruct n as [|n]; [vm_compute; reflexivity|]). lia.
Qed.

Lemma demo_clock_nondecreasing : nondecreasing Iso.value stamped_world.
Proof.
  intros i j Hij.
  assert (C : forall n, clock stamped_world n = clock stamped_world (Nat.min n 9)).
  { intros n. cbn [clock stamped_world]. unfold demo_clock.
    now rewrite <- Nat.min_assoc, Nat.min_id. }
  rewrite (C i), (C j).
  exists (1709294400000 + 1000 * Z.of_nat (Nat.min i 9)),
         (1709294400000 + 1000 * Z.of_nat (Nat.min j 9)).
  rewrite !demo_clock_value by lia. repeat split. lia.
Qed.

End UpdateBugFacts.

(** C6 (as amended).  In a collection whose version ids are distinct:
    when the version [vid] exists and the bug [bid] is one of its bugs, and
    the only one with that id, [updateBug] replaces that bug by a bug [b']
    and changes nothing else.  Each field of [b'] but [updatedAt] is the
    patch's when the patch carries the field, and the old bug's when it
    does not; its [updatedAt] is the reading of [nowISO()], whatever the
    patch holds, also when the patch is empty.  The new stamp is not
    earlier than the one it replaces when that one is not later than the
    reading; so it is when the clock never runs backwards and the old stamp
    was read from it before.  When the version or the bug does not exist,
    [updateBug] returns the state it was given. *)
Theorem updateBug_spec (Date_value : string -> option Z)
    (st : AppState) (w : World) (vid bid : string) (patch : Bug.patch) :
  NoDup (ids (versions st)) ->
  (forall pre v post bpre b bpost,
     versions st = pre ++ v :: post -> Version.id v = vid ->
     Version.bugs v = bpre ++ b :: bpost -> Bug.id b = bid ->
     ~ In bid (map Bug.id bpre) -> ~ In bid (map Bug.id bpost) ->
     let now := clock w (clock_calls w) in
     exists b',
       updateBug vid bid patch st w
       = (mkApp (pre ++ with_bugs (bpre ++ b' :: bpost) v :: post) (selectedId st),
          advance 0 1 w)
       /\ Patched b patch now b'
       /\ (stamp_le Date_value (Bug.updatedAt b) now ->
           stamp_le Date_value (Bug.updatedAt b) (Bug.updatedAt b'))
       /\ (nondecreasing Date_value w -> read_before w (Bug.updatedAt b) ->
           stamp_le Date_value (Bug.updatedAt b) (Bug.updatedAt b'))
       /\ (patch = Bug.no_patch ->
           b' = Bug.mk (Bug.id b) (Bug.title b) (Bug.description b)
                       (Bug.severity b) (Bug.status b) (Bug.tags b)
                       (Bug.createdAt b) now))
  /\ (~ In vid (ids (versions st)) -> updateBug vid bid patch st w = (st, w))
  /\ (forall v, findVersion vid (versions st) = Some v ->
        ~ In bid (map Bug.id (Version.bugs v)) ->
        updateBug vid bid patch st w = (st, w)).
Proof.
  intros ND. split; [|split].
  - intros pre v post bpre b bpost Hc Hv Hb Eb Hpre Hpost now.
    exists (Bug.with_updatedAt now (Bug.merge b patch)).
    assert (ND' := ND). rewrite Hc in ND'.
    destruct (NoDup_ids_split _ _ _ ND') as [Np Nq]. rewrite Hv in Np, Nq.
    split; [|split; [|split; [|split]]].
    + unfold updateBug. rewrite Hc, (findVersion_first vid pre post v Hv Np), Hb.
      rewrite (bind_run _ _ w _ _ (stamp_target bid patch bpre bpost b w Eb Hpre Hpost)).
      unfold ret. f_equal.
      unfold updateVersion, setVersions. cbn [versions selectedId]. rewrite Hc. f_equal.
      rewrite (map_target vid _ pre post v Hv Np), merge_bugs.
      now rewrite map_missing by exact Nq.
    + unfold Patched, field_of. destruct patch as [i t d s u g c a]. cbn.
      repeat split;
        match goal with
        | |- match ?o with Some _ => _ | None => _ end => now destruct o
        end.
    + auto.
    + intros Mono (i & Hi & ->). apply Mono. lia.
    + intros ->. reflexivity.
  - apply updateBug_no_version.
  - intros v F H. now apply (updateBug_no_bug st w vid bid patch v).
Qed.

(** The demo state and world [updateBug] is run on below come from a call
    of [addBug]. *)
Example addBug_demo :
  addBug "b" (Bug.mkPatch None (Some "Crash") None None None None None None)
         demo_state demo_world
  = (stamped_state, stamped_world).
Proof. reflexivity. Qed.

Lemma updateBug_spec_witness :
  updateBug "b" "u" demo_patch stamped_state stamped_world
  = (mkApp [with_bugs [Bug.mk "u" "Crash on load" "" "low" "resolved" []
                              "2024-03-01T12:00:00.000Z"
                              "2024-03-01T12:00:02.000Z"]
                      demo_other; demo_version] (Some "b"),
     advance 0 1 stamped_world)
  /\ stamp_le Iso.value "2024-03-01T12:00:01.000Z" "2024-03-01T12:00:02.000Z"
  /\ updateBug "b" "u" Bug.no_patch stamped_state stamped_world
     = (mkApp [with_bugs [Bug.mk "u" "Crash" "" "low" "open" []
                                 "2024-03-01T12:00:00.000Z"
                                 "2024-03-01T12:00:02.000Z"]
                         demo_other; demo_version] (Some "b"),
        advance 0 1 stamped_world)
  /\ updateBug "zz" "u" demo_patch stamped_state stamped_world
     = (stamped_state, stamped_world)
  /\ updateBug "b" "zz" demo_patch stamped_state stamped_world
     = (stamped_state, stamped_world).
Proof.
  assert (ND : NoDup (ids (versions stamped_state)))
    by (repeat constructor; simpl; intuition discriminate).
  destruct (updateBug_spec Iso.value stamped_state stamped_world "b" "u"
              demo_patch ND) as (H & _ & _).
  destruct (H [] (with_bugs [stamped_bug] demo_other) [demo_version]
              [] stamped_bug [] eq_refl eq_refl eq_refl
              eq_refl (fun x => x) (fun x => x)) as (b' & E & P & L & K & _).
  destruct (updateBug_spec Iso.value stamped_state stamped_world "b" "u"
              Bug.no_patch ND) as (H0 & _ & _).
  destruct (H0 [] (with_bugs [stamped_bug] demo_other) [demo_version]
              [] stamped_bug [] eq_refl eq_refl eq_refl
              eq_refl (fun x => x) (fun x => x)) as (b0 & E0 & _ & _ & _ & Z0).
  destruct (updateBug_spec Iso.value stamped_state stamped_world "zz" "u"
              demo_patch ND) as (_ & V & _).
  destruct (updateBug_spec Iso.value stamped_state stamped_world "b" "zz"
              demo_patch ND) as (_ & _ & B).
  destruct b' as [i t d s u g c a].
  destruct P as (Pi & Pt & Pd & Ps & Pu & Pg & Pc & Pa).
  cbn in Pi, Pt, Pd, Ps, Pu, Pg, Pc, Pa. subst i t d s u g c.
  cbn [Bug.updatedAt] in Pa, K.
  split; [|split; [|split; [|split]]].
  - rewrite E, Pa. reflexivity.
  - rewrite Pa in K. apply K.
    + exact demo_clock_nondecreasing.
    + exists 1%nat. split; [simpl; lia | reflexivity].
  - rewrite E0, (Z0 eq_refl). reflexivity.
  - apply V. simpl. intros [F | [F | []]]; discriminate F.
  - apply (B (with_bugs [stamped_bug] demo_other) eq_refl).
    simpl. intros [F | []]. discriminate F.
Defined.

(** C6, where the claim fails.  The clock of [stamped_world] never runs
    backwards, and its next reading is of 2024.  The bug [u] of
    [future_state] was stamped in 2999.  [updateBug] gives it the reading
    for its [updatedAt]: a stamp that is earlier than the one it had. *)
Lemma updateBug_stamp_counterexample :
  nondecreasing Iso.value stamped_world
  /\ updateBug "b" "u" Bug.no_patch future_state stamped_world
     = (mkApp [with_bugs [Bug.mk "u" "Crash" "" "low" "open" []
                                 "2999-01-01T00:00:00.000Z"
                                 "2024-03-01T12:00:02.000Z"]
                         demo_other; demo_version] (Some "b"),
        advance 0 1 stamped_world)
  /\ Iso.value "2999-01-01T00:00:00.000Z" = Some 32472144000000
  /\ Iso.value "2024-03-01T12:00:02.000Z" = Some 1709294402000
  /\ ~ stamp_le Iso.value "2999-01-01T00:00:00.000Z" "2024-03-01T12:00:02.000Z".
Proof.
  split; [exact demo_clock_nondecreasing|].
  split; [reflexivity|].
  assert (A : Iso.value "2999-01-01T00:00:00.000Z" = Some 32472144000000)
    by (vm_compute; reflexivity).
  assert (B : Iso.value "2024-03-01T12:00:02.000Z" = Some 1709294402000)
    by (vm_compute; reflexivity).
  split; [exact A | split; [exact B|]].
  intros (a & b & Ha & Hb & L). rewrite A in Ha. rewrite B in Hb.
  inversion Ha; inversion Hb; subst. lia.
Qed.

(** *** duplicateVersion *)

Local Open Scope nat_scope.

Section DuplicateFacts.

Lemma mapM_copyChange (l : list Change.t) (w : World) :
  mapM copyChange l w
  = (copied_changes (uuids w) (uuid_calls w) l, advance (List.length l) 0 w).
Proof.
  revert w. induction l as [|c l IH]; intros w.
  - simpl. unfold ret. now rewrite advance_0.
  - cbn [mapM copied_changes]. unfold copyChange at 1.
    unfold bind at 1 2, uuid at 1, ret at 1.
    rewrite (bind_run _ _ _ _ _ (IH _)). unfold ret, advance. cbn.
    now rewrite Nat.add_succ_r.
Qed.

Lemma mapM_copyBug (l : list Bug.t) (w : World) :
  mapM copyBug l w
  = (copied_bugs (uuids w) (clock w) (uuid_calls w) (clock_calls w) l,
     advance (List.length l) (2 * List.length l) w).
Proof.
  revert w. induction l as [|b l IH]; intros w.
  - simpl. unfold ret. now rewrite advance_0.
  - cbn [mapM copied_bugs]. unfold copyBug at 1.
    unfold bind at 1 2 3 4, uuid at 1, nowISO at 1 2, ret at 1.
    rewrite (bind_run _ _ _ _ _ (IH _)). unfold ret, advance. cbn.
    rewrite Nat.add_0_r, !Nat.add_succ_r. reflexivity.
Qed.

Lemma duplicateVersion_found (id : string) (st : AppState) (w : World)
    (v : Version.t) :
  findVersion id (versions st) = Some v ->
  let u := uuid_calls w in
  let k := clock_calls w in
  let n := List.length (Version.changes v) in
  let m := List.length (Version.bugs v) in
  duplicateVersion id st w
  = (mkApp (Version.mk (uuids w u) (Version.label v ++ "-copy")%string
                       (clock w k) (Version.summary v) (Version.notes v)
                       (copied_changes (uuids w) (u + 1) (Version.changes v))
                       (copied_bugs (uuids w) (clock w) (u + 1 + n) (k + 1)
                                    (Version.bugs v))
            :: versions st)
           (Some (uuids w u)),
     advance (1 + n + m) (1 + 2 * m) w).
Proof.
  intros F u k n m. unfold duplicateVersion. rewrite F.
  unfold bind at 1 2, uuid at 1, nowISO at 1.
  rewrite (bind_run _ _ _ _ _ (mapM_copyChange _ _)).
  rewrite (bind_run _ _ _ _ _ (mapM_copyBug _ _)).
  unfold ret, setSelectedId, setVersions, advance. cbn.
  subst u k n m. repeat f_equal; lia.
Qed.

Lemma copied_changes_length f u l :
  List.length (copied_changes f u l) = List.length l.
Proof. revert u. induction l; simpl; intros; [reflexivity | now rewrite IHl]. Qed.

Lemma copied_bugs_length f g u k l :
  List.length (copied_bugs f g u k l) = List.length l.
Proof. revert u k. induction l; simpl; intros; [reflexivity | now rewrite IHl]. Qed.

Lemma copied_changes_nth f u l j c :
  nth_error l j = Some c ->
  nth_error (copied_changes f u l) j
  = Some (Change.mk (f (u + j)) (Change.type c) (Change.text c)).
Proof.
  revert u j. induction l as [|x l IH]; intros u [|j];
    cbn [nth_error copied_changes]; try discriminate.
  - intros H; inversion H; subst. now rewrite Nat.add_0_r.
  - intros H. rewrite (IH (S u) j H).
    replace (S u + j) with (u + S j) by lia. reflexivity.
Qed.

Lemma copied_bugs_nth f g u k l j b :
  nth_error l j = Some b ->
  nth_error (copied_bugs f g u k l) j
  = Some (Bug.mk (f (u + j)) (Bug.title b) (Bug.description b)
                 (Bug.severity b) "open" (Bug.tags b)
                 (g (k + 2 * j)) (g (k + 1 + 2 * j))).
Proof.
  revert u k j. induction l as [|x l IH]; intros u k [|j];
    cbn [nth_error copied_bugs]; try discriminate.
  - intros H; inversion H; subst.
    now rewrite Nat.mul_0_r, !Nat.add_0_r, Nat.add_1_r.
  - intros H. rewrite (IH (S u) (S (S k)) j H).
    replace (S u + j) with (u + S j) by lia.
    replace (S (S k) + 2 * j) with (k + 2 * S j) by lia.
    replace (S (S k) + 1 + 2 * j) with (k + 1 + 2 * S j) by lia.
    reflexivity.
Qed.

Lemma copied_changes_ids f u l :
  map Change.id (copied_changes f u l) = map f (seq u (List.length l)).
Proof. revert u. induction l; simpl; intros; [reflexivity | now rewrite IHl]. Qed.

Lemma copied_bugs_ids f g u k l :
  map Bug.id (copied_bugs f g u k l) = map f (seq u (List.length l)).
Proof. revert u k. induction l; simpl; intros; [reflexivity | now rewrite IHl]. Qed.

Lemma NoDup_map_on {A B : Type} (f : A -> B) (l : list A) :
  (forall x y, In x l -> In y l -> f x = f y -> x = y) ->
  NoDup l -> NoDup (map f l).
Proof.
  induction l as [|a l IH]; simpl; intros Inj ND; [constructor|].
  inversion ND; subst. constructor.
  - intros H. apply in_map_iff in H as (y & E & Hy).
    assert (y = a) by (apply Inj; auto). now subst.
  - apply IH; auto.
Qed.

Lemma used_ids_version (c : Collection) (v : Version.t) :
  In v c -> In (Version.id v) (used_ids c).
Proof.
  intros H. unfold used_ids. apply in_flat_map. exists v. split; [exact H|].
  now left.
Qed.

Lemma used_ids_ids (c : Collection) (x : string) :
  In x (ids c) -> In x (used_ids c).
Proof.
  unfold ids. intros H. apply in_map_iff in H as (v & <- & Hv).
  now apply used_ids_version.
Qed.

End DuplicateFacts.

(** C7.  When no version has the id, [duplicateVersion] returns the state
    it was given.  Otherwise it puts in front of the collection a copy of
    the first version with that id: its id is the next [uuid()], its label
    the source label followed by [-copy], its date the next [nowISO()],
    summary and notes are the source's; its changes are the source's, each
    with a further [uuid()] for id and the same type and text; its bugs
    are the source's, each with a further [uuid()] for id, status [open],
    the same title, description, severity and tags, and two further
    readings of [nowISO()] for createdAt and updatedAt.  The ids of the
    copy are what [uuid()] returns and nothing else makes them new: when
    [uuid()] returns ids that are not in use and never the same id twice,
    the ids of the copy are pairwise distinct and none was in use, and in
    particular the id of the copy is not the source's. *)
Theorem duplicateVersion_spec (st : AppState) (w : World) (id : string) :
  (~ In id (ids (versions st)) -> duplicateVersion id st w = (st, w))
  /\ (forall v, findVersion id (versions st) = Some v ->
      let u := uuid_calls w in
      let k := clock_calls w in
      let n := List.length (Version.changes v) in
      let m := List.length (Version.bugs v) in
      exists copy,
        duplicateVersion id st w
        = (mkApp (copy :: versions st) (Some (Version.id copy)),
           advance (1 + n + m) (1 + 2 * m) w)
        /\ Version.id copy = uuids w u
        /\ Version.label copy = (Version.label v ++ "-copy")%string
        /\ Version.date copy = clock w k
        /\ Version.summary copy = Version.summary v
        /\ Version.notes copy = Version.notes v
        /\ List.length (Version.changes copy) = n
        /\ (forall j c, nth_error (Version.changes v) j = Some c ->
              nth_error (Version.changes copy) j
              = Some (Change.mk (uuids w (u + 1 + j))
                                (Change.type c) (Change.text c)))
        /\ List.length (Version.bugs copy) = m
        /\ (forall j b, nth_error (Version.bugs v) j = Some b ->
              nth_error (Version.bugs copy) j
              = Some (Bug.mk (uuids w (u + 1 + n + j)) (Bug.title b)
                             (Bug.description b) (Bug.severity b) "open"
                             (Bug.tags b)
                             (clock w (k + 1 + 2 * j))
                             (clock w (k + 2 + 2 * j))))
        /\ (fresh_uuids w (versions st) ->
            let new := Version.id copy
                       :: map Change.id (Version.changes copy)
                       ++ map Bug.id (Version.bugs copy) in
            NoDup new
            /\ (forall x, In x new -> ~ In x (used_ids (versions st)))
            /\ Version.id copy <> Version.id v)).
Proof.
  split.
  - intros H. unfold duplicateVersion.
    now rewrite (proj2 (findVersion_None id (versions st)) H).
  - intros v F u k n m.
    set (w1 := advance 1 1 w).
    set (cs := copied_changes (uuids w) (u + 1) (Version.changes v)).
    set (bs := copied_bugs (uuids w) (clock w) (u + 1 + n) (k + 1) (Version.bugs v)).
    exists (Version.mk (uuids w u) (Version.label v ++ "-copy")%string (clock w k)
                       (Version.summary v) (Version.notes v) cs bs).
    cbn [Version.id Version.label Version.date Version.summary Version.notes
         Version.changes Version.bugs].
    split; [|repeat split].
    + apply (duplicateVersion_found id st w v F).
    + apply copied_changes_length.
    + intros j c H. subst cs. rewrite (copied_changes_nth _ _ _ _ _ H).
      reflexivity.
    + apply copied_bugs_length.
    + intros j b H. subst bs. rewrite (copied_bugs_nth _ _ _ _ _ _ _ H).
      replace (k + 1 + 1 + 2 * j) with (k + 2 + 2 * j) by lia. reflexivity.
    + assert (E : uuids w u :: map Change.id cs ++ map Bug.id bs
                  = map (uuids w) (seq u (1 + n + m))).
      { subst cs bs. rewrite copied_changes_ids, copied_bugs_ids.
        rewrite <- map_app. fold n m.
        replace (u + 1 + n)%nat with ((u + 1) + n)%nat by lia.
        rewrite <- seq_app. replace (u + 1)%nat with (S u) by lia.
        reflexivity. }
      rewrite E. destruct H as [_ Inj]. apply NoDup_map_on; [|apply seq_NoDup].
      intros x y Hx Hy. apply in_seq in Hx, Hy. apply Inj; subst u; lia.
    + assert (E : uuids w u :: map Change.id cs ++ map Bug.id bs
                  = map (uuids w) (seq u (1 + n + m))).
      { subst cs bs. rewrite copied_changes_ids, copied_bugs_ids.
        rewrite <- map_app. fold n m.
        replace (u + 1 + n)%nat with ((u + 1) + n)%nat by lia.
        rewrite <- seq_app. replace (u + 1)%nat with (S u) by lia.
        reflexivity. }
      intros x Hx. rewrite E in Hx. apply in_map_iff in Hx as (i & <- & Hi).
      apply in_seq in Hi. destruct H as [Fr _]. apply Fr. subst u. lia.
    + intros E. destruct H as [Fr _]. apply (Fr u (le_n _)). rewrite E.
      destruct (findVersion_Some _ _ _ F) as (pre & post & Hc & _ & _).
      apply used_ids_version. rewrite Hc. apply in_elt.
Qed.

Section DemoFresh.

Lemma tally_length (n : nat) : String.length (tally n) = n.
Proof. induction n; simpl; congruence. Qed.

Lemma demo_fresh : fresh_uuids demo_world (versions demo_state).
Proof.
  split.
  - intros i _. cbn. intuition discriminate.
  - intros i j _ _ E. cbn in E. inversion E as [T].
    rewrite <- (tally_length i), <- (tally_length j). now rewrite T.
Qed.

End DemoFresh.

Lemma duplicateVersion_spec_witness :
  duplicateVersion "zz" demo_state demo_world = (demo_state, demo_world)
  /\ exists copy,
       versions (fst (duplicateVersion "a" demo_state demo_world))
       = copy :: versions demo_state
       /\ Version.id copy <> "a"
       /\ nth_error (Version.changes copy) 0
          = Some (Change.mk "ui" "add" "Version list")
       /\ nth_error (Version.bugs copy) 0
          = Some (Bug.mk "uii" "Wheel collider slips" "on ice" "medium" "open"
                         ["physics"; "handling"]
                         "2024-03-01T12:00:01.000Z" "2024-03-01T12:00:02.000Z").
Proof.
  split.
  - apply (proj1 (duplicateVersion_spec demo_state demo_world "zz")).
    simpl. intros [E | [E | []]]; discriminate E.
  - destruct (duplicateVersion_spec demo_state demo_world "a") as [_ H].
    destruct (H demo_version eq_refl)
      as (copy & E & _ & _ & _ & _ & _ & _ & C & _ & B & F).
    destruct (F demo_fresh) as (_ & _ & N).
    exists copy. rewrite E. repeat split.
    + exact N.
    + exact (C 0 (Change.mk "c1" "add" "Version list") eq_refl).
    + exact (B 0 demo_bug eq_refl).
Defined.

(** C7, where the claim fails.  The id of the copy is whatever [uuid()]
    returns, and [duplicateVersion] compares it with nothing.  In a world
    whose [uuid()] returns [a] again, the copy of the version [a] is put in
    front with the id [a] of its source, and the copies of its change and
    of its bug carry that id too: the id of the copy is neither new nor
    distinct from the source's. *)
Lemma duplicateVersion_repeat_counterexample :
  findVersion "a" (versions demo_state) = Some demo_version
  /\ exists copy,
       versions (fst (duplicateVersion "a" demo_state stuck_world))
       = copy :: versions demo_state
       /\ Version.id copy = Version.id demo_version
       /\ map Change.id (Version.changes copy) = ["a"]
       /\ map Bug.id (Version.bugs copy) = ["a"].
Proof.
  split; [reflexivity|]. eexists. vm_compute. repeat split.
Qed.

Local Close Scope nat_scope.

(* ===================================================================== *)
(** ** The bug feed *)
(* ===================================================================== *)

Section SortFacts.
Context {A : Type} (cmp : A -> A -> option Z).

Lemma insert_perm (x : A) (l : list A) : Permutation (insert cmp x l) (x :: l).
Proof.
  induction l as [|y l IH]; simpl; [reflexivity|].
  destruct (comesAfter cmp x y); [|reflexivity].
  rewrite IH. apply perm_swap.
Qed.

Lemma sort_perm (l : list A) : Permutation (sort cmp l) l.
Proof.
  induction l as [|x l IH]; simpl; [reflexivity|].
  rewrite insert_perm. now constructor.
Qed.

Lemma sort_In (l : list A) (x : A) : In x (sort cmp l) <-> In x l.
Proof.
  split; apply Permutation_in; [|symmetry]; apply sort_perm.
Qed.

(** When [comparefn] orders by a key, largest first. *)
Variable key : A -> Z.



End SortFacts.

Section StringFacts.

Lemma startsWith_spec (s q : string) :
  Str.startsWith s q = true <-> exists post, s = (q ++ post)%string.
Proof.
  revert s. induction q as [|a q IH]; intros [|b s]; simpl.
  - split; [intros _; now exists EmptyString | reflexivity].
  - split; [intros _; now exists (String b s) | reflexivity].
  - split; [discriminate | intros [post E]; discriminate E].
  - rewrite andb_true_iff, IH. split.
    + intros [E [post ->]]. apply Ascii.eqb_eq in E. subst. now exists post.
    + intros [post E]. inversion E; subst. split; [apply Ascii.eqb_refl|].
      now exists post.
Qed.

Lemma includes_spec (s q : string) :
  Str.includes s q = true <-> Substring q s.
Proof.
  unfold Substring. induction s as [|c s IH]; cbn [Str.includes].
  - rewrite orb_false_r, startsWith_spec. split.
    + intros [post E]. now exists EmptyString, post.
    + intros (pre & post & E). destruct pre; simpl in E; [|discriminate].
      now exists post.
  - rewrite orb_true_iff, startsWith_spec, IH. split.
    + intros [[post E] | (pre & post & E)].
      * now exists EmptyString, post.
      * exists (String c pre), post. simpl. now rewrite E.
    + intros (pre & post & E). destruct pre as [|a pre]; simpl in E.
      * left. now exists post.
      * right. inversion E; subst. now exists pre, post.
Qed.

Lemma toLowerCase_empty (s : string) :
  Str.toLowerCase s = EmptyString <-> s = EmptyString.
Proof. destruct s; simpl; split; congruence. Qed.

Lemma eqb_neq_iff (a b : string) : negb (String.eqb a b) = true <-> a <> b.
Proof. rewrite negb_true_iff. apply String.eqb_neq. Qed.

End StringFacts.

(** *** Trimming, and letters whatever their case *)

Section TrimFacts.

Lemma isEmpty_true (s : string) : Str.isEmpty s = true <-> s = EmptyString.
Proof. destruct s; cbn; split; congruence. Qed.

Lemma trimStart_pad (a s : string) :
  whitespace a = true -> Str.trimStart (a ++ s) = Str.trimStart s.
Proof.
  induction a as [|c a IH]; intros H; [reflexivity|].
  cbn [whitespace] in H. apply andb_true_iff in H as [Hc Ha].
  cbn [append Str.trimStart]. rewrite Hc. now apply IH.
Qed.

Lemma trimEnd_whitespace (b : string) :
  whitespace b = true -> Str.trimEnd b = EmptyString.
Proof.
  induction b as [|c b IH]; intros H; [reflexivity|].
  cbn [whitespace] in H. apply andb_true_iff in H as [Hc Hb].
  cbn [Str.trimEnd]. now rewrite Hc, (IH Hb).
Qed.

Lemma trimStart_whitespace (b : string) :
  whitespace b = true -> Str.trimStart b = EmptyString.
Proof.
  induction b as [|c b IH]; intros H; [reflexivity|].
  cbn [whitespace] in H. apply andb_true_iff in H as [Hc Hb].
  cbn [Str.trimStart]. now rewrite Hc, (IH Hb).
Qed.

Lemma trimEnd_pad (s b : string) :
  whitespace b = true -> Str.trimEnd (s ++ b) = Str.trimEnd s.
Proof.
  intros H. induction s as [|c s IH]; [now apply trimEnd_whitespace|].
  cbn [append Str.trimEnd]. now rewrite IH.
Qed.

Lemma trim_pad_end (s b : string) :
  whitespace b = true -> Str.trim (s ++ b) = Str.trim s.
Proof.
  intros H. unfold Str.trim. induction s as [|c s IH].
  - cbn [append]. now rewrite (trimStart_whitespace b H).
  - cbn [append Str.trimStart]. destruct (Str.is_ws c); [exact IH|].
    now apply (trimEnd_pad (String c s)).
Qed.

(** Blanks around a string are trimmed away. *)
Lemma trim_pad (a s b : string) :
  whitespace a = true -> whitespace b = true ->
  Str.trim (a ++ s ++ b) = Str.trim s.
Proof.
  intros Ha Hb. rewrite <- (trim_pad_end s b Hb).
  unfold Str.trim. now rewrite trimStart_pad.
Qed.

Lemma trimStart_split (s : string) :
  exists l : string, s = (l ++ Str.trimStart s)%string /\ whitespace l = true.
Proof.
  induction s as [|c s (l & E & W)]; [now exists EmptyString|].
  cbn [Str.trimStart]. destruct (Str.is_ws c) eqn:Ec.
  - exists (String c l). cbn [append whitespace]. rewrite Ec, W, <- E. auto.
  - now exists EmptyString.
Qed.

Lemma trimStart_first (s : string) :
  match Str.trimStart s with
  | String c _ => Str.is_ws c = false
  | EmptyString => True
  end.
Proof.
  induction s as [|c s IH]; [exact I|].
  cbn [Str.trimStart]. destruct (Str.is_ws c) eqn:Ec; [exact IH | exact Ec].
Qed.

Lemma trimEnd_split (x : string) :
  exists r : string, x = (Str.trimEnd x ++ r)%string /\ whitespace r = true.
Proof.
  induction x as [|c x (r & E & W)]; [now exists EmptyString|].
  cbn [Str.trimEnd].
  destruct (Str.is_ws c && Str.isEmpty (Str.trimEnd x)) eqn:Ec.
  - apply andb_true_iff in Ec as [Hc He]. apply isEmpty_true in He.
    rewrite He in E. cbn [append] in E. subst x.
    exists (String c r). cbn [append whitespace]. now rewrite Hc, W.
  - exists r. cbn [append]. split; [now f_equal | exact W].
Qed.

Lemma trimEnd_last (x : string) :
  match Str.trimEnd x with
  | String e w => Str.is_ws (last_unit e w) = false
  | EmptyString => True
  end.
Proof.
  induction x as [|c x IH]; [exact I|].
  cbn [Str.trimEnd]. destruct (Str.trimEnd x) as [|d y]; cbn [Str.isEmpty].
  - rewrite andb_true_r. destruct (Str.is_ws c) eqn:Ec; [exact I | exact Ec].
  - rewrite andb_false_r. exact IH.
Qed.

Lemma ends_clean_trim (s : string) : ends_clean (Str.trim s) = true.
Proof.
  unfold Str.trim. pose proof (trimStart_first s) as F.
  pose proof (trimEnd_last (Str.trimStart s)) as L.
  destruct (Str.trimStart s) as [|c u]; [reflexivity|].
  cbn [Str.trimEnd] in *. rewrite F in *. cbn [andb] in *.
  cbn [ends_clean]. now rewrite F, L.
Qed.

(** What [trim] returns is the trimmed string. *)
Lemma trim_Trimmed (s : string) : Trimmed s (Str.trim s).
Proof.
  destruct (trimStart_split s) as (l & El & Wl).
  destruct (trimEnd_split (Str.trimStart s)) as (r & Er & Wr).
  exists l, r. unfold Str.trim. rewrite <- Er.
  repeat split; try assumption. apply ends_clean_trim.
Qed.

Lemma trimEnd_clean (u : string) (c : ascii) :
  Str.is_ws (last_unit c u) = false -> Str.trimEnd u = u.
Proof.
  revert c. induction u as [|d v IH]; intros c H; [reflexivity|].
  cbn [last_unit] in H. cbn [Str.trimEnd]. rewrite (IH d H).
  destruct v as [|e w]; cbn [Str.isEmpty].
  - cbn [last_unit] in H. now rewrite H.
  - now rewrite andb_false_r.
Qed.

Lemma trim_clean (t : string) : ends_clean t = true -> Str.trim t = t.
Proof.
  destruct t as [|c u]; [reflexivity|]. cbn [ends_clean].
  rewrite andb_true_iff, !negb_true_iff. intros [Hc Hl].
  unfold Str.trim. cbn [Str.trimStart]. rewrite Hc.
  cbn [Str.trimEnd]. rewrite Hc. cbn [andb]. now rewrite (trimEnd_clean u c Hl).
Qed.

(** And the trimmed string is what [trim] returns. *)
Lemma Trimmed_trim (s t : string) : Trimmed s t -> t = Str.trim s.
Proof.
  intros (l & r & -> & Wl & Wr & C).
  now rewrite (trim_pad l t r Wl Wr), (trim_clean t C).
Qed.

End TrimFacts.

Section CaseFacts.

Lemma code_bound (c : ascii) : 0 <= Str.code c < 256.
Proof.
  unfold Str.code. pose proof (nat_ascii_bounded c). lia.
Qed.

Lemma code_inj (c d : ascii) : Str.code c = Str.code d -> c = d.
Proof.
  unfold Str.code. intros H. apply Nat2Z.inj in H.
  now rewrite <- (ascii_nat_embedding c), <- (ascii_nat_embedding d), H.
Qed.

Lemma code_lower (c : ascii) :
  Str.code (Str.lower c) = if capital c then Str.code c + 32 else Str.code c.
Proof. destruct c as [[] [] [] [] [] [] [] []]; vm_compute; reflexivity. Qed.

Lemma capital_spec (c : ascii) :
  capital c = true
  <-> 65 <= Str.code c <= 90 \/ (192 <= Str.code c <= 222 /\ Str.code c <> 215).
Proof.
  unfold capital. cbv zeta.
  rewrite orb_true_iff, !andb_true_iff, negb_true_iff, !Z.leb_le, Z.eqb_neq.
  tauto.
Qed.

Lemma capital_small (c d : ascii) :
  capital c = true -> Str.code d = Str.code c + 32 -> capital d = false.
Proof.
  intros Hc E. apply capital_spec in Hc.
  destruct (capital d) eqn:Hd; [|reflexivity].
  apply capital_spec in Hd. lia.
Qed.

(** Two code units have the same lower case when they are the same letter,
    and only then. *)
Lemma lower_same_letter (c d : ascii) :
  Str.lower c = Str.lower d <-> same_letter c d = true.
Proof.
  unfold same_letter. rewrite !orb_true_iff, !andb_true_iff, !Z.eqb_eq.
  split.
  - intros H. apply (f_equal Str.code) in H. rewrite !code_lower in H.
    destruct (capital c) eqn:Hc, (capital d) eqn:Hd.
    + left. left. apply Ascii.eqb_eq, code_inj. lia.
    + left. right. split; [reflexivity | lia].
    + right. split; [reflexivity | lia].
    + left. left. now apply Ascii.eqb_eq, code_inj.
  - intros [[H | [Hc E]] | [Hd E]].
    + apply Ascii.eqb_eq in H. now subst.
    + apply code_inj. rewrite !code_lower, Hc, (capital_small c d Hc E). lia.
    + apply code_inj. rewrite !code_lower, Hd, (capital_small d c Hd E). lia.
Qed.

Lemma toLowerCase_same (s t : string) :
  Str.toLowerCase s = Str.toLowerCase t <-> same_letters s t = true.
Proof.
  revert t. induction s as [|c s IH]; intros [|d t];
    cbn [Str.toLowerCase same_letters];
    try (split; [discriminate | discriminate]); [tauto|].
  rewrite andb_true_iff, <- IH, <- lower_same_letter. split.
  - intros H. now inversion H.
  - intros [-> ->]. reflexivity.
Qed.

Lemma toLowerCase_app (a b : string) :
  Str.toLowerCase (a ++ b) = (Str.toLowerCase a ++ Str.toLowerCase b)%string.
Proof.
  induction a as [|c a IH]; cbn [Str.toLowerCase append];
    [reflexivity | now rewrite IH].
Qed.

Lemma toLowerCase_split (s a b : string) :
  Str.toLowerCase s = (a ++ b)%string ->
  exists s1 s2 : string,
    s = (s1 ++ s2)%string /\ Str.toLowerCase s1 = a /\ Str.toLowerCase s2 = b.
Proof.
  revert s. induction a as [|c a IH]; intros s H.
  - now exists EmptyString, s.
  - destruct s as [|d s]; [discriminate H|].
    cbn [Str.toLowerCase append] in H. inversion H as [[E1 E2]].
    destruct (IH s E2) as (s1 & s2 & -> & <- & <-).
    exists (String d s1), s2. cbn [Str.toLowerCase append]. auto.
Qed.

(** The lower-cased query is in the lower-cased text exactly when the
    query occurs in the text, the case of the letters apart. *)
Lemma Occurs_spec (q s : string) :
  Substring (Str.toLowerCase q) (Str.toLowerCase s) <-> OccursNoCase q s.
Proof.
  unfold Substring, OccursNoCase. split.
  - intros (pre & post & H).
    destruct (toLowerCase_split s _ _ H) as (s1 & s' & -> & <- & H').
    destruct (toLowerCase_split s' _ _ H') as (s2 & s3 & -> & E & <-).
    exists s1, s2, s3. split; [reflexivity|].
    apply toLowerCase_same. now symmetry.
  - intros (pre & mid & post & -> & H). apply toLowerCase_same in H.
    exists (Str.toLowerCase pre), (Str.toLowerCase post).
    now rewrite !toLowerCase_app, H.
Qed.

End CaseFacts.

Section FeedFacts.

Lemma passOpen_spec (onlyOpen : bool) (b : Bug.t) :
  passOpen onlyOpen b = true
  <-> (onlyOpen = true -> Bug.status b <> "resolved" /\ Bug.status b <> "closed").
Proof.
  unfold passOpen, isOpen. destruct onlyOpen.
  - rewrite andb_true_iff, !eqb_neq_iff. tauto.
  - split; [discriminate | reflexivity].
Qed.

Lemma passSeverity_spec (severity : string) (b : Bug.t) :
  passSeverity severity b = true
  <-> (severity <> "all" -> Bug.severity b = severity).
Proof.
  unfold passSeverity. rewrite orb_true_iff, !String.eqb_eq.
  destruct (string_dec severity "all"); tauto.
Qed.

Lemma passQuery_spec (query : string) (b : Bug.t) :
  passQuery (Str.toLowerCase (Str.trim query)) b = true
  <-> (exists q, Trimmed query q
       /\ (q <> EmptyString ->
           OccursNoCase q (Bug.title b)
           \/ OccursNoCase q (Str.join " " (Bug.tags b))
           \/ OccursNoCase q (Bug.description b))).
Proof.
  unfold passQuery.
  rewrite !orb_true_iff, !includes_spec, !Occurs_spec, String.eqb_eq,
    toLowerCase_empty.
  split.
  - intros H. exists (Str.trim query). split; [apply trim_Trimmed|].
    intros N. tauto.
  - intros (q & T & H). apply Trimmed_trim in T. subst q.
    destruct (string_dec (Str.trim query) EmptyString); tauto.
Qed.

Lemma passes_Visible (query severity : string) (onlyOpen : bool) (b : Bug.t) :
  passOpen onlyOpen b && passSeverity severity b
  && passQuery (Str.toLowerCase (Str.trim query)) b = true
  <-> Visible query severity onlyOpen b.
Proof.
  unfold Visible.
  rewrite !andb_true_iff, passOpen_spec, passSeverity_spec, passQuery_spec.
  cbv zeta. tauto.
Qed.

Variable Date_value : string -> option Z.

Lemma comesAfter_dates (a b : FeedBug) :
  Date_value (Bug.updatedAt (bug a)) <> None ->
  Date_value (Bug.updatedAt (bug b)) <> None ->
  comesAfter (byUpdatedDesc Date_value) a b
  = (updated_ms Date_value a <? updated_ms Date_value b).
Proof.
  unfold comesAfter, byUpdatedDesc, updated_ms. intros Ha Hb.
  destruct (Date_value (Bug.updatedAt (bug a))) as [ta|]; [|congruence].
  destruct (Date_value (Bug.updatedAt (bug b))) as [tb|]; [|congruence].
  destruct (Z.ltb_spec 0 (tb - ta)), (Z.ltb_spec ta tb); lia || reflexivity.
Qed.

Lemma allBugs_In (c : Collection) (fb : FeedBug) :
  In fb (allBugs c)
  <-> exists v, In v c /\ In (bug fb) (Version.bugs v)
                /\ versionId fb = Version.id v
                /\ versionLabel fb = Version.label v.
Proof.
  unfold allBugs. rewrite in_flat_map. split.
  - intros (v & Hv & H). apply in_map_iff in H as (b & <- & Hb).
    exists v. simpl. auto.
  - intros (v & Hv & Hb & E1 & E2). exists v. split; [exact Hv|].
    apply in_map_iff. exists (bug fb). split; [|exact Hb].
    destruct fb; simpl in *; now subst.
Qed.

Lemma visible_In (c : Collection) (query severity : string) (onlyOpen : bool)
    (fb : FeedBug) :
  In fb (visibleGlobalBugs Date_value c query severity onlyOpen)
  <-> In fb (allBugs c) /\ Visible query severity onlyOpen (bug fb).
Proof.
  unfold visibleGlobalBugs. rewrite sort_In, filter_In.
  now rewrite passes_Visible.
Qed.


End FeedFacts.




(** C2, the example of the specification: with the open-only toggle on,
    the resolved and the closed bug are left out, and the rest comes most
    recently updated first. *)
Example visibleGlobalBugs_onlyOpen :
  map (fun fb => (Bug.id (bug fb), versionId fb))
      (visibleGlobalBugs Iso.value feed_collection EmptyString "all" true)
  = [("3", "v2"); ("5", "v1"); ("1", "v2")].
Proof. vm_compute. reflexivity. Qed.

(** *** deleteVersion *)

Section DeleteFacts.

Lemma filter_Removed (id : string) (c : Collection) :
  Removed id c (filter (fun v => negb (String.eqb (Version.id v) id)) c).
Proof.
  induction c as [|v c IH]; simpl; [constructor|].
  destruct (String.eqb_spec (Version.id v) id) as [E|E]; simpl.
  - now apply Removed_drop.
  - now apply Removed_keep.
Qed.

Lemma filter_ids (id : string) (c : Collection) :
  ~ In id (ids (filter (fun v => negb (String.eqb (Version.id v) id)) c)).
Proof.
  unfold ids. rewrite in_map_iff. intros (v & E & H).
  apply filter_In in H as [_ H]. apply eqb_neq_iff in H. contradiction.
Qed.

End DeleteFacts.

(** C8.  After [deleteVersion] no version of the collection has the id, a
    search for it finds nothing, the collection is the one before without
    the versions of that id (the others as they were, in their order), and
    the feed, whatever its filters, shows the bugs of the other versions
    and no bug of the deleted one. *)
Theorem deleteVersion_spec (Date_value : string -> option Z)
    (st : AppState) (id : string) :
  let c := versions st in
  let c' := versions (deleteVersion id st) in
  ~ In id (ids c')
  /\ findVersion id c' = None
  /\ Removed id c c'
  /\ (forall fb, In fb (allBugs c')
                 <-> In fb (allBugs c) /\ versionId fb <> id)
  /\ (forall query severity onlyOpen fb,
        In fb (visibleGlobalBugs Date_value c' query severity onlyOpen)
        <-> In fb (visibleGlobalBugs Date_value c query severity onlyOpen)
            /\ versionId fb <> id).
Proof.
  intros c c'. subst c c'. rewrite deleteVersion_versions.
  assert (N := filter_ids id (versions st)).
  assert (B : forall fb,
             In fb (allBugs (filter (fun v => negb (String.eqb (Version.id v) id))
                                    (versions st)))
             <-> In fb (allBugs (versions st)) /\ versionId fb <> id).
  { intros fb. rewrite !allBugs_In. split.
    - intros (v & Hv & Hb & E1 & E2). apply filter_In in Hv as [Hv Hn].
      apply eqb_neq_iff in Hn. split; [|congruence]. exists v. auto.
    - intros [(v & Hv & Hb & E1 & E2) Hn]. exists v. repeat split; auto.
      apply filter_In. split; [exact Hv|]. apply eqb_neq_iff. congruence. }
  repeat split.
  - exact N.
  - now apply findVersion_None.
  - apply filter_Removed.
  - apply (proj1 (B fb)); assumption.
  - apply (proj1 (B fb)); assumption.
  - intros [H1 H2]. apply B. auto.
  - apply visible_In in H as [H1 H2]. apply visible_In. split; [|exact H2].
    now apply B.
  - apply visible_In in H as [H1 H2]. now apply B in H1.
  - intros [H1 H2]. apply visible_In in H1 as [H1 H3]. apply visible_In.
    split; [|exact H3]. apply B. auto.
Qed.

(** C8, on the feed example: without the version [v2], the feed of open
    bugs keeps the open bug of [v1] only. *)
Example deleteVersion_demo :
  let st := deleteVersion "v2" (mkApp feed_collection (Some "v2")) in
  ids (versions st) = ["v1"]
  /\ selectedId st = None
  /\ map (fun fb => (Bug.id (bug fb), versionId fb))
         (visibleGlobalBugs Iso.value (versions st) "" "all" true)
     = [("5", "v1")].
Proof. vm_compute. repeat split. Qed.

(* ===================================================================== *)
(** ** The ids of the versions under the model operations *)
(* ===================================================================== *)

Section IdFacts.

Lemma later_refl (w : World) : later w w.
Proof. split; auto. Qed.

Lemma later_advance (u k : nat) (w : World) : later w (advance u k w).
Proof. split; simpl; [reflexivity | lia]. Qed.

Lemma fresh_same (w w' : World) (c c' : Collection) :
  fresh_for w c -> later w w' -> ids c' = ids c -> fresh_for w' c'.
Proof.
  intros [F I] [E L] Hc. split.
  - intros i Hi. rewrite E, Hc. apply F. lia.
  - intros i j Hi Hj. rewrite E. apply I; lia.
Qed.

Lemma fresh_new (w w' : World) (c c' : Collection) :
  fresh_for w c -> uuids w' = uuids w -> (uuid_calls w < uuid_calls w')%nat ->
  ids c' = uuids w (uuid_calls w) :: ids c ->
  ~ In (uuids w (uuid_calls w)) (ids c) /\ fresh_for w' c'.
Proof.
  intros [F I] E L Hc. split; [apply F; lia|]. split.
  - intros i Hi. rewrite E, Hc. simpl. intros [H|H].
    + apply I in H; lia.
    + revert H. apply F. lia.
  - intros i j Hi Hj. rewrite E. apply I; lia.
Qed.

Lemma fresh_delete (w : World) (c c' : Collection) (id : string) :
  fresh_for w c ->
  ids c' = filter (fun x => negb (String.eqb x id)) (ids c) ->
  fresh_for w c'.
Proof.
  intros [F I] Hc. split; [|exact I].
  intros i Hi. rewrite Hc. intros H. apply filter_In in H as [H _].
  revert H. now apply F.
Qed.

Lemma ids_update (id : string) (p : Version.patch) (st : AppState) :
  Version.p_id p = None ->
  ids (versions (updateVersion id p st)) = ids (versions st).
Proof.
  intros Hp. unfold updateVersion, setVersions, ids. cbn [versions].
  rewrite map_map. apply map_ext. intros v.
  destruct (String.eqb (Version.id v) id); [|reflexivity].
  unfold Version.merge. cbn [Version.id]. now rewrite Hp.
Qed.

Lemma ids_delete (id : string) (st : AppState) :
  ids (versions (deleteVersion id st))
  = filter (fun x => negb (String.eqb x id)) (ids (versions st)).
Proof.
  rewrite deleteVersion_versions. unfold ids.
  induction (versions st) as [|v c IH]; simpl; [reflexivity|].
  destruct (String.eqb (Version.id v) id); simpl; now rewrite IH.
Qed.

Lemma stamps_later (bid : string) (p : Bug.patch) (l : list Bug.t) (w : World) :
  later w (snd (mapM (fun b => if String.eqb (Bug.id b) bid
                               then u <- nowISO ;;
                                    ret (Bug.with_updatedAt u (Bug.merge b p))
                               else ret b) l w)).
Proof.
  revert w. induction l as [|b l IH]; intros w; [apply later_refl|].
  cbn [mapM]. unfold bind at 1.
  destruct (String.eqb (Bug.id b) bid).
  - unfold bind at 1, nowISO at 1, ret at 1. unfold bind at 1.
    match goal with |- context [mapM ?f l ?w1] =>
      specialize (IH w1); destruct (mapM f l w1) as [r w2] end.
    unfold ret. simpl in *. destruct IH as [E L]. split; simpl in *; auto.
  - unfold ret at 1. unfold bind at 1.
    match goal with |- context [mapM ?f l ?w1] =>
      specialize (IH w1); destruct (mapM f l w1) as [r w2] end.
    exact IH.
Qed.

Lemma same_ids_of_ids (c c' : Collection) : ids c' = ids c -> same_ids c c'.
Proof.
  revert c'. induction c as [|v c IH]; intros [|v' c'] H; simpl in H;
    try discriminate; [constructor|].
  inversion H. constructor; [assumption | now apply IH].
Qed.

(** One operation whose patch carries no id: the ids stay distinct,
    [uuid()] stays fresh for the collection it leaves, and every version
    that stays keeps its id. *)
Lemma op_step (op : Op) (st : AppState) (w : World) :
  keeps_id op ->
  NoDup (ids (versions st)) -> fresh_for w (versions st) ->
  NoDup (ids (versions (fst (apply_op op st w))))
  /\ fresh_for (snd (apply_op op st w)) (versions (fst (apply_op op st w)))
  /\ Keeps (versions st) (versions (fst (apply_op op st w))).
Proof.
  intros K ND F.
  assert (Same : forall st' w',
            later w w' -> ids (versions st') = ids (versions st) ->
            NoDup (ids (versions st')) /\ fresh_for w' (versions st')
            /\ Keeps (versions st) (versions st')).
  { intros st' w' L E. rewrite E.
    split; [exact ND | split].
    - now apply (fresh_same w w' (versions st)).
    - apply Keeps_all. now apply same_ids_of_ids. }
  assert (New : forall st' w' v,
            uuids w' = uuids w -> (uuid_calls w < uuid_calls w')%nat ->
            versions st' = v :: versions st ->
            Version.id v = uuids w (uuid_calls w) ->
            NoDup (ids (versions st')) /\ fresh_for w' (versions st')
            /\ Keeps (versions st) (versions st')).
  { intros st' w' v E L Hc Hv.
    assert (Hi : ids (versions st') = uuids w (uuid_calls w) :: ids (versions st))
      by (rewrite Hc; simpl; now rewrite Hv).
    destruct (fresh_new w w' _ _ F E L Hi) as [N F'].
    rewrite Hi. split; [now constructor | split; [exact F'|]].
    rewrite Hc. apply Keeps_new. now rewrite Hv. }
  destruct op as [|id p|id|id|vid type text|vid cid|vid partial|vid bid p|vid bid];
    cbn [apply_op keeps_id] in *.
  - (* addVersion *)
    unfold addVersion, bind, uuid, nowISO, ret. cbn [fst snd].
    eapply New; simpl; auto.
  - (* updateVersion *)
    unfold ret. cbn [fst snd]. apply Same; [apply later_refl|].
    now apply ids_update.
  - (* deleteVersion *)
    unfold ret. cbn [fst snd]. rewrite ids_delete.
    split; [now apply NoDup_filter | split].
    + apply (fresh_delete w (versions st) _ id F). apply ids_delete.
    + rewrite deleteVersion_versions. apply (Keeps_delete _ id).
      apply filter_Removed.
  - (* duplicateVersion *)
    destruct (findVersion id (versions st)) as [v|] eqn:E.
    + rewrite (duplicateVersion_found id st w v E). cbn [fst snd].
      eapply New; simpl; auto. lia.
    + unfold duplicateVersion. rewrite E. unfold ret. cbn [fst snd].
      apply Same; [apply later_refl | reflexivity].
  - (* addChange *)
    unfold addChange. destruct (findVersion vid (versions st)) as [v|].
    + unfold bind, uuid, ret. cbn [fst snd].
      apply Same; [split; simpl; auto | now apply ids_update].
    + unfold ret. cbn [fst snd]. apply Same; [apply later_refl | reflexivity].
  - (* removeChange *)
    unfold ret, removeChange. cbn [fst snd].
    destruct (findVersion vid (versions st)) as [v|];
      (apply Same; [apply later_refl|]); [now apply ids_update | reflexivity].
  - (* addBug *)
    unfold addBug. destruct (findVersion vid (versions st)) as [v|].
    + unfold bind, uuid, nowISO, ret. cbn [fst snd].
      apply Same; [split; simpl; auto | now apply ids_update].
    + unfold ret. cbn [fst snd]. apply Same; [apply later_refl | reflexivity].
  - (* updateBug *)
    unfold updateBug. destruct (findVersion vid (versions st)) as [v|].
    + pose proof (stamps_later bid p (Version.bugs v) w) as L.
      destruct (mapM _ (Version.bugs v) w) as [bs w'] eqn:Em.
      rewrite (bind_run _ _ _ _ _ Em).
      unfold ret. cbn [fst snd] in *. apply Same; [exact L | now apply ids_update].
    + unfold ret. cbn [fst snd]. apply Same; [apply later_refl | reflexivity].
  - (* deleteBug *)
    unfold ret, deleteBug. cbn [fst snd].
    destruct (findVersion vid (versions st)) as [v|];
      (apply Same; [apply later_refl|]); [now apply ids_update | reflexivity].
Qed.

(** A run of operations, none with an id in its patch, leaves distinct
    ids and a fresh [uuid()]. *)
Lemma run_ops_invariant (ops : list Op) (st : AppState) (w : World) :
  Forall keeps_id ops ->
  NoDup (ids (versions st)) -> fresh_for w (versions st) ->
  NoDup (ids (versions (fst (run_ops ops st w))))
  /\ fresh_for (snd (run_ops ops st w)) (versions (fst (run_ops ops st w))).
Proof.
  revert st w. induction ops as [|op ops IH]; intros st w K ND F.
  - simpl. split; assumption.
  - inversion K as [|? ? K1 K2]; subst.
    destruct (op_step op st w K1 ND F) as (ND' & F' & _).
    cbn [run_ops]. unfold bind.
    destruct (apply_op op st w) as [st1 w1]. cbn [fst snd] in *.
    now apply IH.
Qed.

Lemma run_ops_app (a b : list Op) (st : AppState) (w : World) :
  run_ops (a ++ b) st w
  = run_ops b (fst (run_ops a st w)) (snd (run_ops a st w)).
Proof.
  revert st w. induction a as [|op a IH]; intros st w; [reflexivity|].
  cbn [app run_ops]. unfold bind.
  destruct (apply_op op st w) as [st1 w1]. apply IH.
Qed.

End IdFacts.

(** C10 (as amended).  Start from a collection whose version ids are
    distinct, in a world where [uuid()] returns ids that no version has and
    never the same id twice, and run any sequence of the nine closures in
    which no [updateVersion] has an [id] in its patch.  Then no two
    versions share an id at the end, nor before any of the operations; and
    each operation of the sequence leaves every version at its place with
    its id, or puts a version with a new id in front of the others, or
    takes the versions with the deleted id out from among the others: a
    version that is there before and after the operation keeps its id. *)
Theorem version_ids_invariant (ops : list Op) (st : AppState) (w : World) :
  Forall keeps_id ops ->
  NoDup (ids (versions st)) -> fresh_for w (versions st) ->
  NoDup (ids (versions (fst (run_ops ops st w))))
  /\ (forall before op after, ops = before ++ op :: after ->
        let st1 := fst (run_ops before st w) in
        let w1 := snd (run_ops before st w) in
        NoDup (ids (versions st1))
        /\ Keeps (versions st1) (versions (fst (apply_op op st1 w1)))).
Proof.
  intros K ND F. split.
  - exact (proj1 (run_ops_invariant ops st w K ND F)).
  - intros before op after -> st1 w1.
    apply Forall_app in K as [Kb Ko]. inversion Ko as [|? ? K1 _]; subst.
    destruct (run_ops_invariant before st w Kb ND F) as [ND1 F1].
    split; [exact ND1|].
    exact (proj2 (proj2 (op_step op st1 w1 K1 ND1 F1))).
Qed.

Lemma version_ids_invariant_witness :
  ids (versions (fst (run_ops demo_ops demo_state demo_world)))
  = ["ui"; "u"; "a"]
  /\ NoDup ["ui"; "u"; "a"]
  /\ Keeps (versions (fst (run_ops [OpAddVersion] demo_state demo_world)))
           (versions (fst (apply_op
              (OpUpdateVersion "a" (Version.mkPatch None (Some "v9.9.9") None
                                                    None None None None))
              (fst (run_ops [OpAddVersion] demo_state demo_world))
              (snd (run_ops [OpAddVersion] demo_state demo_world))))).
Proof.
  assert (K : Forall keeps_id demo_ops) by (repeat constructor).
  assert (ND : NoDup (ids (versions demo_state)))
    by (repeat constructor; simpl; intuition discriminate).
  assert (F : fresh_for demo_world (versions demo_state)).
  { destruct demo_fresh as [F I]. split; [|exact I].
    intros i Hi H. apply (F i Hi). now apply used_ids_ids. }
  destruct (version_ids_invariant demo_ops demo_state demo_world K ND F)
    as [N S].
  split; [vm_compute; reflexivity | split; [exact N|]].
  exact (proj2 (S [OpAddVersion] _ _ eq_refl)).
Defined.

(** C10 as stated fails: a patch is free to carry an [id].  The ids of the
    demo state are distinct and [uuid()] is fresh for it.  Giving the
    version [a] the id [b] changes the id of a version that stays, and
    leaves two versions with the id [b]. *)
Lemma updateVersion_id_counterexample :
  ids (versions demo_state) = ["b"; "a"]
  /\ NoDup (ids (versions demo_state))
  /\ fresh_for demo_world (versions demo_state)
  /\ ids (versions (fst (run_ops [OpUpdateVersion "a" id_patch]
                                 demo_state demo_world)))
     = ["b"; "b"]
  /\ ~ NoDup ["b"; "b"]
  /\ ~ Keeps (versions demo_state)
             (versions (fst (apply_op (OpUpdateVersion "a" id_patch)
                                      demo_state demo_world))).
Proof.
  split; [reflexivity|].
  split; [repeat constructor; simpl; intuition discriminate|].
  split.
  { destruct demo_fresh as [F I]. split; [|exact I].
    intros i Hi K. apply (F i Hi). now apply used_ids_ids. }
  split; [reflexivity|].
  split.
  { intros ND. inversion ND as [|? ? N _]. apply N. now left. }
  intros K. vm_compute in K. inversion K as [c' S | v N E | id c' R]; subst.
  - inversion S as [|? ? ? ? _ S']; subst.
    inversion S' as [|? ? ? ? E _]; subst. discriminate E.
  - repeat match goal with
           | H : Removed _ _ _ |- _ =>
               inversion H; clear H; subst; simpl in *; try congruence
           end.
Qed.

(** The ids are as new as [uuid()] makes them.  In a world whose [uuid()]
    returns [a], [addVersion] puts a second version with the id [a] in
    front of the demo state. *)
Example addVersion_repeat_example :
  ids (versions (fst (run_ops [OpAddVersion] demo_state stuck_world)))
  = ["a"; "b"; "a"].
Proof. reflexivity. Qed.

(* ===================================================================== *)
(** ** JSON: what [stringify] writes, [parse] reads back *)
(* ===================================================================== *)

Section LexFacts.

#[local] Arguments prepend : simpl never.

Lemma append_assoc (a b c : string) :
  ((a ++ b) ++ c = a ++ (b ++ c))%string.
Proof. induction a; simpl; congruence. Qed.

Lemma prepend_nil (o : option (list token)) : prepend [] o = o.
Proof. now destruct o. Qed.

Lemma prepend_prepend (a b : list token) (o : option (list token)) :
  prepend a (prepend b o) = prepend (a ++ b) o.
Proof. destruct o; unfold prepend; [now rewrite app_assoc | reflexivity]. Qed.

Lemma lex_blank (s r : string) :
  blank s = true -> lex LStart (s ++ r) = lex LStart r.
Proof.
  induction s as [|c s IH]; simpl; intros H; [reflexivity|].
  apply andb_true_iff in H as [Hc Hs].
  unfold step_start. rewrite Hc, prepend_nil. now apply IH.
Qed.

Lemma blank_app (a b : string) :
  blank a = true -> blank b = true -> blank (a ++ b) = true.
Proof.
  induction a as [|c a IH]; simpl; intros Ha Hb; [exact Hb|].
  apply andb_true_iff in Ha as [Hc Ha]. now rewrite Hc, IH.
Qed.

Lemma lex_newline (r : string) : lex LStart (String newline r) = lex LStart r.
Proof.
  change (lex LStart (String newline r)) with (prepend [] (lex LStart r)).
  apply prepend_nil.
Qed.

Lemma lex_cons (st : lex_state) (c : ascii) (r : string) :
  lex st (String c r)
  = match step st c with
    | None => None
    | Some (ts, st') => prepend ts (lex st' r)
    end.
Proof. reflexivity. Qed.

Lemma lex_lbrack r : lex LStart (String "[" r) = prepend [TLBrack] (lex LStart r).
Proof. reflexivity. Qed.
Lemma lex_rbrack r : lex LStart (String "]" r) = prepend [TRBrack] (lex LStart r).
Proof. reflexivity. Qed.
Lemma lex_lbrace r : lex LStart (String "{" r) = prepend [TLBrace] (lex LStart r).
Proof. reflexivity. Qed.
Lemma lex_rbrace r : lex LStart (String "}" r) = prepend [TRBrace] (lex LStart r).
Proof. reflexivity. Qed.
Lemma lex_comma r : lex LStart (String "," r) = prepend [TComma] (lex LStart r).
Proof. reflexivity. Qed.
Lemma lex_colon r :
  lex LStart (String ":" (String " " r)) = prepend [TColon] (lex LStart r).
Proof.
  change (lex LStart (String ":" (String " " r)))
    with (prepend [TColon] (prepend [] (lex LStart r))).
  now rewrite prepend_nil.
Qed.

(** Inside a string, the scanner reads what [escape_char] wrote for a code
    unit as that code unit. *)
Lemma lex_escape_char (c : ascii) (acc r : string) :
  lex (LStr acc) (escape_char c ++ r) = lex (LStr (snoc acc c)) r.
Proof.
  destruct c as [[] [] [] [] [] [] [] []];
    match goal with
    | |- context [escape_char ?c] =>
        let e := eval vm_compute in (escape_char c) in
        change (escape_char c) with e
    end;
    cbn [append];
    repeat (rewrite lex_cons;
            match goal with
            | |- context [step ?st ?c] =>
                let v := eval vm_compute in (step st c) in
                change (step st c) with v
            end;
            cbv iota beta);
    rewrite ?prepend_nil; reflexivity.
Qed.

Lemma lex_escape (s acc r : string) :
  lex (LStr acc) (escape s ++ String quote_char r)
  = prepend [TStr (Narrow (acc ++ s))] (lex LStart r).
Proof.
  revert acc. induction s as [|c s IH]; intros acc.
  - cbn. now rewrite append_empty_r.
  - cbn [escape]. rewrite append_assoc, lex_escape_char, IH.
    unfold snoc, str1. now rewrite append_assoc.
Qed.

Lemma lex_quote (s r : string) :
  lex LStart (quote s ++ r) = prepend [TStr s] (lex LStart r).
Proof.
  unfold quote, str1. cbn [append]. rewrite append_assoc. cbn [append].
  change (lex LStart (String quote_char (escape s ++ String quote_char r)))
    with (prepend [] (lex (LStr EmptyString) (escape s ++ String quote_char r))).
  now rewrite prepend_nil, lex_escape.
Qed.

End LexFacts.

Section RoundTrip.

Lemma blank_gap (ind : string) :
  blank ind = true -> blank (ind ++ gap)%string = true.
Proof. intros H. now apply blank_app. Qed.

Lemma ser_elements_cons f sep y l :
  ser_elements f sep (y :: l) = (sep ++ f y ++ ser_elements f sep l)%string.
Proof. reflexivity. Qed.

Lemma ser_members_cons f sep k y m :
  ser_members f sep ((k, y) :: m)
  = (sep ++ quote_str k ++ ": " ++ f y ++ ser_members f sep m)%string.
Proof. reflexivity. Qed.

Lemma ser_arr_cons ind x r :
  ser ind (JArr (x :: r))
  = ("[" ++ str1 newline ++ (ind ++ gap) ++ ser (ind ++ gap) x
     ++ ser_elements (ser (ind ++ gap)) ("," ++ str1 newline ++ (ind ++ gap)) r
     ++ str1 newline ++ ind ++ "]")%string.
Proof. reflexivity. Qed.

Lemma ser_obj_cons ind k x r :
  ser ind (JObj ((k, x) :: r))
  = ("{" ++ str1 newline ++ (ind ++ gap) ++ quote_str k ++ ": "
     ++ ser (ind ++ gap) x
     ++ ser_members (ser (ind ++ gap)) ("," ++ str1 newline ++ (ind ++ gap)) r
     ++ str1 newline ++ ind ++ "}")%string.
Proof. reflexivity. Qed.

Lemma lex_sep (inner sep rest : string) :
  blank inner = true ->
  sep = ("," ++ str1 newline ++ inner)%string ->
  lex LStart (sep ++ rest)%string = prepend [TComma] (lex LStart rest).
Proof.
  intros Hb ->. rewrite !append_assoc. cbn [append str1].
  now rewrite lex_comma, lex_newline, lex_blank.
Qed.

Lemma lex_close (ind rest : string) (c : ascii) (t : token) :
  blank ind = true ->
  (forall r, lex LStart (String c r) = prepend [t] (lex LStart r)) ->
  lex LStart (str1 newline ++ ind ++ String c EmptyString ++ rest)%string
  = prepend [t] (lex LStart rest).
Proof.
  intros Hb Hc. cbn [append str1]. now rewrite lex_newline, lex_blank, Hc.
Qed.

Lemma lex_elements (inner sep tail : string) (l : list value) :
  blank inner = true ->
  sep = ("," ++ str1 newline ++ inner)%string ->
  Forall Lexes l -> Forall Plain l ->
  lex LStart (ser_elements (ser inner) sep l ++ tail)%string
  = prepend (flat_map (fun y => TComma :: tokens_of y) l) (lex LStart tail).
Proof.
  intros Hb Hs HL HP. induction l as [|y l IH].
  - cbn. now rewrite prepend_nil.
  - inversion HL as [|? ? Ly Ll]; inversion HP as [|? ? Py Pl]; subst l0 l1 x x0.
    rewrite ser_elements_cons, !append_assoc.
    rewrite (lex_sep inner sep _ Hb Hs).
    rewrite (Ly Py inner _ Hb), (IH Ll Pl), !prepend_prepend.
    reflexivity.
Qed.

Lemma lex_members (inner sep tail : string) (m : list (str * value)) :
  blank inner = true ->
  sep = ("," ++ str1 newline ++ inner)%string ->
  Forall (fun kv => Lexes (snd kv)) m -> Forall (fun kv => narrow (fst kv)) m ->
  Forall (fun kv => Plain (snd kv)) m ->
  lex LStart (ser_members (ser inner) sep m ++ tail)%string
  = prepend (flat_map (fun ky => TComma :: TStr (fst ky) :: TColon
                                        :: tokens_of (snd ky)) m)
            (lex LStart tail).
Proof.
  intros Hb Hs HL HN HP. induction m as [|[k y] m IH].
  - cbn. now rewrite prepend_nil.
  - pose proof (Forall_inv HL) as Ly. pose proof (Forall_inv_tail HL) as Ll.
    pose proof (Forall_inv HP) as Py. pose proof (Forall_inv_tail HP) as Pl.
    pose proof (Forall_inv HN) as Ny. pose proof (Forall_inv_tail HN) as Nl.
    cbn [snd fst] in *. destruct k as [k|u]; [|contradiction].
    rewrite ser_members_cons, !append_assoc. cbn [quote_str].
    rewrite (lex_sep inner sep _ Hb Hs), lex_quote.
    cbn [append]. rewrite lex_colon.
    rewrite (Ly Py inner _ Hb), (IH Ll Nl Pl), !prepend_prepend.
    reflexivity.
Qed.

Lemma lex_null r : lex LStart ("null" ++ r)%string = prepend [TNull] (lex LStart r).
Proof.
  change (lex LStart ("null" ++ r)%string)
    with (prepend [] (prepend [] (prepend [] (prepend [TNull] (lex LStart r))))).
  now rewrite !prepend_nil.
Qed.

Lemma lex_true r : lex LStart ("true" ++ r)%string = prepend [TTrue] (lex LStart r).
Proof.
  change (lex LStart ("true" ++ r)%string)
    with (prepend [] (prepend [] (prepend [] (prepend [TTrue] (lex LStart r))))).
  now rewrite !prepend_nil.
Qed.

Lemma lex_false r :
  lex LStart ("false" ++ r)%string = prepend [TFalse] (lex LStart r).
Proof.
  change (lex LStart ("false" ++ r)%string)
    with (prepend [] (prepend [] (prepend [] (prepend []
            (prepend [TFalse] (lex LStart r)))))).
  now rewrite !prepend_nil.
Qed.

Lemma lex_ser (v : value) : Lexes v.
Proof.
  induction v as [|b|lit|s|l IH|m IH] using value_induction;
    intros HP ind rest Hb.
  - apply lex_null.
  - destruct b; [apply lex_true | apply lex_false].
  - inversion HP.
  - inversion HP; subst. apply lex_quote.
  - inversion HP as [| | |? Pl|]; subst. destruct l as [|x l].
    + cbn [ser tokens_of append]. now rewrite lex_lbrack, lex_rbrack, prepend_prepend.
    + inversion IH as [|? ? Lx Ll]; inversion Pl as [|? ? Px Pl']; subst.
      pose proof (blank_gap ind Hb) as Hi.
      rewrite ser_arr_cons. cbn [tokens_of].
      set (inner := (ind ++ gap)%string) in *.
      set (sep := ("," ++ str1 newline ++ inner)%string).
      rewrite !append_assoc.
      change (("[" ++ ?x)%string) with (String "[" x).
      rewrite lex_lbrack.
      change ((str1 newline ++ ?x)%string) with (String newline x) at 1.
      rewrite lex_newline, lex_blank by exact Hi.
      rewrite (Lx Px _ _ Hi), (lex_elements inner sep _ l Hi eq_refl Ll Pl').
      rewrite (lex_close ind rest "]" TRBrack Hb lex_rbrack).
      rewrite !prepend_prepend, <- !app_assoc. reflexivity.
  - inversion HP as [| | | |? ND Nm Pm]; subst. destruct m as [|[k x] m].
    + cbn [ser tokens_of append]. now rewrite lex_lbrace, lex_rbrace, prepend_prepend.
    + inversion IH as [|? ? Lx Lm]; inversion Pm as [|? ? Px Pm'];
        inversion Nm as [|? ? Nx Nm']; subst.
      cbn [snd fst] in *. destruct k as [k|u]; [|contradiction].
      pose proof (blank_gap ind Hb) as Hi.
      rewrite ser_obj_cons. cbn [tokens_of quote_str fst].
      set (inner := (ind ++ gap)%string) in *.
      set (sep := ("," ++ str1 newline ++ inner)%string).
      rewrite !append_assoc.
      change (("{" ++ ?x)%string) with (String "{" x).
      rewrite lex_lbrace.
      change ((str1 newline ++ ?x)%string) with (String newline x) at 1.
      rewrite lex_newline, lex_blank by exact Hi.
      rewrite lex_quote.
      change ((": " ++ ?x)%string) with (String ":" (String " " x)).
      rewrite lex_colon.
      rewrite (Lx Px _ _ Hi), (lex_members inner sep _ m Hi eq_refl Lm Nm' Pm').
      rewrite (lex_close ind rest "}" TRBrace Hb lex_rbrace).
      rewrite !prepend_prepend, <- !app_assoc. reflexivity.
Qed.

Lemma first_element (x : value) (stk : list frame) (rest : list token) :
  run (PArr0 stk) (tokens_of x ++ rest)
  = run (PValue (FArr [] :: stk)) (tokens_of x ++ rest).
Proof.
  destruct x as [|[|]|lit|s|[|y l]|[|[k y] m]]; reflexivity.
Qed.

Lemma run_elements (l : list value) :
  Forall Parses l -> Forall Plain l ->
  forall done stk rest,
    run (PArrSep done stk)
        (flat_map (fun y => TComma :: tokens_of y) l ++ rest)
    = run (PArrSep (done ++ l) stk) rest.
Proof.
  induction l as [|y l IH]; intros HL HP done stk rest.
  - cbn. now rewrite app_nil_r.
  - inversion HL as [|? ? Ly Ll]; inversion HP as [|? ? Py Pl]; subst.
    cbn [flat_map app]. rewrite <- app_assoc.
    cbn [run parse_step]. rewrite (Ly Py). cbn [reduce].
    rewrite (IH Ll Pl). now rewrite <- app_assoc.
Qed.

Lemma units_eqb_spec (a b : list Z) : reflect (a = b) (units_eqb a b).
Proof.
  revert b. induction a as [|x a IH]; intros [|y b]; simpl;
    try (constructor; congruence).
  destruct (Z.eqb_spec x y) as [->|N]; simpl; [|constructor; congruence].
  destruct (IH b) as [->|N]; constructor; congruence.
Qed.

Lemma str_eqb_spec (a b : str) : reflect (a = b) (str_eqb a b).
Proof.
  destruct a as [x|x], b as [y|y]; simpl; try (constructor; congruence).
  - destruct (String.eqb_spec x y); constructor; congruence.
  - destruct (units_eqb_spec x y); constructor; congruence.
Qed.

Lemma obj_set_new (k : str) (v : value) (m : list (str * value)) :
  ~ In k (map fst m) -> obj_set k v m = m ++ [(k, v)].
Proof.
  induction m as [|[k' v'] m IH]; simpl; intros H; [reflexivity|].
  destruct (str_eqb_spec k' k) as [E|E]; [tauto|].
  rewrite IH; tauto.
Qed.

Lemma run_members (m : list (str * value)) :
  Forall (fun kv => Parses (snd kv)) m -> Forall (fun kv => Plain (snd kv)) m ->
  forall done stk rest,
    NoDup (map fst (done ++ m)) ->
    run (PObjSep done stk)
        (flat_map (fun ky => TComma :: TStr (fst ky) :: TColon
                                    :: tokens_of (snd ky)) m ++ rest)
    = run (PObjSep (done ++ m) stk) rest.
Proof.
  induction m as [|[k y] m IH]; intros HL HP done stk rest ND.
  - cbn. now rewrite app_nil_r.
  - inversion HL as [|? ? Ly Ll]; inversion HP as [|? ? Py Pl]; subst.
    cbn [fst snd] in *.
    cbn [flat_map fst snd app]. rewrite <- app_assoc.
    cbn [run parse_step]. rewrite (Ly Py). cbn [reduce].
    assert (Hk : ~ In k (map fst done)).
    { rewrite map_app in ND. cbn in ND. apply NoDup_remove_2 in ND.
      rewrite in_app_iff in ND. tauto. }
    rewrite (obj_set_new k y done Hk).
    rewrite (IH Ll Pl); rewrite <- app_assoc; [reflexivity | exact ND].
Qed.

Lemma run_tokens (v : value) : Parses v.
Proof.
  induction v as [|b|lit|s|l IH|m IH] using value_induction;
    intros HP stk rest.
  - reflexivity.
  - destruct b; reflexivity.
  - reflexivity.
  - reflexivity.
  - inversion HP as [| | |? Pl|]; subst. destruct l as [|x l]; [reflexivity|].
    inversion IH as [|? ? Lx Ll]; inversion Pl as [|? ? Px Pl']; subst.
    cbn [tokens_of app]. cbn [run parse_step value_start].
    rewrite <- !app_assoc, first_element, (Lx Px). cbn [reduce app].
    now rewrite (run_elements l Ll Pl').
  - inversion HP as [| | | |? ND Nm Pm]; subst.
    destruct m as [|[k x] m]; [reflexivity|].
    inversion IH as [|? ? Lx Lm]; inversion Pm as [|? ? Px Pm']; subst.
    cbn [snd] in *.
    cbn [tokens_of app].
    cbn [run parse_step value_start].
    rewrite <- !app_assoc, (Lx Px). cbn [reduce obj_set].
    now rewrite (run_members m Lm Pm' [(k, x)] stk _ ND).
Qed.

(** [JSON.parse(JSON.stringify(v, null, 2))] is [v]. *)
Lemma parse_stringify (v : value) : Plain v -> parse (stringify v) = Some v.
Proof.
  intros HP. unfold parse, stringify.
  rewrite <- (append_empty_r (ser EmptyString v)).
  rewrite (lex_ser v HP EmptyString EmptyString eq_refl).
  cbn [lex at_end prepend].
  now rewrite (run_tokens v HP [] []).
Qed.

End RoundTrip.

(* ===================================================================== *)
(** ** Export and import *)
(* ===================================================================== *)

Section CollectionJson.

Ltac distinct_keys := repeat constructor; simpl; intuition discriminate.

Lemma Plain_strings (l : list string) :
  Forall Plain (map (fun t : string => JStr t) l).
Proof. induction l; simpl; constructor; auto. constructor. Qed.

Lemma Plain_Change (c : Change.t) : Plain (Change_to_json c).
Proof.
  constructor; [distinct_keys | repeat constructor | repeat constructor].
Qed.

Lemma Plain_Bug (b : Bug.t) : Plain (Bug_to_json b).
Proof.
  constructor; [distinct_keys | repeat constructor |].
  repeat (constructor; [simpl; try constructor|]); try constructor.
  apply Plain_strings.
Qed.

Lemma Forall_map_Plain {A : Type} (f : A -> value) (l : list A) :
  (forall a, Plain (f a)) -> Forall Plain (map f l).
Proof. intros H. induction l; simpl; constructor; auto. Qed.

Lemma Plain_Version (v : Version.t) : Plain (Version_to_json v).
Proof.
  constructor; [distinct_keys | repeat constructor |].
  repeat (constructor; [simpl; try constructor|]); try constructor.
  - apply Forall_map_Plain, Plain_Change.
  - apply Forall_map_Plain, Plain_Bug.
Qed.

Lemma Plain_Collection (c : Collection) : Plain (Collection_to_json c).
Proof. constructor. apply Forall_map_Plain, Plain_Version. Qed.







Lemma first_id_spec (data : list value) :
  first_id data = match data with [] => JNull | x :: _ => id_of x end.
Proof. destruct data as [|[] ?]; reflexivity. Qed.

End CollectionJson.

(** *** Escapes: every [\uXXXX] denotes its code unit *)

Section EscapeFacts.

Lemma hex_value_digit (d : Z) :
  0 <= d < 16 -> hex_value (hex_digit d) = Some d.
Proof.
  intros H.
  assert (C : d = 0 \/ d = 1 \/ d = 2 \/ d = 3 \/ d = 4 \/ d = 5 \/ d = 6
              \/ d = 7 \/ d = 8 \/ d = 9 \/ d = 10 \/ d = 11 \/ d = 12
              \/ d = 13 \/ d = 14 \/ d = 15) by lia.
  repeat (destruct C as [-> | C]; [reflexivity|]). now subst.
Qed.

Lemma step_hex (acc : str) (more : nat) (v d : Z) :
  0 <= d < 16 ->
  step (LHex acc more v) (hex_digit d)
  = Some ([], match more with
              | S more' => LHex acc more' (16 * v + d)
              | O => LStr (push_unit acc (16 * v + d))
              end).
Proof.
  intros H. unfold step. rewrite (hex_value_digit d H). now destruct more.
Qed.

Lemma hex4_value (n : Z) :
  0 <= n < 65536 ->
  16 * (16 * (16 * (16 * 0 + n / 4096) + (n / 256) mod 16) + (n / 16) mod 16)
  + n mod 16 = n.
Proof.
  intros H. Z.div_mod_to_equations. lia.
Qed.

Lemma lex_hex4 (acc : str) (n : Z) (r : string) :
  0 <= n < 65536 ->
  lex (LStr acc) ("\u" ++ hex4 n ++ r)%string = lex (LStr (push_unit acc n)) r.
Proof.
  intros H. unfold hex4, str1. cbn [append].
  change (lex (LStr acc) (String "\" (String "u" ?x)))
    with (prepend [] (prepend [] (lex (LHex acc 3 0) x))).
  rewrite !prepend_nil.
  assert (A : 0 <= n / 4096 < 16)
    by (split; [apply Z.div_pos | apply Z.div_lt_upper_bound]; lia).
  assert (B : 0 <= (n / 256) mod 16 < 16) by (apply Z.mod_pos_bound; lia).
  assert (C : 0 <= (n / 16) mod 16 < 16) by (apply Z.mod_pos_bound; lia).
  assert (D : 0 <= n mod 16 < 16) by (apply Z.mod_pos_bound; lia).
  rewrite lex_cons, (step_hex _ _ _ _ A), prepend_nil.
  rewrite lex_cons, (step_hex _ _ _ _ B), prepend_nil.
  rewrite lex_cons, (step_hex _ _ _ _ C), prepend_nil.
  rewrite lex_cons, (step_hex _ _ _ _ D), prepend_nil.
  now rewrite (hex4_value n H).
Qed.

Lemma parse_escape_document (n : Z) :
  0 <= n < 65536 ->
  parse (escape_document n)
  = Some (JArr [JObj [(Narrow "id", JStr (unit_str n))]]).
Proof.
  intros H. unfold parse, escape_document.
  change ("[{" ++ ?x)%string with (String "[" (String "{" x)).
  rewrite lex_lbrack, lex_lbrace, lex_quote.
  change (":" ++ str1 quote_char ++ ?x)%string
    with (String ":" (String quote_char x)).
  change (lex LStart (String ":" (String quote_char ?x)))
    with (prepend [TColon] (prepend [] (lex (LStr EmptyString) x))).
  rewrite prepend_nil, (lex_hex4 _ n _ H).
  change (lex (LStr ?a) (str1 quote_char ++ "}]")%string)
    with (Some [TStr a; TRBrace; TRBrack]).
  cbn [prepend app run parse_step value_start reduce obj_set].
  unfold push_unit, unit_str. destruct (n <? 256); reflexivity.
Qed.

(** A document of code units below 256 reads the same as the list of its
    code units. *)
Lemma step_unit_code (st : lex_state) (c : ascii) :
  step_unit st (Str.code c) = step st c.
Proof.
  unfold step_unit. pose proof (code_bound c) as B.
  destruct (Z.ltb_spec (Str.code c) 256) as [_|F]; [|lia].
  unfold Str.code. now rewrite Nat2Z.id, ascii_nat_embedding.
Qed.

Lemma lex_units_of (st : lex_state) (s : string) :
  lex_units st (units_of s) = lex st s.
Proof.
  revert st. induction s as [|c s IH]; intros st; [reflexivity|].
  cbn [units_of list_ascii_of_string map lex_units lex].
  rewrite step_unit_code. destruct (step st c) as [[ts st']|]; [|reflexivity].
  f_equal. apply IH.
Qed.

Lemma parse_units_of (s : string) : parse_units (units_of s) = parse s.
Proof. unfold parse_units, parse. now rewrite lex_units_of. Qed.

End EscapeFacts.

(** C3.  For every document, of code units below 256 or of any code units:
    when the document is not JSON, or is JSON whose top-level value is no
    array, [doImport] leaves the collection and the selection as they are
    and raises the alert.  When the top-level value is an array, that
    array becomes the collection as it is, whatever its entries are; the
    selection becomes the [id] of its first entry ([null] when that entry
    has none), or [null] when the array is empty; no alert is raised.  In
    particular, of the documents [JSON.stringify] writes for values without
    Numbers, the arrays are imported and the others are refused; and an
    array whose entry has its [id] written as an escape [\uXXXX] is
    imported for every code unit, with that unit as the [id] selected. *)
Theorem doImport_spec (text : str) (st : Store) :
  ((parse_str text = None \/ exists v, parse_str text = Some v /\ ~ is_array v) ->
     stored (doImport text st) = stored st
     /\ selected (doImport text st) = selected st
     /\ alerts (doImport text st) = alerts st ++ ["Import failed"])
  /\ (forall data, parse_str text = Some (JArr data) ->
        stored (doImport text st) = JArr data
        /\ selected (doImport text st)
           = match data with [] => JNull | first :: _ => id_of first end
        /\ alerts (doImport text st) = alerts st)
  /\ (forall v, Plain v -> text = stringify v ->
        (~ is_array v ->
           stored (doImport text st) = stored st
           /\ selected (doImport text st) = selected st
           /\ alerts (doImport text st) = alerts st ++ ["Import failed"])
        /\ (is_array v ->
             stored (doImport text st) = v /\ alerts (doImport text st) = alerts st))
  /\ (forall n, 0 <= n < 65536 -> text = escape_document n ->
        stored (doImport text st) = JArr [JObj [(Narrow "id", JStr (unit_str n))]]
        /\ selected (doImport text st) = JStr (unit_str n)
        /\ alerts (doImport text st) = alerts st).
Proof.
  assert (Bad : (parse_str text = None \/ exists v, parse_str text = Some v /\ ~ is_array v) ->
     stored (doImport text st) = stored st
     /\ selected (doImport text st) = selected st
     /\ alerts (doImport text st) = alerts st ++ ["Import failed"]).
  { unfold doImport. intros [-> | (v & -> & N)]; [auto|].
    destruct v; auto. exfalso. apply N. now eexists. }
  assert (Good : forall data, parse_str text = Some (JArr data) ->
        stored (doImport text st) = JArr data
        /\ selected (doImport text st)
           = match data with [] => JNull | first :: _ => id_of first end
        /\ alerts (doImport text st) = alerts st).
  { unfold doImport. intros data ->. cbn. rewrite first_id_spec. auto. }
  split; [exact Bad | split; [exact Good | split]].
  - intros v HP ->. pose proof (parse_stringify v HP) as E. split.
    + intros N. apply Bad. right. now exists v.
    + intros [data ->]. destruct (Good data E) as (A & _ & C). auto.
  - intros n Hn ->. exact (Good _ (parse_escape_document n Hn)).
Qed.

Lemma Store_eta (s : Store) : s = mkStore (stored s) (selected s) (alerts s).
Proof. now destruct s. Qed.

Lemma doImport_spec_witness :
  doImport object_document (Store_of demo_state)
  = mkStore (Collection_to_json (versions demo_state)) (JStr "b")
            ["Import failed"]
  /\ doImport "[1, 2" (Store_of demo_state)
     = mkStore (Collection_to_json (versions demo_state)) (JStr "b")
               ["Import failed"]
  /\ doImport array_document (mkStore JNull JNull [])
     = mkStore (Collection_to_json [demo_other]) (JStr "b") []
  /\ doImport (escape_document 256) (Store_of demo_state)
     = mkStore (JArr [JObj [(Narrow "id", JStr (Wide [256]))]])
               (JStr (Wide [256])) []
  /\ doImport wide_document (Store_of demo_state)
     = mkStore (JArr [JStr (Wide [256])]) JNull []
  /\ doImport "null" (Store_of demo_state)
     = mkStore (Collection_to_json (versions demo_state)) (JStr "b")
               ["Import failed"]
  /\ stored (doImport array_document (Store_of demo_state))
     = Collection_to_json [demo_other].
Proof.
  destruct (doImport_spec object_document (Store_of demo_state))
    as (_ & _ & H1 & _).
  destruct (doImport_spec "[1, 2" (Store_of demo_state)) as (H2 & _ & _).
  destruct (doImport_spec array_document (mkStore JNull JNull []))
    as (_ & H3 & _).
  destruct (doImport_spec (escape_document 256) (Store_of demo_state))
    as (_ & _ & _ & H4).
  destruct (doImport_spec wide_document (Store_of demo_state))
    as (_ & H5 & _).
  destruct (doImport_spec "null" (Store_of demo_state)) as (H6 & _ & _).
  destruct (doImport_spec array_document (Store_of demo_state))
    as (_ & _ & H7 & _).
  split; [|split; [|split; [|split; [|split; [|split]]]]].
  - destruct (H1 (Version_to_json demo_other) (Plain_Version demo_other) eq_refl)
      as [N _].
    destruct N as (A & B & C).
    + intros [data E]. discriminate E.
    + rewrite (Store_eta (doImport _ _)), A, B, C. reflexivity.
  - destruct H2 as (A & B & C).
    + left. vm_compute. reflexivity.
    + rewrite (Store_eta (doImport _ _)), A, B, C. reflexivity.
  - destruct (H3 [Version_to_json demo_other]) as (A & B & C).
    + vm_compute. reflexivity.
    + rewrite (Store_eta (doImport _ _)), A, B, C. reflexivity.
  - destruct (H4 256) as (A & B & C); [lia | reflexivity |].
    rewrite (Store_eta (doImport _ _)), A, B, C. reflexivity.
  - destruct (H5 [JStr (Wide [256])]) as (A & B & C).
    + vm_compute. reflexivity.
    + rewrite (Store_eta (doImport _ _)), A, B, C. reflexivity.
  - destruct H6 as (A & B & C).
    + right. exists JNull. split; [reflexivity|].
      intros [data E]. discriminate E.
    + rewrite (Store_eta (doImport _ _)), A, B, C. reflexivity.
  - destruct (H7 (Collection_to_json [demo_other])
                 (Plain_Collection [demo_other]) eq_refl) as [_ Y].
    apply Y. now eexists.
Defined.



(** C4, on the demo state. *)
Example export_import_demo :
  doImport (doExport (Store_of demo_state)) (mkStore JNull JNull [])
  = mkStore (Collection_to_json (versions demo_state)) (JStr "b") [].
Proof. vm_compute. reflexivity. Qed.

(* ===================================================================== *)
(** ** Labels that are bumped again *)
(* ===================================================================== *)

Section DecimalFacts.

Import DecimalPos.Unsigned.

Lemma digits_value_uint (d : Decimal.uint) (acc : Z) :
  Str.digits_value_from acc (NilEmpty.string_of_uint d)
  = acc * 10 ^ Z.of_N (usize d) + Z.of_N (of_lu (Decimal.rev d)).
Proof.
  revert acc.
  induction d; intro acc;
    [ simpl; lia | .. ];
    cbn [NilEmpty.string_of_uint Str.digits_value_from]; rewrite IHd;
    unfold Decimal.rev; cbn [Decimal.revapp];
    rewrite (of_lu_revapp d (_ Decimal.Nil)); cbn [of_lu usize];
    rewrite N2Z.inj_succ, Z.pow_succ_r by lia;
    rewrite N2Z.inj_add, N2Z.inj_mul, N2Z.inj_pow;
    unfold Decimal.rev; vm_compute Str.code at 1; simpl Z.of_N; ring.
Qed.

Lemma all_digits_uint (d : Decimal.uint) :
  Str.all_digits (NilEmpty.string_of_uint d) = true.
Proof. induction d; simpl; auto. Qed.

Lemma to_uint_nonnil (n : N) : N.to_uint n <> Decimal.Nil.
Proof.
  destruct n; [discriminate | apply DecimalPos.Unsigned.to_uint_nonnil].
Qed.

Lemma decimal_uint (n : Z) :
  Str.decimal n = NilEmpty.string_of_uint (N.to_uint (Z.to_N n)).
Proof.
  unfold Str.decimal, NilZero.string_of_uint.
  pose proof (to_uint_nonnil (Z.to_N n)) as H.
  destruct (N.to_uint (Z.to_N n)); [contradiction | reflexivity ..].
Qed.

(** The decimal digits of a natural number are digits, and denote it. *)
Lemma decimal_digits (n : Z) : digits (Str.decimal n).
Proof.
  rewrite decimal_uint. split; [|apply all_digits_uint].
  pose proof (to_uint_nonnil (Z.to_N n)) as H.
  destruct (N.to_uint (Z.to_N n)); [contradiction | discriminate ..].
Qed.

Lemma decimal_value (n : Z) : 0 <= n -> Str.digits_value (Str.decimal n) = n.
Proof.
  intros H. rewrite decimal_uint. unfold Str.digits_value.
  rewrite digits_value_uint, <- of_uint_alt.
  change (Pos.of_uint (N.to_uint (Z.to_N n))) with (N.of_uint (N.to_uint (Z.to_N n))).
  rewrite DecimalN.Unsigned.of_to. lia.
Qed.

Lemma digits_value_from_nonneg (d : string) (acc : Z) :
  Str.all_digits d = true -> 0 <= acc -> 0 <= Str.digits_value_from acc d.
Proof.
  revert acc.
  induction d as [|c r IH]; intros acc H Hacc;
    cbn [Str.all_digits Str.digits_value_from] in *; [lia|].
  apply andb_true_iff in H as [Hc Hr]. apply IH; [assumption|].
  unfold Str.is_digit in Hc. apply andb_true_iff in Hc as [Hlo _].
  apply Z.leb_le in Hlo. lia.
Qed.

End DecimalFacts.

Section Reparse.

Lemma digit_not_ws (c : ascii) : Str.is_digit c = true -> Str.is_ws c = false.
Proof.
  unfold Str.is_digit, Str.is_ws. intros H.
  apply andb_true_iff in H as [Hlo Hhi].
  apply Z.leb_le in Hlo, Hhi.
  repeat (apply orb_false_iff; split); apply Z.eqb_neq; lia.
Qed.

Lemma trimEnd_digits (d : string) :
  Str.all_digits d = true -> Str.trimEnd d = d.
Proof.
  induction d as [|c r IH]; intros H; simpl in *; [reflexivity|].
  apply andb_true_iff in H as [Hc Hr].
  now rewrite (digit_not_ws c Hc), (IH Hr).
Qed.

Lemma trimEnd_digits_app (d r : string) :
  Str.all_digits d = true -> r <> EmptyString -> Str.trimEnd r = r ->
  Str.trimEnd (d ++ r) = (d ++ r)%string.
Proof.
  intros H Hr E. induction d as [|c d IH]; simpl in *; [assumption|].
  apply andb_true_iff in H as [Hc Hd].
  now rewrite (digit_not_ws c Hc), (IH Hd).
Qed.

Lemma trimEnd_dot (r : string) :
  Str.trimEnd r = r -> Str.trimEnd ("." ++ r) = ("." ++ r)%string.
Proof. intros E. simpl. now rewrite E. Qed.

Lemma trim_format (M m p : Z) : Str.trim (format M m p) = format M m p.
Proof.
  destruct (decimal_digits M) as [_ HM], (decimal_digits m) as [_ Hm],
           (decimal_digits p) as [_ Hp].
  unfold Str.trim, format.
  change (Str.trimStart ("v" ++ ?x)) with ("v" ++ x)%string.
  cbn [append Str.trimEnd]. change (Str.is_ws "v") with false. cbn [andb].
  f_equal.
  apply trimEnd_digits_app; [assumption | discriminate |].
  apply trimEnd_dot.
  apply trimEnd_digits_app; [assumption | discriminate |].
  apply trimEnd_dot. now apply trimEnd_digits.
Qed.

(** The label the code formats reads as the version it was made of. *)
Lemma SemverLabel_format (M m p : Z) :
  0 <= M -> 0 <= m -> 0 <= p -> SemverLabel (format M m p) M m p.
Proof.
  intros HM Hm Hp.
  exists "v", (Str.decimal M), (Str.decimal m), (Str.decimal p).
  rewrite trim_format, !decimal_value by assumption.
  repeat split; auto using decimal_digits; apply decimal_digits.
Qed.

Lemma SemverLabel_nonneg (label : string) (M m p : Z) :
  SemverLabel label M m p -> 0 <= M /\ 0 <= m /\ 0 <= p.
Proof.
  intros (pre & d1 & d2 & d3 & _ & _ & [_ D1] & [_ D2] & [_ D3] & -> & -> & ->).
  repeat split; apply digits_value_from_nonneg; auto; lia.
Qed.

Lemma Baseline_nonneg (label : string) (M m p : Z) :
  Baseline label M m p -> 0 <= M /\ 0 <= m /\ 0 <= p.
Proof.
  intros [H | (_ & -> & -> & ->)]; [eapply SemverLabel_nonneg; eassumption | lia].
Qed.

Lemma next_within (kind : string) (t : Z * Z * Z) (n : Z) :
  0 <= n -> within n t -> within (n + 1) (next kind t).
Proof.
  destruct t as [[M m] p]. unfold within, next. intros Hn (HM & Hm & Hp).
  destruct (String.eqb kind "major"); [lia|].
  destruct (String.eqb kind "minor"); lia.
Qed.

Lemma next_nonneg (kind : string) (M m p : Z) :
  0 <= M -> 0 <= m -> 0 <= p ->
  let '(M', m', p') := next kind (M, m, p) in 0 <= M' /\ 0 <= m' /\ 0 <= p'.
Proof.
  intros HM Hm Hp. unfold next.
  destruct (String.eqb kind "major"); [lia|].
  destruct (String.eqb kind "minor"); lia.
Qed.

(** One bump, on the version the label reads as. *)
Lemma bumpSemver_next (label kind : string) (M m p : Z) :
  Baseline label M m p -> within MAX_SAFE_INTEGER (M, m, p) ->
  bumpSemver label kind = format3 (next kind (M, m, p)).
Proof.
  intros HB (HM & Hm & Hp).
  assert (HP : (match parseSemver label with
                | Some v => v
                | None => {| maj := Fin 0; min := Fin 0; pat := Fin 0 |}
                end) = {| maj := Fin M; min := Fin m; pat := Fin p |}).
  { destruct HB as [HL | (HU & -> & -> & ->)].
    - destruct (parseSemver_label _ _ _ _ HL) as (d1 & d2 & d3 & -> & -> & -> & ->).
      now rewrite !ofDigits_safe.
    - now rewrite (parseSemver_none _ HU). }
  unfold bumpSemver, next, format3, format. rewrite HP. cbn [maj min pat].
  rewrite !toString_succ_safe, !toString_safe by assumption.
  destruct (String.eqb kind "major"); [reflexivity|].
  destruct (String.eqb kind "minor"); reflexivity.
Qed.

Lemma Baseline_next (kind : string) (M m p : Z) :
  0 <= M -> 0 <= m -> 0 <= p ->
  let '(M', m', p') := next kind (M, m, p) in
  Baseline (format3 (next kind (M, m, p))) M' m' p'.
Proof.
  intros HM Hm Hp. pose proof (next_nonneg kind M m p HM Hm Hp) as H.
  destruct (next kind (M, m, p)) as [[M' m'] p']. destruct H as (A & B & C).
  left. now apply SemverLabel_format.
Qed.

End Reparse.

(** X1.  Bumps compose.  A label bumped once for each kind of a list gives
    the label of the version that the same bumps, done on the numbers, lead
    to from the version the label reads as (0.0.0 when it reads as none),
    as long as the components stay within [Number.MAX_SAFE_INTEGER]: what
    [bumpSemver] returns is a label [parseSemver] reads back. *)
Theorem bumps_spec (kinds : list string) (label : string) (M m p : Z) :
  Baseline label M m p ->
  within (MAX_SAFE_INTEGER - Z.of_nat (List.length kinds)) (M, m, p) ->
  bumps kinds label
  = match kinds with
    | [] => label
    | _ :: _ => format3 (fold_left (fun t k => next k t) kinds (M, m, p))
    end.
Proof.
  revert label M m p.
  induction kinds as [|k ks IH]; intros label M m p HB HW; [reflexivity|].
  unfold bumps in *. cbn [fold_left].
  destruct (Baseline_nonneg _ _ _ _ HB) as (HM & Hm & Hp).
  assert (HW0 : within MAX_SAFE_INTEGER (M, m, p)).
  { destruct HW as (A & B & C). repeat split; lia. }
  rewrite (bumpSemver_next label k M m p HB HW0).
  pose proof (Baseline_next k M m p HM Hm Hp) as HB'.
  assert (HW' : within (MAX_SAFE_INTEGER - Z.of_nat (List.length ks))
                       (next k (M, m, p))).
  { replace (MAX_SAFE_INTEGER - Z.of_nat (List.length ks))
      with (MAX_SAFE_INTEGER - Z.of_nat (List.length (k :: ks)) + 1)
      by (cbn [List.length]; lia).
    apply next_within; [|exact HW].
    destruct HW as (A & _). lia. }
  destruct (next k (M, m, p)) as [[M' m'] p'] eqn:E.
  rewrite (IH _ M' m' p' HB' HW').
  destruct ks; reflexivity.
Qed.

Lemma bumps_spec_witness :
  Baseline " 1.9.9 " 1 9 9
  /\ bumps ["patch"; "minor"; "major"; "patch"] " 1.9.9 " = "v2.0.1".
Proof.
  assert (B : Baseline " 1.9.9 " 1 9 9).
  { left. exists "", "1", "9", "9". vm_compute.
    repeat split; auto; discriminate. }
  split; [exact B|].
  rewrite (bumps_spec ["patch"; "minor"; "major"; "patch"] " 1.9.9 " 1 9 9 B).
  - vm_compute. reflexivity.
  - vm_compute. repeat split; discriminate.
Defined.

(* ===================================================================== *)
(** ** addVersion, again and again *)
(* ===================================================================== *)

Section AddVersionFacts.

Lemma not_SemverLabel_empty (M m p : Z) : ~ SemverLabel EmptyString M m p.
Proof.
  intros (pre & d1 & d2 & d3 & Ht & Hpre & [D1 _] & _).
  change (Str.trim EmptyString) with EmptyString in Ht.
  destruct Hpre as [-> | ->]; [|discriminate].
  destruct d1; [contradiction | discriminate].
Qed.

(** [latest?.label || "v0.0.0"] reads as the version the label reads as. *)
Lemma Baseline_base (c : Collection) (M m p : Z) :
  Baseline (latest_label c) M m p ->
  Baseline (match c with
            | latest :: _ => or_else (Version.label latest) "v0.0.0"
            | [] => "v0.0.0"
            end) M m p.
Proof.
  assert (Z0 : forall M m p, Baseline EmptyString M m p ->
                             Baseline "v0.0.0" M m p).
  { intros M0 m0 p0 [H | (_ & -> & -> & ->)].
    - now apply not_SemverLabel_empty in H.
    - left. apply (SemverLabel_format 0 0 0); lia. }
  destruct c as [|v c]; cbn [latest_label]; [apply Z0|].
  unfold or_else. destruct (Version.label v); [apply Z0 | auto].
Qed.

Lemma added_snoc (id now : nat -> string) (u c : nat) (M m : Z) (k : nat) :
  (added id now (S u) (S c) M (m + 1) k
   ++ [Version.mk (id u) (format M (m + 1) 0) (now c) "" "" [] []])%list
  = added id now u c M m (S k).
Proof.
  induction k as [|k IH].
  - cbn [added app]. now rewrite !Nat.add_0_r.
  - change (added id now (S u) (S c) M (m + 1) (S k))
      with (Version.mk (id (S u + k)%nat) (format M (m + 1 + Z.of_nat (S k)) 0)
                       (now (S c + k)%nat) "" "" [] []
            :: added id now (S u) (S c) M (m + 1) k).
    rewrite <- app_comm_cons, IH.
    change (added id now u c M m (S (S k)))
      with (Version.mk (id (u + S k)%nat) (format M (m + Z.of_nat (S (S k))) 0)
                       (now (c + S k)%nat) "" "" [] []
            :: added id now u c M m (S k)).
    replace (S u + k)%nat with (u + S k)%nat by lia.
    replace (S c + k)%nat with (c + S k)%nat by lia.
    replace (m + 1 + Z.of_nat (S k)) with (m + Z.of_nat (S (S k))) by lia.
    reflexivity.
Qed.

Lemma addVersion_run (st : AppState) (w : World) (M m p : Z) :
  Baseline (latest_label (versions st)) M m p ->
  within MAX_SAFE_INTEGER (M, m, p) ->
  addVersion st w
  = (mkApp (Version.mk (uuids w (uuid_calls w)) (format M (m + 1) 0)
                       (clock w (clock_calls w)) "" "" [] []
            :: versions st)
           (Some (uuids w (uuid_calls w))),
     advance 1 1 w).
Proof.
  intros HB HW. apply Baseline_base in HB.
  unfold addVersion. rewrite (bumpSemver_next _ "minor" M m p HB HW).
  unfold advance. now rewrite !Nat.add_1_r.
Qed.

End AddVersionFacts.

(** X2.  New versions count the minor up.  When the label of the first
    version reads as [M.m.p] (0.0.0 for an empty collection and for a label
    that reads as no version), [k] calls of [addVersion] put [k] versions in
    front of the collection, the newest first, labelled [vM.(m+k).0] down
    to [vM.(m+1).0], each with a new id and the date of its creation and
    nothing else; the newest is selected.  The components stay within
    [Number.MAX_SAFE_INTEGER]. *)
Theorem addVersions_spec (k : nat) (st : AppState) (w : World) (M m p : Z) :
  Baseline (latest_label (versions st)) M m p ->
  M <= MAX_SAFE_INTEGER -> m + Z.of_nat k <= MAX_SAFE_INTEGER ->
  p <= MAX_SAFE_INTEGER ->
  addVersions k st w
  = (mkApp (added (uuids w) (clock w) (uuid_calls w) (clock_calls w) M m k
            ++ versions st)
           (match k with
            | O => selectedId st
            | S k' => Some (uuids w (uuid_calls w + k')%nat)
            end),
     advance k k w).
Proof.
  revert st w m p.
  induction k as [|k IH]; intros st w m p HB HM Hm Hp.
  - cbn [addVersions added app]. rewrite advance_0. now destruct st.
  - destruct (Baseline_nonneg _ _ _ _ HB) as (HM0 & Hm0 & Hp0).
    cbn [addVersions]. unfold bind at 1.
    rewrite (addVersion_run st w M m p HB) by (repeat split; lia).
    rewrite (IH _ _ (m + 1) 0); cbn [versions latest_label Version.label];
      [| left; apply SemverLabel_format; lia | lia | lia
       | unfold MAX_SAFE_INTEGER; lia].
    cbn [advance uuids clock uuid_calls clock_calls selectedId].
    rewrite !Nat.add_1_r.
    f_equal; [f_equal|].
    + rewrite <- added_snoc, <- app_assoc. reflexivity.
    + destruct k; [now rewrite Nat.add_0_r | f_equal; f_equal; lia].
    + unfold advance. cbn [uuids clock uuid_calls clock_calls].
      f_equal; lia.
Qed.

Lemma addVersions_spec_witness :
  Baseline (latest_label (versions demo_state)) 0 2 0
  /\ map Version.label (versions (fst (addVersions 2 demo_state demo_world)))
     = ["v0.4.0"; "v0.3.0"; "v0.2.0"; "v0.1.0"]%string.
Proof.
  assert (B : Baseline (latest_label (versions demo_state)) 0 2 0).
  { left. exists "v", "0", "2", "0". vm_compute.
    repeat split; auto; discriminate. }
  split; [exact B|].
  rewrite (addVersions_spec 2 demo_state demo_world 0 2 0 B);
    vm_compute; [reflexivity | discriminate ..].
Defined.

(* ===================================================================== *)
(** ** The count of open bugs and the feed *)
(* ===================================================================== *)

Local Open Scope nat_scope.

Section CountFacts.

Lemma target_split (c : Collection) (vid : string) (v : Version.t) :
  NoDup (ids c) -> findVersion vid c = Some v ->
  exists pre post,
    c = pre ++ v :: post /\ Version.id v = vid
    /\ ~ In vid (ids pre) /\ ~ In vid (ids post).
Proof.
  intros ND HF.
  destruct (findVersion_Some _ _ _ HF) as (pre & post & -> & Hid & Hpre).
  exists pre, post. destruct (NoDup_ids_split _ _ _ ND) as [_ Hpost].
  rewrite Hid in Hpost. auto.
Qed.

Lemma updateVersion_target (st : AppState) (vid : string)
    (pre post : Collection) (v : Version.t) (p : Version.patch) :
  versions st = pre ++ v :: post -> Version.id v = vid ->
  ~ In vid (ids pre) -> ~ In vid (ids post) ->
  updateVersion vid p st
  = mkApp (pre ++ Version.merge v p :: post) (selectedId st).
Proof.
  intros E Hid Hpre Hpost. unfold updateVersion, setVersions.
  rewrite E, (map_target vid (fun v => Version.merge v p)) by assumption.
  now rewrite map_missing.
Qed.

Lemma fold_left_sum {A : Type} (f : A -> nat) (l : list A) (n : nat) :
  fold_left (fun a x => a + f x) l n = n + list_sum (map f l).
Proof.
  revert n. induction l as [|x l IH]; intro n; simpl.
  - lia.
  - rewrite IH. lia.
Qed.

Lemma openBugs_sum (c : Collection) : openBugs c = list_sum (map openCount c).
Proof. unfold openBugs. now rewrite (fold_left_sum openCount). Qed.

Lemma openBugs_app (a b : Collection) :
  openBugs (a ++ b) = openBugs a + openBugs b.
Proof. now rewrite !openBugs_sum, map_app, list_sum_app. Qed.

Lemma openBugs_cons (v : Version.t) (c : Collection) :
  openBugs (v :: c) = openCount v + openBugs c.
Proof. now rewrite !openBugs_sum. Qed.

Lemma openBugs_target (pre post : Collection) (v : Version.t) :
  openBugs (pre ++ v :: post) = openBugs pre + openCount v + openBugs post.
Proof. rewrite openBugs_app, openBugs_cons. lia. Qed.

Lemma allBugs_app (a b : Collection) : allBugs (a ++ b) = allBugs a ++ allBugs b.
Proof. unfold allBugs. apply flat_map_app. Qed.

Lemma allBugs_cons (v : Version.t) (c : Collection) :
  allBugs (v :: c)
  = map (fun b => mkFeed b (Version.id v) (Version.label v)) (Version.bugs v)
    ++ allBugs c.
Proof. reflexivity. Qed.

Lemma length_filter_feed (f : Bug.t -> bool) (i l : string) (bs : list Bug.t) :
  filter (fun fb => f (bug fb)) (map (fun b => mkFeed b i l) bs)
  = map (fun b => mkFeed b i l) (filter f bs).
Proof.
  induction bs as [|b bs IH]; cbn [map filter bug]; [reflexivity|].
  destruct (f b); cbn [map]; now rewrite IH.
Qed.

Lemma open_feed_length (c : Collection) :
  List.length (filter (fun fb => isOpen (bug fb)) (allBugs c)) = openBugs c.
Proof.
  induction c as [|v c IH]; [reflexivity|].
  rewrite allBugs_cons, filter_app, length_app, IH, openBugs_cons.
  now rewrite length_filter_feed, length_map.
Qed.

Lemma closed_isOpen (b : Bug.t) : closed b = negb (isOpen b).
Proof.
  unfold closed, isOpen.
  now destruct (String.eqb (Bug.status b) "resolved"),
               (String.eqb (Bug.status b) "closed").
Qed.

Lemma copied_bugs_open f g u k l :
  filter isOpen (copied_bugs f g u k l) = copied_bugs f g u k l.
Proof.
  revert u k. induction l as [|b l IH]; intros u k; [reflexivity|].
  cbn [copied_bugs filter]. change (isOpen (Bug.mk _ _ _ _ "open" _ _ _)) with true.
  cbv iota. now rewrite IH.
Qed.

End CountFacts.

(** X3.  The number behind "Open bugs:" is the sum of the counts of open
    bugs shown beside the versions, and it is the number of entries of the
    feed as it first shows: open bugs only, every severity, no query. *)
Theorem openBugs_feed (Date_value : string -> option Z) (c : Collection) :
  openBugs c = list_sum (map openCount c)
  /\ openBugs c
     = List.length (visibleGlobalBugs Date_value c EmptyString "all" true).
Proof.
  split; [apply openBugs_sum|].
  unfold visibleGlobalBugs.
  rewrite (Permutation_length (sort_perm _ _)), <- open_feed_length.
  f_equal. apply filter_ext. intros fb.
  unfold passOpen, passSeverity, passQuery.
  change (Str.toLowerCase (Str.trim EmptyString)) with EmptyString.
  cbn [String.eqb orb]. change (String.eqb "all" "all") with true.
  cbn [orb]. now rewrite !andb_true_r.
Qed.

(** X4.  A duplicate reopens every bug it copies: [duplicateVersion] of a
    version of the collection raises the count of open bugs by the number
    of bugs of that version, whatever their status. *)
Theorem duplicateVersion_openBugs (st : AppState) (w : World) (id : string)
    (v : Version.t) :
  findVersion id (versions st) = Some v ->
  openBugs (versions (fst (duplicateVersion id st w)))
  = openBugs (versions st) + List.length (Version.bugs v).
Proof.
  intros HF. rewrite (duplicateVersion_found id st w v HF).
  cbn [fst versions]. rewrite openBugs_cons. unfold openCount.
  cbn [Version.bugs]. rewrite copied_bugs_open, copied_bugs_length. lia.
Qed.

Lemma duplicateVersion_openBugs_witness :
  findVersion "a" (versions demo_state) = Some demo_version
  /\ openBugs (versions demo_state) = 0
  /\ openBugs (versions (fst (duplicateVersion "a" demo_state demo_world))) = 1.
Proof.
  split; [reflexivity|]. split; [reflexivity|].
  now rewrite (duplicateVersion_openBugs demo_state demo_world "a" demo_version).
Defined.

(** X5.  Deleting a version of a collection with distinct version ids
    lowers the count of open bugs by the number of open bugs of that
    version, the number shown beside it in the list. *)
Theorem deleteVersion_openBugs (st : AppState) (id : string) (v : Version.t) :
  NoDup (ids (versions st)) ->
  findVersion id (versions st) = Some v ->
  openBugs (versions (deleteVersion id st)) + openCount v
  = openBugs (versions st).
Proof.
  intros ND HF.
  destruct (target_split _ _ _ ND HF) as (pre & post & E & Hid & Hpre & Hpost).
  rewrite deleteVersion_versions, E, filter_app. cbn [filter].
  rewrite Hid, String.eqb_refl. cbn [negb].
  rewrite !filter_all by (now apply negb_eqb_missing).
  rewrite openBugs_app, openBugs_target. lia.
Qed.

Lemma deleteVersion_openBugs_witness :
  openBugs (versions (deleteVersion "v2" feed_state)) + 2 = 3.
Proof.
  apply (deleteVersion_openBugs feed_state "v2" (nth 0 feed_collection demo_other)).
  - repeat constructor; simpl; intuition discriminate.
  - reflexivity.
Defined.

Section FeedButtonFacts.

Lemma findVersion_In (c : Collection) (v : Version.t) :
  NoDup (ids c) -> In v c -> findVersion (Version.id v) c = Some v.
Proof.
  intros ND HI. destruct (in_split _ _ HI) as (pre & post & ->).
  destruct (NoDup_ids_split _ _ _ ND) as [Hpre _].
  now apply findVersion_first.
Qed.

Lemma NoDup_bug_ids_split (bpre bpost : list Bug.t) (b : Bug.t) :
  NoDup (map Bug.id (bpre ++ b :: bpost)) ->
  ~ In (Bug.id b) (map Bug.id bpre) /\ ~ In (Bug.id b) (map Bug.id bpost).
Proof.
  rewrite map_app. cbn [map]. intros ND. apply NoDup_remove_2 in ND.
  rewrite in_app_iff in ND. tauto.
Qed.

(** The entries of a version with another id are entries of another
    version. *)
Lemma entry_of_other (c : Collection) (vid bid : string) (fb : FeedBug) :
  ~ In vid (ids c) -> In fb (allBugs c) -> entry_of vid bid fb = false.
Proof.
  intros HN HI. apply allBugs_In in HI as (v & Hv & _ & Hid & _).
  unfold entry_of. destruct (String.eqb_spec (versionId fb) vid) as [E|E];
    [|reflexivity].
  exfalso. apply HN. rewrite <- E, Hid. now apply in_map.
Qed.

Lemma openCount_with_bugs (l : list Bug.t) (v : Version.t) :
  openCount (with_bugs l v) = List.length (filter isOpen l).
Proof. reflexivity. Qed.

(** What the Resolve button of the feed does to the state. *)
Lemma feedResolve_run (fb : FeedBug) (st : AppState) (w : World) :
  NoDup (ids (versions st)) ->
  In fb (allBugs (versions st)) ->
  closed (bug fb) = false ->
  (forall v, In v (versions st) -> Version.id v = versionId fb ->
             NoDup (map Bug.id (Version.bugs v))) ->
  exists pre post v bpre bpost,
    versions st = pre ++ v :: post
    /\ Version.id v = versionId fb
    /\ ~ In (versionId fb) (ids pre) /\ ~ In (versionId fb) (ids post)
    /\ Version.bugs v = bpre ++ bug fb :: bpost
    /\ ~ In (Bug.id (bug fb)) (map Bug.id bpre)
    /\ ~ In (Bug.id (bug fb)) (map Bug.id bpost)
    /\ feedResolve fb st w
       = (mkApp (pre ++ with_bugs
                          (bpre ++ Bug.with_updatedAt
                                     (clock w (clock_calls w))
                                     (Bug.merge (bug fb) patch_resolved)
                                :: bpost) v
                     :: post)
                (Some (versionId fb)),
          advance 0 1 w).
Proof.
  intros ND HI HC HB.
  apply allBugs_In in HI as (v & Hv & Hb & Hid & _).
  pose proof (findVersion_In _ _ ND Hv) as HF. rewrite <- Hid in HF.
  destruct (target_split _ _ _ ND HF) as (pre & post & E & _ & Hpre & Hpost).
  destruct (in_split _ _ Hb) as (bpre & bpost & Eb).
  pose proof (HB v Hv (eq_sym Hid)) as NDb. rewrite Eb in NDb.
  destruct (NoDup_bug_ids_split _ _ _ NDb) as [Hbpre Hbpost].
  exists pre, post, v, bpre, bpost.
  repeat (split; [first [assumption | now symmetry]|]).
  unfold feedResolve. rewrite HC. unfold updateBug.
  cbn [setSelectedId versions]. rewrite HF, Eb.
  erewrite bind_run by (apply stamp_target; [reflexivity | assumption ..]).
  unfold ret. f_equal.
  rewrite (updateVersion_target _ (versionId fb) pre post v)
    by (cbn [versions]; auto).
  now rewrite merge_bugs.
Qed.

End FeedButtonFacts.

(** X6.  Resolve in the feed.  For an entry of the feed that is not closed,
    in a collection with distinct version ids whose version has distinct
    bug ids, the Resolve button selects the version of the bug, lowers the
    count of open bugs by one, and takes the bug out of every feed of open
    bugs, whatever the query and the severity. *)
Theorem feedResolve_spec (Date_value : string -> option Z) (fb : FeedBug)
    (st : AppState) (w : World) :
  NoDup (ids (versions st)) ->
  In fb (allBugs (versions st)) ->
  closed (bug fb) = false ->
  (forall v, In v (versions st) -> Version.id v = versionId fb ->
             NoDup (map Bug.id (Version.bugs v))) ->
  let st' := fst (feedResolve fb st w) in
  selectedId st' = Some (versionId fb)
  /\ openBugs (versions st') + 1 = openBugs (versions st)
  /\ forall query severity fb',
       In fb' (visibleGlobalBugs Date_value (versions st') query severity true) ->
       entry_of (versionId fb) (Bug.id (bug fb)) fb' = false.
Proof.
  intros ND HI HC HB st'.
  destruct (feedResolve_run fb st w ND HI HC HB)
    as (pre & post & v & bpre & bpost & E & Hid & Hpre & Hpost & Eb
        & Hbpre & Hbpost & R).
  subst st'. rewrite R. cbn [fst selectedId versions].
  split; [reflexivity|]. split.
  - rewrite E, !openBugs_target, openCount_with_bugs. unfold openCount.
    rewrite Eb, !filter_app, !length_app. cbn [filter].
    assert (O : isOpen (bug fb) = true).
    { rewrite closed_isOpen in HC. now destruct (isOpen (bug fb)). }
    rewrite O.
    change (isOpen (Bug.with_updatedAt _ (Bug.merge (bug fb) patch_resolved)))
      with false.
    cbn [List.length]. lia.
  - intros query severity fb' HV.
    apply visible_In in HV as [HA (HO & _)].
    destruct (entry_of (versionId fb) (Bug.id (bug fb)) fb') eqn:EO;
      [exfalso | reflexivity].
    apply andb_true_iff in EO as [E1 E2].
    apply String.eqb_eq in E1, E2.
    rewrite allBugs_app, allBugs_cons, !in_app_iff in HA.
    destruct HA as [HA | [HA | HA]].
    + pose proof (entry_of_other _ _ (Bug.id (bug fb)) _ Hpre HA) as X.
      unfold entry_of in X. rewrite E1, String.eqb_refl in X. cbn in X.
      rewrite E2, String.eqb_refl in X. discriminate.
    + cbn [with_bugs Version.bugs] in HA.
      apply in_map_iff in HA as (b & <- & Hb). cbn [bug] in *.
      apply in_app_iff in Hb as [Hb | [<- | Hb]].
      * apply Hbpre. rewrite <- E2. now apply in_map.
      * destruct (HO eq_refl) as [X _]. now apply X.
      * apply Hbpost. rewrite <- E2. now apply in_map.
    + pose proof (entry_of_other _ _ (Bug.id (bug fb)) _ Hpost HA) as X.
      unfold entry_of in X. rewrite E1, String.eqb_refl in X. cbn in X.
      rewrite E2, String.eqb_refl in X. discriminate.
Qed.

Lemma feedResolve_spec_witness :
  In feed_entry_open (allBugs (versions feed_state))
  /\ openBugs (versions feed_state) = 3
  /\ openBugs (versions (fst (feedResolve feed_entry_open feed_state demo_world)))
     + 1 = 3.
Proof.
  assert (HI : In feed_entry_open (allBugs (versions feed_state)))
    by (simpl; auto).
  split; [exact HI|]. split; [reflexivity|].
  destruct (feedResolve_spec Iso.value feed_entry_open feed_state demo_world)
    as (_ & B & _).
  - repeat constructor; simpl; intuition discriminate.
  - exact HI.
  - reflexivity.
  - intros v [<- | [<- | []]] _; repeat constructor; simpl; intuition discriminate.
  - exact B.
Defined.

Section FeedDeleteFacts.

Lemma filter_feed_other (c : Collection) (vid bid : string) :
  ~ In vid (ids c) ->
  filter (fun x => negb (entry_of vid bid x)) (allBugs c) = allBugs c.
Proof.
  intros HN. apply filter_all. intros x Hx.
  now rewrite (entry_of_other c vid bid x HN Hx).
Qed.

Lemma filter_feed_target (v : Version.t) (bid : string) :
  filter (fun x => negb (entry_of (Version.id v) bid x))
         (map (fun b => mkFeed b (Version.id v) (Version.label v))
              (Version.bugs v))
  = map (fun b => mkFeed b (Version.id v) (Version.label v))
        (filter (fun b => negb (String.eqb (Bug.id b) bid)) (Version.bugs v)).
Proof.
  induction (Version.bugs v) as [|b l IH]; [reflexivity|].
  cbn [map filter]. unfold entry_of at 1. cbn [versionId bug].
  rewrite String.eqb_refl. cbn [andb].
  destruct (String.eqb (Bug.id b) bid); cbn [negb map]; now rewrite IH.
Qed.

End FeedDeleteFacts.

(** X7.  Delete in the feed.  In a collection with distinct version ids,
    the Delete button of an entry of the feed selects the version of the
    bug and leaves in [allBugs] the entries it had but those of that bug of
    that version, in their order. *)
Theorem feedDelete_spec (fb : FeedBug) (st : AppState) :
  NoDup (ids (versions st)) ->
  let st' := feedDelete fb st in
  selectedId st' = Some (versionId fb)
  /\ allBugs (versions st')
     = filter (fun x => negb (entry_of (versionId fb) (Bug.id (bug fb)) x))
              (allBugs (versions st)).
Proof.
  intros ND st'. subst st'. unfold feedDelete, deleteBug.
  cbn [setSelectedId versions].
  destruct (findVersion (versionId fb) (versions st)) as [v|] eqn:HF.
  - destruct (target_split _ _ _ ND HF) as (pre & post & E & Hid & Hpre & Hpost).
    rewrite (updateVersion_target _ (versionId fb) pre post v)
      by (cbn [versions]; auto).
    cbn [selectedId versions]. split; [reflexivity|].
    rewrite merge_bugs, E, !allBugs_app, !allBugs_cons, !filter_app.
    rewrite !filter_feed_other by assumption.
    rewrite <- Hid, filter_feed_target. reflexivity.
  - cbn [selectedId versions]. split; [reflexivity|].
    apply findVersion_None in HF. now rewrite filter_feed_other.
Qed.

Lemma feedDelete_spec_witness :
  map (fun x => Bug.id (bug x))
      (allBugs (versions (feedDelete feed_entry_resolved feed_state)))
  = ["1"; "3"; "4"; "5"]%string.
Proof.
  destruct (feedDelete_spec feed_entry_resolved feed_state) as [_ E].
  - repeat constructor; simpl; intuition discriminate.
  - rewrite E. reflexivity.
Defined.

(* ===================================================================== *)
(** ** Adding, then taking out again *)
(* ===================================================================== *)

Section UndoFacts.

Lemma with_bugs_twice (l l' : list Bug.t) (v : Version.t) :
  with_bugs l (with_bugs l' v) = with_bugs l v.
Proof. reflexivity. Qed.

Lemma with_changes_twice (l l' : list Change.t) (v : Version.t) :
  with_changes l (with_changes l' v) = with_changes l v.
Proof. reflexivity. Qed.

Lemma AppState_eta (st : AppState) (c : Collection) :
  versions st = c -> mkApp c (selectedId st) = st.
Proof. intros <-. now destruct st. Qed.

Lemma filter_drop_new {A : Type} (key : A -> string) (i : string) (x : A)
    (l : list A) :
  key x = i -> ~ In i (map key l) ->
  filter (fun y => negb (String.eqb (key y) i)) (x :: l) = l.
Proof.
  intros E HN. cbn [filter]. rewrite E, String.eqb_refl. cbn [negb].
  apply filter_all. now apply negb_eqb_missing.
Qed.

End UndoFacts.

(** X8.  Add, then remove.  In a collection with distinct version ids,
    [deleteBug] with the id that [addBug] gave the new bug restores the
    state that [addBug] found, and [removeChange] does the same for
    [addChange], when that id is none of the ids the version had for its
    bugs (for its changes). *)
Theorem add_then_remove (st : AppState) (w : World) (vid : string)
    (v : Version.t) (partial : Bug.patch) (type text : string) :
  NoDup (ids (versions st)) ->
  findVersion vid (versions st) = Some v ->
  (~ In (uuids w (uuid_calls w)) (map Bug.id (Version.bugs v)) ->
   deleteBug vid (uuids w (uuid_calls w)) (fst (addBug vid partial st w)) = st)
  /\ (~ In (uuids w (uuid_calls w)) (map Change.id (Version.changes v)) ->
      removeChange vid (uuids w (uuid_calls w))
                   (fst (addChange vid type text st w)) = st).
Proof.
  intros ND HF.
  destruct (target_split _ _ _ ND HF) as (pre & post & E & Hid & Hpre & Hpost).
  split; intros HN.
  - unfold addBug. rewrite HF. unfold bind, uuid, nowISO, ret.
    cbn [fst uuids uuid_calls clock clock_calls].
    rewrite (updateVersion_target st vid pre post v) by assumption.
    rewrite merge_bugs. unfold deleteBug. cbn [versions].
    rewrite (findVersion_first vid pre post) by assumption.
    cbn [with_bugs Version.bugs].
    rewrite (filter_drop_new Bug.id) by (reflexivity || assumption).
    erewrite updateVersion_target; [| reflexivity | assumption ..].
    rewrite merge_bugs, with_bugs_twice, with_bugs_same.
    cbn [selectedId]. now apply AppState_eta.
  - unfold addChange. rewrite HF. unfold bind, uuid, ret.
    cbn [fst uuids uuid_calls clock clock_calls].
    rewrite (updateVersion_target st vid pre post v) by assumption.
    rewrite merge_changes. unfold removeChange. cbn [versions].
    rewrite (findVersion_first vid pre post) by assumption.
    cbn [with_changes Version.changes].
    rewrite (filter_drop_new Change.id) by (reflexivity || assumption).
    erewrite updateVersion_target; [| reflexivity | assumption ..].
    rewrite merge_changes, with_changes_twice, with_changes_same.
    cbn [selectedId]. now apply AppState_eta.
Qed.

Lemma add_then_remove_witness :
  deleteBug "a" "u" (fst (addBug "a" Bug.no_patch demo_state demo_world))
  = demo_state
  /\ removeChange "a" "u" (fst (addChange "a" "fix" "Brakes" demo_state demo_world))
     = demo_state.
Proof.
  destruct (add_then_remove demo_state demo_world "a" demo_version
                            Bug.no_patch "fix" "Brakes") as [A B].
  - repeat constructor; simpl; intuition discriminate.
  - reflexivity.
  - split; [apply A | apply B]; simpl; intuition discriminate.
Defined.

(** X9.  A new version, deleted at once.  [deleteVersion] with the id that
    [addVersion] or [duplicateVersion] gave the new version leaves the
    collection as it was before, and no version selected, when that id is
    the id of no version of the collection. *)
Theorem new_then_delete (st : AppState) (w : World) :
  ~ In (uuids w (uuid_calls w)) (ids (versions st)) ->
  deleteVersion (uuids w (uuid_calls w)) (fst (addVersion st w))
  = mkApp (versions st) None
  /\ forall id v,
       findVersion id (versions st) = Some v ->
       deleteVersion (uuids w (uuid_calls w)) (fst (duplicateVersion id st w))
       = mkApp (versions st) None.
Proof.
  intros HN. split.
  - unfold addVersion, bind, uuid, nowISO, ret. cbn [fst uuids uuid_calls].
    unfold deleteVersion, setSelectedId, setVersions.
    cbn [selectedId versions]. rewrite String.eqb_refl.
    cbn [versions selectedId].
    now rewrite (filter_drop_new Version.id).
  - intros id v HF. rewrite (duplicateVersion_found id st w v HF).
    cbn [fst]. unfold deleteVersion, setSelectedId, setVersions.
    cbn [selectedId versions]. rewrite String.eqb_refl.
    cbn [versions selectedId].
    now rewrite (filter_drop_new Version.id).
Qed.

Lemma new_then_delete_witness :
  deleteVersion "u" (fst (addVersion demo_state demo_world))
  = mkApp (versions demo_state) None
  /\ deleteVersion "u" (fst (duplicateVersion "a" demo_state demo_world))
     = mkApp (versions demo_state) None.
Proof.
  destruct (new_then_delete demo_state demo_world) as [A B].
  - simpl. intuition discriminate.
  - split; [exact A | exact (B "a" demo_version eq_refl)].
Defined.

(* ===================================================================== *)
(** ** The selection *)
(* ===================================================================== *)

Section SelectionFacts.

Lemma selection_same (st st' : AppState) :
  selectedId st' = selectedId st ->
  ids (versions st') = ids (versions st) ->
  selection_ok st -> selection_ok st'.
Proof. unfold selection_ok. now intros -> ->. Qed.

Lemma selection_new (i : string) (c : Collection) (v : Version.t) :
  Version.id v = i -> selection_ok (mkApp (v :: c) (Some i)).
Proof. intros <-. cbn. auto. Qed.

Lemma selection_delete (id : string) (st : AppState) :
  selection_ok st -> selection_ok (deleteVersion id st).
Proof.
  unfold selection_ok. intros H.
  pose proof (ids_delete id st) as E. unfold deleteVersion in *.
  unfold setSelectedId, setVersions in *. cbn [selectedId versions] in *.
  destruct (selectedId st) as [s|]; [|now cbn].
  destruct (String.eqb_spec s id) as [->|N]; [now cbn|].
  cbn [selectedId versions] in *. rewrite E.
  apply filter_In. split; [assumption|]. now apply eqb_neq_iff.
Qed.

Lemma selection_step (op : Op) (st : AppState) (w : World) :
  keeps_id op -> selection_ok st -> selection_ok (fst (apply_op op st w)).
Proof.
  intros K H.
  destruct op as [|id p|id|id|vid type text|vid cid|vid partial|vid bid p|vid bid];
    cbn [apply_op keeps_id] in *.
  - unfold addVersion, bind, uuid, nowISO, ret. cbn [fst].
    now apply selection_new.
  - unfold ret. cbn [fst].
    apply (selection_same st); [reflexivity | now apply ids_update | exact H].
  - unfold ret. cbn [fst]. now apply selection_delete.
  - destruct (findVersion id (versions st)) as [v|] eqn:E.
    + rewrite (duplicateVersion_found id st w v E). cbn [fst].
      now apply selection_new.
    + unfold duplicateVersion. now rewrite E.
  - unfold addChange. destruct (findVersion vid (versions st)) as [v|];
      [|exact H].
    unfold bind, uuid, ret. cbn [fst].
    apply (selection_same st); [reflexivity | now apply ids_update | exact H].
  - unfold ret, removeChange. cbn [fst].
    destruct (findVersion vid (versions st)) as [v|]; [|exact H].
    apply (selection_same st); [reflexivity | now apply ids_update | exact H].
  - unfold addBug. destruct (findVersion vid (versions st)) as [v|];
      [|exact H].
    unfold bind, uuid, nowISO, ret. cbn [fst].
    apply (selection_same st); [reflexivity | now apply ids_update | exact H].
  - unfold updateBug. destruct (findVersion vid (versions st)) as [v|];
      [|exact H].
    match goal with
    | |- context [bind ?m _ w] => destruct (m w) as [bs w'] eqn:Em
    end.
    rewrite (bind_run _ _ _ _ _ Em). unfold ret. cbn [fst].
    apply (selection_same st); [reflexivity | now apply ids_update | exact H].
  - unfold ret, deleteBug. cbn [fst].
    destruct (findVersion vid (versions st)) as [v|]; [|exact H].
    apply (selection_same st); [reflexivity | now apply ids_update | exact H].
Qed.

Lemma selection_found (st : AppState) (i : string) :
  selection_ok st -> selectedId st = Some i ->
  exists v, selectedVersion st = Some v /\ Version.id v = i.
Proof.
  unfold selection_ok, selectedVersion. intros H E. rewrite E in *.
  destruct (findVersion i (versions st)) as [v|] eqn:HF.
  - exists v. split; [reflexivity|].
    now destruct (findVersion_Some _ _ _ HF) as (_ & _ & _ & Hid & _).
  - now apply findVersion_None in HF.
Qed.

Lemma selection_run (ops : list Op) (st : AppState) (w : World) :
  Forall keeps_id ops -> selection_ok st ->
  selection_ok (fst (run_ops ops st w)).
Proof.
  intros K. revert st w.
  induction K as [|op ops K1 K2 IH]; intros st w H; [exact H|].
  cbn [run_ops]. unfold bind.
  pose proof (selection_step op st w K1 H) as H1.
  destruct (apply_op op st w) as [st1 w1]. now apply IH.
Qed.

Lemma selection_init (c : Collection) : selection_ok (App_init c).
Proof.
  unfold selection_ok, App_init, initialSelectedId. cbn [selectedId versions].
  destruct c as [|v c]; [exact I|].
  destruct (Str.isEmpty (Version.id v)); [exact I | now left].
Qed.

End SelectionFacts.

(** X10.  The selection never dangles.  Through every sequence of calls of
    the nine closures (no [updateVersion] patch carrying an id), from a
    state whose selection is no version or a version of the collection,
    [selectedId] is again null or the id of a version of the collection:
    whenever an id is selected, [selected] is a version with that id and
    the main panel shows it. *)
Theorem selection_invariant (ops : list Op) (st : AppState) (w : World) :
  Forall keeps_id ops -> selection_ok st ->
  let st' := fst (run_ops ops st w) in
  selection_ok st'
  /\ forall i, selectedId st' = Some i ->
               exists v, selectedVersion st' = Some v /\ Version.id v = i.
Proof.
  intros K H st'.
  pose proof (selection_run ops st w K H) as OK.
  split; [exact OK|]. intros i. now apply selection_found.
Qed.

Lemma selection_invariant_witness :
  selection_ok demo_state
  /\ selectedId (fst (run_ops [OpDuplicateVersion "a"; OpDeleteVersion "b";
                               OpAddBug "u" Bug.no_patch]
                              demo_state demo_world)) = Some "u"%string
  /\ exists v,
       selectedVersion (fst (run_ops [OpDuplicateVersion "a"; OpDeleteVersion "b";
                                      OpAddBug "u" Bug.no_patch]
                                     demo_state demo_world)) = Some v
       /\ Version.id v = "u"%string.
Proof.
  assert (H : selection_ok demo_state) by (unfold selection_ok; simpl; auto).
  split; [exact H|]. split; [reflexivity|].
  refine (proj2 (selection_invariant
                   [OpDuplicateVersion "a"; OpDeleteVersion "b";
                    OpAddBug "u" Bug.no_patch]
                   demo_state demo_world _ H) "u"%string eq_refl).
  repeat constructor.
Defined.

(** X11.  The start.  [App] starts with the first version of the stored
    collection selected (with no version, for an empty collection and for a
    first version whose id is the empty string); and from the start on,
    through every sequence of calls of the nine closures (no
    [updateVersion] patch carrying an id), an id that is selected is the id
    of a version of the collection, which [selected] finds. *)
Theorem App_init_selection (c : Collection) :
  selectedVersion (App_init c)
  = match c with
    | first :: _ =>
        if Str.isEmpty (Version.id first) then None else Some first
    | [] => None
    end
  /\ forall ops w,
       Forall keeps_id ops ->
       forall i, selectedId (fst (run_ops ops (App_init c) w)) = Some i ->
                 exists v, selectedVersion (fst (run_ops ops (App_init c) w))
                           = Some v
                           /\ Version.id v = i.
Proof.
  split.
  - unfold selectedVersion, App_init, initialSelectedId.
    cbn [selectedId versions]. destruct c as [|v c]; [reflexivity|].
    destruct (Str.isEmpty (Version.id v)); [reflexivity|].
    unfold findVersion. cbn [find]. now rewrite String.eqb_refl.
  - intros ops w K i. apply selection_found.
    apply selection_run; [exact K | apply selection_init].
Qed.

Lemma App_init_selection_witness :
  exists v,
    selectedVersion
      (fst (run_ops [OpAddVersion; OpDeleteVersion "a"]
                    (App_init (versions demo_state)) demo_world)) = Some v
    /\ Version.id v = "u"%string.
Proof.
  apply (proj2 (App_init_selection (versions demo_state))
               [OpAddVersion; OpDeleteVersion "a"] demo_world).
  - repeat constructor.
  - reflexivity.
Defined.

Local Close Scope nat_scope.

(* ===================================================================== *)
(** ** The search box of the version list *)
(* ===================================================================== *)

Section SearchFacts.

Lemma Substring_empty (s : string) : Substring EmptyString s.
Proof. now exists EmptyString, s. Qed.

Lemma matchesQuery_spec (query : string) (v : Version.t) :
  matchesQuery (Str.toLowerCase (Str.trim query)) v = true <-> Matches query v.
Proof.
  unfold matchesQuery, Matches. cbv zeta.
  rewrite !orb_true_iff, !includes_spec, !existsb_exists.
  split.
  - intros [[[[H | H] | H] | (c & Hc & H)] | (b & Hb & H)].
    + auto.
    + auto.
    + auto.
    + right; right; right; left. exists c. now rewrite <- includes_spec.
    + right; right; right; right. exists b. split; [assumption|].
      now rewrite orb_true_iff, !includes_spec in H.
  - intros [H | [H | [H | [(c & Hc & H) | (b & Hb & H)]]]].
    + auto.
    + auto.
    + auto.
    + left; right. exists c. now rewrite includes_spec.
    + right. exists b. split; [assumption|].
      now rewrite orb_true_iff, !includes_spec.
Qed.

Lemma filter_Selection {A : Type} (f : A -> bool) (P : A -> Prop) (l : list A) :
  (forall x, f x = true <-> P x) -> Selection P l (filter f l).
Proof.
  intros H. induction l as [|x l IH]; cbn [filter]; [constructor|].
  destruct (f x) eqn:E.
  - constructor; [now apply H | exact IH].
  - constructor; [|exact IH]. intros HP. apply H in HP. congruence.
Qed.

Lemma Selection_all {A : Type} (P : A -> Prop) (l : list A) :
  (forall x, P x) -> Selection P l l.
Proof. intros H. induction l; constructor; auto. Qed.

End SearchFacts.

(** X12.  The search of the version list.  [filtered] is [versions]
    without the versions that fail the query, the others as they were and
    in their order; a version passes when the trimmed, lower-cased query
    occurs in its lower-cased label, summary or notes, in the text of one
    of its changes, or in the title or the tags (joined by spaces) of one
    of its bugs.  The description of a bug is not searched.  A query of
    blanks only keeps every version. *)
Theorem filtered_spec (versions : Collection) (query : string) :
  Selection (Matches query) versions (filtered versions query)
  /\ (Str.trim query = EmptyString -> filtered versions query = versions).
Proof.
  unfold filtered.
  destruct (Str.isEmpty (Str.toLowerCase (Str.trim query))) eqn:E.
  - apply isEmpty_true in E. split; [|reflexivity].
    apply Selection_all. intros v. left. unfold Matches.
    rewrite E. apply Substring_empty.
  - split.
    + apply filter_Selection. intros v. apply matchesQuery_spec.
    + intros H. rewrite H in E. discriminate.
Qed.

Lemma filtered_spec_witness :
  filtered feed_collection "   " = feed_collection.
Proof.
  apply (proj2 (filtered_spec feed_collection "   ")). reflexivity.
Defined.

Section QueryFacts.

Lemma is_ws_lower (c : ascii) : Str.is_ws (Str.lower c) = Str.is_ws c.
Proof. destruct c as [[] [] [] [] [] [] [] []]; vm_compute; reflexivity. Qed.

Lemma lower_lower (c : ascii) : Str.lower (Str.lower c) = Str.lower c.
Proof. destruct c as [[] [] [] [] [] [] [] []]; vm_compute; reflexivity. Qed.

Lemma isEmpty_lower (s : string) :
  Str.isEmpty (Str.toLowerCase s) = Str.isEmpty s.
Proof. now destruct s. Qed.

Lemma trimStart_lower (s : string) :
  Str.trimStart (Str.toLowerCase s) = Str.toLowerCase (Str.trimStart s).
Proof.
  induction s as [|c r IH]; [reflexivity|].
  cbn [Str.toLowerCase Str.trimStart]. rewrite is_ws_lower.
  now destruct (Str.is_ws c).
Qed.

Lemma trimEnd_lower (s : string) :
  Str.trimEnd (Str.toLowerCase s) = Str.toLowerCase (Str.trimEnd s).
Proof.
  induction s as [|c r IH]; [reflexivity|].
  cbn [Str.toLowerCase Str.trimEnd]. rewrite is_ws_lower, IH, isEmpty_lower.
  now destruct (Str.is_ws c && Str.isEmpty (Str.trimEnd r)).
Qed.

(** Trimming and lower-casing commute: no letter is white space. *)
Lemma trim_lower (s : string) :
  Str.trim (Str.toLowerCase s) = Str.toLowerCase (Str.trim s).
Proof. unfold Str.trim. now rewrite trimStart_lower, trimEnd_lower. Qed.

(** The query as the two searches use it. *)
Lemma query_normal (a q q' b : string) :
  whitespace a = true -> whitespace b = true ->
  Str.toLowerCase q' = Str.toLowerCase q ->
  Str.toLowerCase (Str.trim (a ++ q' ++ b)) = Str.toLowerCase (Str.trim q).
Proof.
  intros Ha Hb E. now rewrite trim_pad, <- !trim_lower, E.
Qed.

End QueryFacts.

(** X13.  The two search boxes ignore the case of the letters of the query
    and the blanks around it: a query with the same letters in another
    case, with white space before and after it, gives the same list of
    versions and the same feed. *)
Theorem search_ignores_case_and_blanks (Date_value : string -> option Z)
    (c : Collection) (before q q' after severity : string) (onlyOpen : bool) :
  whitespace before = true -> whitespace after = true ->
  Str.toLowerCase q' = Str.toLowerCase q ->
  filtered c (before ++ q' ++ after) = filtered c q
  /\ visibleGlobalBugs Date_value c (before ++ q' ++ after) severity onlyOpen
     = visibleGlobalBugs Date_value c q severity onlyOpen.
Proof.
  intros Ha Hb E. unfold filtered, visibleGlobalBugs.
  now rewrite (query_normal before q q' after Ha Hb E).
Qed.

Lemma search_ignores_case_and_blanks_witness :
  filtered feed_collection "  V0.2 " = filtered feed_collection "v0.2"
  /\ visibleGlobalBugs Iso.value feed_collection "  V0.2 " "all" true
     = visibleGlobalBugs Iso.value feed_collection "v0.2" "all" true.
Proof.
  apply (search_ignores_case_and_blanks Iso.value feed_collection
           "  " "v0.2" "V0.2" " " "all" true); reflexivity.
Defined.

(* ===================================================================== *)
(** ** Persistence: what the effect stores, the next start reads *)
(* ===================================================================== *)

Section PersistFacts.

Lemma lex_colon_nogap r :
  lex LStart (String ":" r) = prepend [TColon] (lex LStart r).
Proof. reflexivity. Qed.

Lemma ser_members_nogap_cons f k y m :
  ser_members_nogap f ((k, y) :: m)
  = ("," ++ quote_str k ++ ":" ++ f y ++ ser_members_nogap f m)%string.
Proof. reflexivity. Qed.

Lemma stringify_nogap_arr x r :
  stringify_nogap (JArr (x :: r))
  = ("[" ++ stringify_nogap x ++ ser_elements stringify_nogap "," r ++ "]")%string.
Proof. reflexivity. Qed.

Lemma stringify_nogap_obj k x r :
  stringify_nogap (JObj ((k, x) :: r))
  = ("{" ++ quote_str k ++ ":" ++ stringify_nogap x
     ++ ser_members_nogap stringify_nogap r ++ "}")%string.
Proof. reflexivity. Qed.

Lemma lex_elements_nogap (tail : string) (l : list value) :
  Forall Lexes_nogap l -> Forall Plain l ->
  lex LStart (ser_elements stringify_nogap "," l ++ tail)%string
  = prepend (flat_map (fun y => TComma :: tokens_of y) l) (lex LStart tail).
Proof.
  intros HL HP. induction l as [|y l IH].
  - cbn. now rewrite prepend_nil.
  - inversion HL as [|? ? Ly Ll]; inversion HP as [|? ? Py Pl]; subst l0 l1 x x0.
    rewrite ser_elements_cons, !append_assoc.
    change (("," ++ ?x)%string) with (String "," x).
    rewrite lex_comma, (Ly Py), (IH Ll Pl), !prepend_prepend.
    reflexivity.
Qed.

Lemma lex_members_nogap (tail : string) (m : list (str * value)) :
  Forall (fun kv => Lexes_nogap (snd kv)) m ->
  Forall (fun kv => narrow (fst kv)) m ->
  Forall (fun kv => Plain (snd kv)) m ->
  lex LStart (ser_members_nogap stringify_nogap m ++ tail)%string
  = prepend (flat_map (fun ky => TComma :: TStr (fst ky) :: TColon
                                        :: tokens_of (snd ky)) m)
            (lex LStart tail).
Proof.
  intros HL HN HP. induction m as [|[k y] m IH].
  - cbn. now rewrite prepend_nil.
  - inversion HL as [|? ? Ly Ll]; inversion HP as [|? ? Py Pl];
      inversion HN as [|? ? Ny Nl]; subst.
    cbn [snd fst] in *. destruct k as [k|u]; [|contradiction].
    rewrite ser_members_nogap_cons, !append_assoc. cbn [quote_str].
    change (("," ++ ?x)%string) with (String "," x).
    rewrite lex_comma, lex_quote.
    change ((":" ++ ?x)%string) with (String ":" x).
    rewrite lex_colon_nogap, (Ly Py), (IH Ll Nl Pl), !prepend_prepend.
    reflexivity.
Qed.

Lemma lex_stringify_nogap (v : value) : Lexes_nogap v.
Proof.
  induction v as [|b|lit|s|l IH|m IH] using value_induction;
    intros HP rest.
  - apply lex_null.
  - destruct b; [apply lex_true | apply lex_false].
  - inversion HP.
  - inversion HP; subst. apply lex_quote.
  - inversion HP as [| | |? Pl|]; subst. destruct l as [|x l].
    + cbn [stringify_nogap tokens_of append].
      now rewrite lex_lbrack, lex_rbrack, prepend_prepend.
    + inversion IH as [|? ? Lx Ll]; inversion Pl as [|? ? Px Pl']; subst.
      rewrite stringify_nogap_arr. cbn [tokens_of].
      rewrite !append_assoc.
      change (("[" ++ ?x)%string) with (String "[" x).
      rewrite lex_lbrack, (Lx Px), (lex_elements_nogap _ l Ll Pl').
      change (("]" ++ ?x)%string) with (String "]" x).
      rewrite lex_rbrack.
      rewrite !prepend_prepend, <- !app_assoc. reflexivity.
  - inversion HP as [| | | |? ND Nm Pm]; subst. destruct m as [|[k x] m].
    + cbn [stringify_nogap tokens_of append].
      now rewrite lex_lbrace, lex_rbrace, prepend_prepend.
    + inversion IH as [|? ? Lx Lm]; inversion Pm as [|? ? Px Pm'];
        inversion Nm as [|? ? Nx Nm']; subst.
      cbn [snd fst] in *. destruct k as [k|u]; [|contradiction].
      rewrite stringify_nogap_obj. cbn [tokens_of quote_str fst].
      rewrite !append_assoc.
      change (("{" ++ ?x)%string) with (String "{" x).
      rewrite lex_lbrace, lex_quote.
      change ((":" ++ ?x)%string) with (String ":" x).
      rewrite lex_colon_nogap, (Lx Px), (lex_members_nogap _ m Lm Nm' Pm').
      change (("}" ++ ?x)%string) with (String "}" x).
      rewrite lex_rbrace.
      rewrite !prepend_prepend, <- !app_assoc. reflexivity.
Qed.

(** [JSON.parse(JSON.stringify(v))] is [v]. *)
Lemma parse_stringify_nogap (v : value) :
  Plain v -> parse (stringify_nogap v) = Some v.
Proof.
  intros HP. unfold parse.
  rewrite <- (append_empty_r (stringify_nogap v)).
  rewrite (lex_stringify_nogap v HP EmptyString).
  cbn [lex at_end prepend].
  now rewrite (run_tokens v HP [] []).
Qed.

(** The text of a value is not the empty string, which [raw ? ... : ...]
    would take for nothing stored. *)
Lemma stringify_nogap_nonempty (v : value) :
  Plain v -> Str.isEmpty (stringify_nogap v) = false.
Proof.
  intros HP. destruct v as [|[|]|lit|[s|u]|[|x l]|[|[k x] m]];
    try reflexivity; inversion HP.
Qed.

End PersistFacts.

(** X14.  What the effect of [usePersistentState] stores, its initializer
    reads back: for every value a Collection is in memory (every value
    without a Number, without a repeated property name and without a code
    unit of 256 or more), and a storage that takes the write, the state the
    next start begins with is the state that was stored, whatever [initial]
    is.  When the storage refuses every access, the effect leaves it as it
    is and the start is [initial].  The stored text and the exported
    document denote the same value. *)
Theorem persistence_roundtrip (key : string) (initial v : value)
    (ls : LocalStorage.t) :
  Plain v ->
  (LocalStorage.denied ls = false ->
   usePersistentState_init key initial (usePersistentState_effect key v ls) = v)
  /\ (LocalStorage.denied ls = true ->
      usePersistentState_effect key v ls = ls
      /\ usePersistentState_init key initial ls = initial)
  /\ parse (stringify_nogap v) = parse (stringify v).
Proof.
  intros HP. unfold usePersistentState_init, usePersistentState_effect,
    LocalStorage.getItem, LocalStorage.setItem.
  split; [|split]; try (intros H; rewrite H).
  - cbn [LocalStorage.denied LocalStorage.items]. rewrite String.eqb_refl.
    now rewrite (stringify_nogap_nonempty v HP), (parse_stringify_nogap v HP).
  - split; reflexivity.
  - now rewrite (parse_stringify_nogap v HP), (parse_stringify v HP).
Qed.

Lemma persistence_roundtrip_witness :
  usePersistentState_init LS_KEY JNull
    (usePersistentState_effect LS_KEY (Collection_to_json (versions demo_state))
                               empty_storage)
  = Collection_to_json (versions demo_state).
Proof.
  apply (persistence_roundtrip LS_KEY JNull
           (Collection_to_json (versions demo_state)) empty_storage).
  - apply Plain_Collection.
  - reflexivity.
Defined.

(* ===================================================================== *)
(** ** BugComposer *)
(* ===================================================================== *)

Section TagFacts.

Lemma trimEnd_idem (s : string) : Str.trimEnd (Str.trimEnd s) = Str.trimEnd s.
Proof.
  induction s as [|c r IH]; [reflexivity|].
  cbn [Str.trimEnd].
  destruct (Str.is_ws c && Str.isEmpty (Str.trimEnd r)) eqn:E; [reflexivity|].
  cbn [Str.trimEnd]. now rewrite IH, E.
Qed.

Lemma trimStart_head (s : string) :
  Str.trimStart s = EmptyString
  \/ exists c r, Str.trimStart s = String c r /\ Str.is_ws c = false.
Proof.
  induction s as [|c r IH]; [now left|].
  cbn [Str.trimStart]. destruct (Str.is_ws c) eqn:E; [exact IH|].
  right. now exists c, r.
Qed.

Lemma trim_idem (s : string) : Str.trim (Str.trim s) = Str.trim s.
Proof.
  unfold Str.trim.
  destruct (trimStart_head s) as [-> | (c & r & -> & Hc)]; [reflexivity|].
  cbn [Str.trimEnd]. rewrite Hc. cbn [andb Str.trimStart]. rewrite Hc.
  cbn [Str.trimEnd]. rewrite Hc. cbn [andb]. now rewrite trimEnd_idem.
Qed.

Lemma units_app (a b : string) : units (a ++ b) = (units a ++ units b)%list.
Proof.
  unfold units. induction a as [|c a IH]; simpl; [reflexivity | now rewrite IH].
Qed.

Lemma units_trimStart (s : string) (c : ascii) :
  In c (units (Str.trimStart s)) -> In c (units s).
Proof.
  induction s as [|x r IH]; [auto|].
  cbn [Str.trimStart]. destruct (Str.is_ws x); [|auto].
  intros H. right. now apply IH.
Qed.

Lemma units_trimEnd (s : string) (c : ascii) :
  In c (units (Str.trimEnd s)) -> In c (units s).
Proof.
  induction s as [|x r IH]; [auto|].
  cbn [Str.trimEnd]. destruct (Str.is_ws x && Str.isEmpty (Str.trimEnd r)).
  - intros [].
  - intros [H | H]; [now left | right; now apply IH].
Qed.

Lemma units_trim (s : string) (c : ascii) :
  In c (units (Str.trim s)) -> In c (units s).
Proof. intros H. now apply units_trimStart, units_trimEnd. Qed.

Lemma split_pieces (sep : ascii) (s x : string) :
  In x (StrOps.split sep s) -> ~ In sep (units x).
Proof.
  revert x. induction s as [|c r IH]; intros x.
  - intros [<- | []]. auto.
  - cbn [StrOps.split]. destruct (Ascii.eqb_spec c sep) as [E|E].
    + intros [<- | H]; [auto | now apply IH].
    + destruct (StrOps.split sep r) as [|h t].
      * intros [<- | []]. cbn. intuition.
      * intros [<- | H].
        -- cbn. intros [F | F]; [contradiction|]. revert F. apply IH. now left.
        -- apply IH. now right.
Qed.

Lemma split_whole (sep : ascii) (x : string) :
  ~ In sep (units x) -> StrOps.split sep x = [x].
Proof.
  induction x as [|c x IH]; [reflexivity|].
  cbn. intros H. destruct (Ascii.eqb_spec c sep) as [E|E]; [tauto|].
  rewrite IH by tauto. reflexivity.
Qed.

Lemma split_app (sep : ascii) (x r : string) :
  ~ In sep (units x) ->
  StrOps.split sep (x ++ String sep r) = x :: StrOps.split sep r.
Proof.
  induction x as [|c x IH].
  - intros _. cbn. now rewrite Ascii.eqb_refl.
  - cbn. intros H. destruct (Ascii.eqb_spec c sep) as [E|E]; [tauto|].
    rewrite IH by tauto. reflexivity.
Qed.

Lemma whitespace_no_comma (p : string) :
  whitespace p = true -> ~ In ","%char (units p).
Proof.
  induction p as [|c p IH]; [auto|].
  cbn [whitespace]. intros H. apply andb_true_iff in H as [Hc Hp].
  cbn. intros [-> | F]; [discriminate | now apply IH].
Qed.

Lemma trim_pad_start (a s : string) :
  whitespace a = true -> Str.trim (a ++ s) = Str.trim s.
Proof. intros H. unfold Str.trim. now rewrite trimStart_pad. Qed.

(** The pieces of tags joined by a comma and blanks, trimmed. *)
Lemma trimmed_pieces (pad before : string) (l : list string) :
  whitespace pad = true -> whitespace before = true ->
  Forall CleanTag l -> l <> [] ->
  map Str.trim (StrOps.split "," (before ++ Str.join ("," ++ pad) l)) = l.
Proof.
  intros Hp Hb HC. revert before Hb.
  induction HC as [|x l (Hx & Ht & Hc) HC IH]; intros before Hb HN;
    [contradiction|].
  destruct l as [|y r].
  - cbn [Str.join]. rewrite split_whole.
    + cbn [map]. now rewrite trim_pad_start, Ht.
    + rewrite units_app, in_app_iff.
      pose proof (whitespace_no_comma before Hb). tauto.
  - change (Str.join ("," ++ pad) (x :: y :: r))
      with (x ++ String "," (pad ++ Str.join ("," ++ pad) (y :: r)))%string.
    rewrite <- (append_assoc before x).
    rewrite split_app.
    + cbn [map]. rewrite trim_pad_start, Ht by assumption.
      f_equal. apply IH; [assumption | discriminate].
    + rewrite units_app, in_app_iff.
      pose proof (whitespace_no_comma before Hb). tauto.
Qed.

End TagFacts.

(** X15.  The tags of [BugComposer].  Every tag made of the text of the tag
    box is not empty, has no white space at either end and holds no comma;
    and tags of that kind, typed with a comma and any blanks between them,
    are the tags made, in their order. *)
Theorem composerTags_spec (text : string) :
  Forall CleanTag (composerTags text)
  /\ forall l pad,
       whitespace pad = true -> Forall CleanTag l ->
       composerTags (Str.join ("," ++ pad) l) = l.
Proof.
  split.
  - apply Forall_forall. intros t Ht. unfold composerTags in Ht.
    apply filter_In in Ht as [Hin Hne].
    apply in_map_iff in Hin as (x & <- & Hx).
    repeat split.
    + intros E. rewrite E in Hne. discriminate.
    + apply trim_idem.
    + intros F. apply units_trim in F. exact (split_pieces _ _ _ Hx F).
  - intros l pad Hp HC. unfold composerTags.
    destruct l as [|x r]; [reflexivity|].
    pose proof (trimmed_pieces pad EmptyString (x :: r) Hp eq_refl HC) as E.
    change (EmptyString ++ Str.join ("," ++ pad) (x :: r))%string
      with (Str.join ("," ++ pad) (x :: r)) in E.
    rewrite E by discriminate.
    apply filter_all. intros t Ht.
    rewrite Forall_forall in HC. destruct (HC t Ht) as (Hne & _).
    now destruct t.
Qed.

Lemma composerTags_spec_witness :
  composerTags "physics, handling" = ["physics"; "handling"]%string.
Proof.
  apply (proj2 (composerTags_spec EmptyString)
               ["physics"; "handling"]%string " "%string eq_refl).
  repeat constructor; try discriminate; simpl; intuition discriminate.
Defined.

Local Open Scope nat_scope.

Section ComposerFacts.

Lemma selectedVersion_Some (st : AppState) (v : Version.t) :
  selectedVersion st = Some v ->
  selectedId st = Some (Version.id v)
  /\ findVersion (Version.id v) (versions st) = Some v.
Proof.
  unfold selectedVersion. destruct (selectedId st) as [i|]; [|discriminate].
  intros HF. destruct (findVersion_Some _ _ _ HF) as (_ & _ & _ & <- & _).
  auto.
Qed.

Lemma trim_nonempty (s : string) :
  Str.trim s <> EmptyString -> s <> EmptyString.
Proof. intros H ->. now apply H. Qed.

End ComposerFacts.

(** X16.  The Add Bug button.  With a title of blanks only it does nothing.
    Otherwise, for the selected version of a collection with distinct
    version ids, it puts one bug on top of the bugs of that version: the
    bug has the next [uuid()] for id, the title as typed (not trimmed, and
    never "Untitled bug"), the description, the severity (low when none is
    given), the status open, the tags made of the tag box and the next two
    readings of the clock.  The bug comes first in the list of open bugs
    of the main panel, and the count of open bugs goes up by one. *)
Theorem BugComposer_add_spec (st : AppState) (w : World) (v : Version.t)
    (title desc sev tags : string) :
  NoDup (ids (versions st)) ->
  selectedVersion st = Some v ->
  (Str.trim title = EmptyString ->
   BugComposer_add (Version.id v) title desc sev tags st w = (st, w))
  /\ (Str.trim title <> EmptyString ->
      let st' := fst (BugComposer_add (Version.id v) title desc sev tags st w) in
      let b := Bug.mk (uuids w (uuid_calls w)) title desc (or_else sev "low")
                      "open" (composerTags tags)
                      (clock w (clock_calls w)) (clock w (S (clock_calls w))) in
      selectedVersion st' = Some (with_bugs (b :: Version.bugs v) v)
      /\ visibleBugs st' true = b :: visibleBugs st true
      /\ openBugs (versions st') = openBugs (versions st) + 1).
Proof.
  intros ND HS. destruct (selectedVersion_Some st v HS) as [Hsel HF].
  split; intros HT; unfold BugComposer_add.
  - now rewrite HT.
  - rewrite (isEmpty_false _ HT). cbv zeta.
    destruct (target_split _ _ _ ND HF) as (pre & post & E & _ & Hpre & Hpost).
    unfold addBug. rewrite HF. unfold bind, uuid, nowISO, ret.
    cbn [fst uuids uuid_calls clock clock_calls Bug.p_title Bug.p_description
         Bug.p_severity Bug.p_status Bug.p_tags prop_or Bug.over].
    rewrite (updateVersion_target st (Version.id v) pre post v)
      by (assumption || reflexivity).
    rewrite merge_bugs.
    assert (ET : or_else title "Untitled bug" = title).
    { unfold or_else. now rewrite (isEmpty_false _ (trim_nonempty _ HT)). }
    assert (ED : or_else desc EmptyString = desc) by now destruct desc.
    rewrite !ET, !ED.
    set (b := Bug.mk _ title desc _ "open" _ _ _).
    assert (S' : selectedVersion
                   (mkApp (pre ++ with_bugs (b :: Version.bugs v) v :: post)
                          (selectedId st))
                 = Some (with_bugs (b :: Version.bugs v) v)).
    { unfold selectedVersion. cbn [selectedId versions]. rewrite Hsel.
      now apply findVersion_first. }
    split; [exact S'|]. split.
    + unfold visibleBugs. now rewrite S', HS.
    + cbn [versions]. rewrite E, !openBugs_target, openCount_with_bugs.
      unfold openCount. cbn [filter]. subst b.
      change (isOpen (Bug.mk _ _ _ _ "open" _ _ _)) with true.
      cbn [List.length]. lia.
Qed.

Lemma BugComposer_add_spec_witness :
  selectedVersion demo_state = Some demo_other
  /\ map Bug.title
         (visibleBugs
            (fst (BugComposer_add "b" " Crash " "" "high" "ui, ,input"
                                  demo_state demo_world)) true)
     = [" Crash "]%string.
Proof.
  split; [reflexivity|].
  destruct (BugComposer_add_spec demo_state demo_world demo_other
                                 " Crash " "" "high" "ui, ,input")
    as [_ B].
  - repeat constructor; simpl; intuition discriminate.
  - reflexivity.
  - destruct B as (_ & B & _); [discriminate|].
    change (Version.id demo_other) with "b"%string in B.
    rewrite B. reflexivity.
Defined.

Local Close Scope nat_scope.

(* ===================================================================== *)
(** ** The main panel, the feed and the colours *)
(* ===================================================================== *)

Section PanelFacts.

Variable Date_value : string -> option Z.

Lemma default_feed_In (c : Collection) (onlyOpen : bool) (fb : FeedBug) :
  In fb (visibleGlobalBugs Date_value c EmptyString "all" onlyOpen)
  <-> In fb (allBugs c) /\ passOpen onlyOpen (bug fb) = true.
Proof.
  unfold visibleGlobalBugs. rewrite sort_In, filter_In.
  unfold passSeverity, passQuery.
  change (Str.toLowerCase (Str.trim EmptyString)) with EmptyString.
  cbn [String.eqb orb]. change (String.eqb "all" "all") with true.
  cbn [orb]. now rewrite !andb_true_r.
Qed.

End PanelFacts.

(** X17.  The main panel and the feed agree.  In a collection with
    distinct version ids, a bug is in the list of the main panel for the
    selected version exactly when the feed without query and severity
    filter, with the same open-only setting, has it as a bug of that
    version. *)
Theorem visibleBugs_feed (Date_value : string -> option Z) (st : AppState)
    (v : Version.t) (onlyOpen : bool) (b : Bug.t) :
  NoDup (ids (versions st)) ->
  selectedVersion st = Some v ->
  In b (visibleBugs st onlyOpen)
  <-> In (mkFeed b (Version.id v) (Version.label v))
         (visibleGlobalBugs Date_value (versions st) EmptyString "all" onlyOpen).
Proof.
  intros ND HS. destruct (selectedVersion_Some st v HS) as [_ HF].
  unfold visibleBugs. rewrite HS, filter_In, default_feed_In, allBugs_In.
  cbn [bug versionId versionLabel]. unfold passOpen. split.
  - intros [Hb Ho]. split; [|exact Ho]. exists v. repeat split; [|exact Hb].
    now destruct (findVersion_Some _ _ _ HF) as (pre & post & -> & _);
      apply in_elt.
  - intros [(v' & Hv' & Hb & Hid & _) Ho]. split; [|exact Ho].
    now rewrite <- (unique_target _ _ _ ND HF v' Hv' (eq_sym Hid)).
Qed.

Lemma visibleBugs_feed_witness :
  selectedVersion stamped_state = Some (with_bugs [stamped_bug] demo_other)
  /\ In (mkFeed stamped_bug "b" "v0.2.0")
        (visibleGlobalBugs Iso.value (versions stamped_state) EmptyString "all" true).
Proof.
  split; [reflexivity|].
  apply (visibleBugs_feed Iso.value stamped_state
           (with_bugs [stamped_bug] demo_other) true stamped_bug).
  - repeat constructor; simpl; intuition discriminate.
  - reflexivity.
  - simpl. auto.
Defined.

(** X18.  The colours of the feed of open bugs.  With "open only" set,
    every entry of the feed has its Resolve button (it is not [closed]), no
    entry has a green dot, and an entry has a gray dot only when its
    severity is none of low, medium, high and critical: gray and green
    otherwise mark closed and resolved bugs, which that feed leaves out. *)
Theorem open_feed_colours (Date_value : string -> option Z) (c : Collection)
    (query severity : string) (fb : FeedBug) :
  In fb (visibleGlobalBugs Date_value c query severity true) ->
  closed (bug fb) = false
  /\ bugColor (bug fb) <> "green"
  /\ (bugColor (bug fb) = "gray" ->
      ~ In (Bug.severity (bug fb)) ["low"; "medium"; "high"; "critical"]%string).
Proof.
  intros H. apply visible_In in H as [_ (HO & _)].
  destruct (HO eq_refl) as [R C].
  apply eqb_neq_iff, negb_true_iff in R, C.
  unfold closed, bugColor. rewrite R, C. split; [reflexivity|].
  destruct (String.eqb_spec (Bug.severity (bug fb)) "low") as [->|L];
    [split; [discriminate | discriminate]|].
  destruct (String.eqb_spec (Bug.severity (bug fb)) "medium") as [->|Me];
    [split; [discriminate | discriminate]|].
  destruct (String.eqb_spec (Bug.severity (bug fb)) "high") as [->|Hi];
    [split; [discriminate | discriminate]|].
  destruct (String.eqb_spec (Bug.severity (bug fb)) "critical") as [->|Cr];
    [split; [discriminate | discriminate]|].
  split; [discriminate|]. intros _. cbn. intuition congruence.
Qed.

Lemma open_feed_colours_witness :
  bugColor (bug feed_entry_open) = "gold"%string
  /\ closed (bug feed_entry_open) = false.
Proof.
  split; [reflexivity|].
  apply (open_feed_colours Iso.value feed_collection EmptyString "all"
                           feed_entry_open).
  vm_compute. auto.
Defined.

(* ===================================================================== *)
(** ** The name of the exported file *)
(* ===================================================================== *)

Section ExportNameFacts.

Lemma replaceAll_gone (a b : ascii) (s : string) :
  a <> b -> ~ In a (units (StrOps.replaceAll a b s)).
Proof.
  intros N. induction s as [|c r IH]; [auto|].
  cbn [StrOps.replaceAll]. unfold units in *. cbn [list_ascii_of_string].
  intros [E | F]; [|now apply IH].
  destruct (Ascii.eqb_spec c a) as [Ec|Ec]; congruence.
Qed.

Lemma digit_not_colon (c : ascii) :
  Str.is_digit c = true -> Ascii.eqb c ":" = false.
Proof.
  intros H. destruct (Ascii.eqb_spec c ":") as [->|]; [discriminate | reflexivity].
Qed.

(** The first 19 code units of a date as [toISOString] writes it, with the
    two colons replaced. *)
Lemma iso_name (t : string) (ms : Z) :
  Iso.value t = Some ms ->
  StrOps.replaceAll ":" "-" (StrOps.slice0 19 t)
  = (substring 0 13 t ++ "-" ++ substring 14 2 t ++ "-" ++ substring 17 2 t)%string.
Proof.
  intros H. unfold Iso.value in H.
  destruct (negb (String.length t =? 24)%nat) eqn:L; [discriminate|].
  apply negb_false_iff, Nat.eqb_eq in L.
  do 24 (destruct t as [|? t]; [discriminate|]).
  destruct t; [|discriminate]. clear L.
  match type of H with
  | (if negb ?c then _ else _) = _ => destruct c eqn:S
  end; [|discriminate].
  cbn [negb] in H.
  unfold Iso.sep in S. cbn [String.get] in S.
  repeat (apply andb_true_iff in S as [S ?]).
  repeat match goal with
         | E : Ascii.eqb _ _ = true |- _ => apply Ascii.eqb_eq in E; subst
         end.
  unfold Iso.num in H.
  cbn [substring String.length Nat.eqb Str.all_digits] in H.
  repeat match type of H with
         | match (if ?c then _ else _) with _ => _ end = _ =>
             destruct c eqn:?; [|discriminate]
         end.
  repeat match goal with
         | E : _ && _ = true |- _ => apply andb_true_iff in E as [? E]
         end.
  unfold StrOps.slice0. cbn [substring StrOps.replaceAll append].
  repeat match goal with
         | E : Str.is_digit _ = true |- _ =>
             apply digit_not_colon in E; rewrite ?E; clear E
         end.
  reflexivity.
Qed.

End ExportNameFacts.

(** X19.  The name of the exported file holds no colon, whatever the clock
    returns; and when the clock returns a date as [toISOString] writes it,
    [YYYY-MM-DDTHH:mm:ss.sssZ], the name is [devlog_YYYY-MM-DDTHH-mm-ss.json]:
    the date and the time to the second, the two colons turned into
    hyphens. *)
Theorem exportName_spec (w : World) :
  let t := clock w (clock_calls w) in
  let name := fst (exportName w) in
  ~ In ":"%char (units name)
  /\ forall ms,
       Iso.value t = Some ms ->
       name = ("devlog_" ++ substring 0 13 t ++ "-" ++ substring 14 2 t
               ++ "-" ++ substring 17 2 t ++ ".json")%string.
Proof.
  intros t name. subst name. unfold exportName, bind, nowISO, ret.
  cbn [fst clock clock_calls]. fold t. split.
  - rewrite !units_app, !in_app_iff. intros [F | [F | F]].
    + cbn in F. intuition discriminate.
    + revert F. apply replaceAll_gone. discriminate.
    + cbn in F. intuition discriminate.
  - intros ms H. rewrite (iso_name t ms H), !append_assoc. reflexivity.
Qed.

Lemma exportName_spec_witness :
  fst (exportName demo_world) = "devlog_2024-03-01T12-00-00.json"%string.
Proof.
  apply (proj2 (exportName_spec demo_world) 1709294400000%Z).
  vm_compute. reflexivity.
Defined.

(* ===================================================================== *)
(** ** Edits of versions, one after the other *)
(* ===================================================================== *)

Section EditFacts.

Lemma merge_label (v : Version.t) (l : string) :
  Version.merge v (patch_label l) = with_label l v.
Proof. reflexivity. Qed.

Lemma with_label_same (v : Version.t) : with_label (Version.label v) v = v.
Proof. now destruct v. Qed.

Lemma bumpButtons_run (kinds : list string) (pre post : Collection) :
  forall (st : AppState) (v : Version.t),
    versions st = pre ++ v :: post ->
    ~ In (Version.id v) (ids pre) -> ~ In (Version.id v) (ids post) ->
    selectedId st = Some (Version.id v) ->
    bumpButtons kinds st
    = mkApp (pre ++ with_label (bumps kinds (Version.label v)) v :: post)
            (Some (Version.id v)).
Proof.
  unfold bumpButtons, bumps.
  induction kinds as [|k ks IH]; intros st v E Hpre Hpost Hsel.
  - cbn [fold_left]. rewrite with_label_same, <- E, <- Hsel. now destruct st.
  - cbn [fold_left]. unfold bumpButton at 2, selectedVersion.
    rewrite Hsel, E, (findVersion_first _ pre post v eq_refl Hpre).
    rewrite (updateVersion_target st (Version.id v) pre post v)
      by (assumption || reflexivity).
    rewrite merge_label, Hsel.
    rewrite (IH _ (with_label (bumpSemver (Version.label v) k) v));
      [reflexivity | reflexivity | assumption ..| reflexivity].
Qed.

Lemma merge_id (v : Version.t) (p : Version.patch) :
  Version.p_id p = None -> Version.id (Version.merge v p) = Version.id v.
Proof. intros H. cbn. now rewrite H. Qed.

Lemma merge_twice (v : Version.t) (p : Version.patch) :
  Version.merge (Version.merge v p) p = Version.merge v p.
Proof.
  destruct p as [[] [] [] [] [] [] []]; reflexivity.
Qed.

Lemma filter_map_same (a : string) (p : Version.patch) (l : Collection) :
  Version.p_id p = None ->
  filter (fun v => negb (String.eqb (Version.id v) a))
         (map (fun v => if String.eqb (Version.id v) a
                        then Version.merge v p else v) l)
  = filter (fun v => negb (String.eqb (Version.id v) a)) l.
Proof.
  intros Hp. induction l as [|v l IH]; [reflexivity|].
  cbn [map filter].
  destruct (String.eqb (Version.id v) a) eqn:Ea.
  - rewrite merge_id, Ea by assumption. exact IH.
  - rewrite Ea. cbn [negb]. now rewrite IH.
Qed.

Lemma filter_map_other (a b : string) (q : Version.patch) (l : Collection) :
  Version.p_id q = None ->
  filter (fun v => negb (String.eqb (Version.id v) a))
         (map (fun v => if String.eqb (Version.id v) b
                        then Version.merge v q else v) l)
  = map (fun v => if String.eqb (Version.id v) b
                  then Version.merge v q else v)
        (filter (fun v => negb (String.eqb (Version.id v) a)) l).
Proof.
  intros Hq. induction l as [|v l IH]; [reflexivity|].
  cbn [map filter].
  destruct (String.eqb (Version.id v) b) eqn:Eb.
  - rewrite merge_id by assumption.
    destruct (String.eqb (Version.id v) a); cbn [negb map]; [exact IH|].
    now rewrite Eb, IH.
  - destruct (String.eqb (Version.id v) a); cbn [negb map]; [exact IH|].
    now rewrite Eb, IH.
Qed.

Lemma deleteVersion_update (st : AppState) (a id : string) (r : Version.patch) :
  deleteVersion a (updateVersion id r st)
  = mkApp (filter (fun v => negb (String.eqb (Version.id v) a))
             (map (fun v => if String.eqb (Version.id v) id
                            then Version.merge v r else v)
                  (versions st)))
          (selectedId (deleteVersion a st)).
Proof.
  unfold deleteVersion, updateVersion, setVersions, setSelectedId.
  cbn [versions selectedId].
  destruct (selectedId st) as [s|]; [|reflexivity].
  now destruct (String.eqb s a).
Qed.

Lemma deleteVersion_eta (st : AppState) (a : string) :
  deleteVersion a st
  = mkApp (filter (fun v => negb (String.eqb (Version.id v) a)) (versions st))
          (selectedId (deleteVersion a st)).
Proof.
  rewrite <- deleteVersion_versions. now destruct (deleteVersion a st).
Qed.

End EditFacts.

(** X20.  The bump buttons.  In a collection with distinct version ids and
    a version selected, pressing +Major, +Minor and +Patch in any sequence
    changes the label of the selected version, to the label bumped in that
    sequence, and nothing else: every other version, every other field of
    the selected one, the order and the selection stay. *)
Theorem bumpButtons_spec (kinds : list string) (st : AppState) (v : Version.t) :
  NoDup (ids (versions st)) ->
  selectedVersion st = Some v ->
  exists pre post,
    versions st = pre ++ v :: post
    /\ bumpButtons kinds st
       = mkApp (pre ++ with_label (bumps kinds (Version.label v)) v :: post)
               (selectedId st).
Proof.
  intros ND HS. destruct (selectedVersion_Some st v HS) as [Hsel HF].
  destruct (target_split _ _ _ ND HF) as (pre & post & E & _ & Hpre & Hpost).
  exists pre, post. split; [exact E|].
  rewrite Hsel. now apply bumpButtons_run.
Qed.

Lemma bumpButtons_spec_witness :
  selectedVersion demo_state = Some demo_other
  /\ exists pre post,
       versions demo_state = pre ++ demo_other :: post
       /\ bumpButtons ["major"; "patch"] demo_state
          = mkApp (pre ++ with_label "v1.0.1" demo_other :: post) (Some "b"%string).
Proof.
  split; [reflexivity|].
  apply (bumpButtons_spec ["major"; "patch"] demo_state demo_other).
  - repeat constructor; simpl; intuition discriminate.
  - reflexivity.
Defined.

(** X21.  Edits of versions compose.  The patches carry no id.  Patches of
    two different versions can be applied in either order; a patch applied
    twice is the patch applied once; a version patched and then deleted is
    the version deleted; and deleting a version and patching a version can
    be done in either order. *)
Theorem updateVersion_algebra (st : AppState) (a b : string)
    (p q : Version.patch) :
  Version.p_id p = None -> Version.p_id q = None ->
  (a <> b -> updateVersion a p (updateVersion b q st)
             = updateVersion b q (updateVersion a p st))
  /\ updateVersion a p (updateVersion a p st) = updateVersion a p st
  /\ deleteVersion a (updateVersion a p st) = deleteVersion a st
  /\ deleteVersion a (updateVersion b q st)
     = updateVersion b q (deleteVersion a st).
Proof.
  intros Hp Hq. repeat split.
  - intros N. unfold updateVersion, setVersions. cbn [versions selectedId].
    f_equal. rewrite !map_map. apply map_ext. intros v.
    destruct (String.eqb (Version.id v) b) eqn:Eb;
      destruct (String.eqb (Version.id v) a) eqn:Ea;
      rewrite ?merge_id by assumption; rewrite ?Ea, ?Eb; try reflexivity.
    apply String.eqb_eq in Ea, Eb. congruence.
  - unfold updateVersion, setVersions. cbn [versions selectedId].
    f_equal. rewrite map_map. apply map_ext. intros v.
    destruct (String.eqb (Version.id v) a) eqn:Ea.
    + rewrite merge_id, Ea by assumption. apply merge_twice.
    + now rewrite Ea.
  - rewrite deleteVersion_update, filter_map_same by assumption.
    symmetry. apply deleteVersion_eta.
  - rewrite deleteVersion_update, filter_map_other by assumption.
    unfold updateVersion, setVersions.
    now rewrite deleteVersion_versions.
Qed.

Lemma updateVersion_algebra_witness :
  updateVersion "a" (patch_label "v9.9.9")
    (updateVersion "b" (Version.patch_bugs [demo_bug]) demo_state)
  = updateVersion "b" (Version.patch_bugs [demo_bug])
      (updateVersion "a" (patch_label "v9.9.9") demo_state).
Proof.
  apply (updateVersion_algebra demo_state "a" "b" (patch_label "v9.9.9")
           (Version.patch_bugs [demo_bug]));
    [reflexivity | reflexivity | discriminate].
Defined.

(* ===================================================================== *)
(** ** Bugs updated at the same time *)
(* ===================================================================== *)

Section StableFacts.
Context {A : Type} (cmp : A -> A -> option Z) (key : A -> Z).

Lemma insert_stable (x : A) (l : list A) (k : Z) :
  (forall y, In y l -> comesAfter cmp x y = (key x <? key y)) ->
  filter (fun y => key y =? k) (insert cmp x l)
  = filter (fun y => key y =? k) (x :: l).
Proof.
  induction l as [|y l IH]; intros H; [reflexivity|].
  cbn [insert]. rewrite (H y) by (simpl; auto).
  destruct (Z.ltb_spec (key x) (key y)) as [L|L]; [|reflexivity].
  cbn [filter]. rewrite IH by (intros; apply H; simpl; auto).
  cbn [filter].
  destruct (Z.eqb_spec (key y) k), (Z.eqb_spec (key x) k); try reflexivity.
  lia.
Qed.

Lemma sort_stable (l : list A) (k : Z) :
  (forall x y, In x l -> In y l -> comesAfter cmp x y = (key x <? key y)) ->
  filter (fun y => key y =? k) (sort cmp l) = filter (fun y => key y =? k) l.
Proof.
  induction l as [|x l IH]; intros H; [reflexivity|].
  cbn [sort fold_right]. fold (sort cmp l).
  rewrite insert_stable.
  - cbn [filter]. rewrite IH by (intros; apply H; now right). reflexivity.
  - intros y Hy. apply H; [now left | right; now apply sort_In in Hy].
Qed.

Lemma filter_filter_Selection (f g : A -> bool) (P Q : A -> Prop) (l : list A) :
  (forall x, f x = true <-> P x) -> (forall x, g x = true <-> Q x) ->
  Selection (fun x => P x /\ Q x) l (filter g (filter f l)).
Proof.
  intros HP HQ. induction l as [|x l IH]; cbn [filter]; [constructor|].
  destruct (f x) eqn:Ef.
  - cbn [filter]. destruct (g x) eqn:Eg.
    + constructor; [|exact IH]. split; [now apply HP | now apply HQ].
    + constructor; [|exact IH]. intros [_ F]. apply HQ in F. congruence.
  - constructor; [|exact IH]. intros [F _]. apply HP in F. congruence.
Qed.

End StableFacts.

(** X22.  Ties in the feed.  When the [updatedAt] of the entries of the
    feed are dates, the entries of the feed that were updated at the same
    time stand in the order of [allBugs], that of the collection: for every
    time, they are the entries of [allBugs] that pass the filters and have
    that time, as they were and in their order. *)
Theorem feed_ties (Date_value : string -> option Z) (c : Collection)
    (query severity : string) (onlyOpen : bool) (t : Z) :
  let feed := visibleGlobalBugs Date_value c query severity onlyOpen in
  (forall fb, In fb feed -> Date_value (Bug.updatedAt (bug fb)) <> None) ->
  Selection (fun fb => Visible query severity onlyOpen (bug fb)
                       /\ updated_ms Date_value fb = t)
            (allBugs c)
            (filter (fun fb => updated_ms Date_value fb =? t) feed).
Proof.
  intros feed H. subst feed. unfold visibleGlobalBugs in *.
  rewrite (sort_stable _ (updated_ms Date_value)).
  - apply filter_filter_Selection.
    + intros fb. apply passes_Visible.
    + intros fb. apply Z.eqb_eq.
  - intros x y Hx Hy. apply comesAfter_dates; apply H; now apply sort_In.
Qed.

Lemma feed_ties_witness :
  map (fun fb => (Bug.id (bug fb), versionId fb))
      (filter (fun fb => updated_ms Iso.value fb =? 1704412800000)
              (visibleGlobalBugs Iso.value tie_collection "  COLLIDER " "high"
                                 false))
  = [("1", "v1"); ("3", "v2")]%string
  /\ Selection (fun fb => Visible "  COLLIDER " "high" false (bug fb)
                          /\ updated_ms Iso.value fb = 1704412800000)
               (allBugs tie_collection)
               (filter (fun fb => updated_ms Iso.value fb =? 1704412800000)
                       (visibleGlobalBugs Iso.value tie_collection
                                          "  COLLIDER " "high" false)).
Proof.
  split; [vm_compute; reflexivity|].
  apply (feed_ties Iso.value tie_collection "  COLLIDER " "high" false
                   1704412800000).
  intros fb Hfb. vm_compute in Hfb.
  destruct Hfb as [<- | [<- | [<- | []]]]; vm_compute; discriminate.
Defined.
